(** * The node modal of the JSON graph editor: path codec, node normaliser,
      tree patcher and the Save handler

    A shallow embedding of [src/features/modals/NodeModal/index.tsx].

    Strings are sequences of code units; the model has the code units below
    256, so that a Rocq [string] is a JavaScript string.  Numbers that occur
    as path segments are non-negative integers, modelled by [N]; the
    conversions between such a number and a string are modelled below 2^53,
    where every integer is a double and is written with all its digits,
    which covers every array index.  Numbers inside documents are carried
    along and never computed with; they are modelled by [Z]. *)

From Stdlib Require Import String Ascii ZArith NArith List Lia.
From Stdlib Require Import Decimal DecimalString DecimalPos DecimalN.
From stdpp Require Import base option list strings.

Local Open Scope string_scope.
Local Open Scope list_scope.

(** ** Characters and strings *)

Module Str.

Definition is_digit (c : ascii) : bool :=
  let n := nat_of_ascii c in (48 <=? n)%nat && (n <=? 57)%nat.

(** The white space and line terminators that [Number] trims: TAB, LF, VT,
    FF, CR, SP and NBSP (the ones below 256). *)
Definition is_space (c : ascii) : bool :=
  let n := nat_of_ascii c in
  (n =? 9)%nat || (n =? 10)%nat || (n =? 11)%nat || (n =? 12)%nat
  || (n =? 13)%nat || (n =? 32)%nat || (n =? 160)%nat.

(** The double quote, code unit 34. *)
Definition quote : ascii := ascii_of_nat 34.

Fixpoint ltrim (s : string) : string :=
  match s with
  | String c s' => if is_space c then ltrim s' else s
  | EmptyString => EmptyString
  end.

Fixpoint rtrim (s : string) : string :=
  match s with
  | String c s' =>
      match rtrim s' with
      | EmptyString => if is_space c then EmptyString else String c EmptyString
      | r => String c r
      end
  | EmptyString => EmptyString
  end.

Definition trim (s : string) : string := rtrim (ltrim s).

(** [l.join(sep)] on an array of strings. *)
Fixpoint join (sep : string) (l : list string) : string :=
  match l with
  | [] => EmptyString
  | [x] => x
  | x :: l' => x +:+ sep +:+ join sep l'
  end.

Definition cons_head (c : ascii) (l : list string) : list string :=
  match l with
  | p :: ps => String c p :: ps
  | [] => [String c EmptyString]
  end.

(** [s.split(sep)] for a separator [sep] of two code units [a], [b]: the
    occurrences are taken from left to right and do not overlap. *)
Fixpoint split2 (a b : ascii) (s : string) : list string :=
  match s with
  | EmptyString => [EmptyString]
  | String c s' =>
      match s' with
      | String c' s'' =>
          if Ascii.eqb c a && Ascii.eqb c' b
          then EmptyString :: split2 a b s''
          else cons_head c (split2 a b s')
      | EmptyString => cons_head c (split2 a b s')
      end
  end.

(** [s.replace(/c/g, empty)]: every occurrence of the code unit is removed. *)
Fixpoint remove_all (c : ascii) (s : string) : string :=
  match s with
  | EmptyString => EmptyString
  | String x s' =>
      if Ascii.eqb x c then remove_all c s' else String x (remove_all c s')
  end.

Fixpoint contains (c : ascii) (s : string) : bool :=
  match s with
  | EmptyString => false
  | String x s' => Ascii.eqb x c || contains c s'
  end.

(** Does [s] contain the two code units [a], [b] in a row? *)
Fixpoint contains2 (a b : ascii) (s : string) : bool :=
  match s with
  | EmptyString => false
  | String c s' =>
      match s' with
      | String c' _ => (Ascii.eqb c a && Ascii.eqb c' b) || contains2 a b s'
      | EmptyString => false
      end
  end.

Fixpoint all_chars (f : ascii -> bool) (s : string) : bool :=
  match s with
  | EmptyString => true
  | String c s' => f c && all_chars f s'
  end.

(** The decimal numeral of a non-negative integer, as [String(n)] and the
    template literal write it. *)
Definition of_N (n : N) : string := NilZero.string_of_uint (N.to_uint n).

Definition of_Z (z : Z) : string :=
  match z with
  | Zneg p => String "-" (of_N (Npos p))
  | _ => of_N (Z.to_N z)
  end.

End Str.

(** ** [Number(s)] on a string

    [Number] reads a string by the StringNumericLiteral grammar.  The model
    tells apart the strings that are not numerals ([NaN]), those that denote a
    non-negative integer below 2^53 written with digits only (decimal, or
    with a [0x], [0o], [0b] prefix) and the remaining numerals (larger,
    signed, with a fraction or an exponent, [Infinity]), whose floating-point
    value is not modelled. *)

Inductive numeral : Type :=
  | IsNaN
  | IsIndex (n : N)
  | IsOther.

Module Numeral.
Import Str.

Definition decimal_value (s : string) : option N :=
  N.of_uint <$> NilZero.uint_of_string s.

Definition digit_value (c : ascii) : option N :=
  let n := N_of_ascii c in
  if is_digit c then Some (n - 48)%N
  else if (97 <=? n)%N && (n <=? 102)%N then Some (n - 87)%N
  else if (65 <=? n)%N && (n <=? 70)%N then Some (n - 55)%N
  else None.

Fixpoint radix_go (base : N) (acc : N) (s : string) : option N :=
  match s with
  | EmptyString => Some acc
  | String c s' =>
      match digit_value c with
      | Some d => if (d <? base)%N then radix_go base (acc * base + d)%N s' else None
      | None => None
      end
  end.

Definition radix_value (base : N) (s : string) : option N :=
  match s with
  | EmptyString => None
  | _ => radix_go base 0%N s
  end.

(** NonDecimalIntegerLiteral: [0x], [0o] or [0b] and at least one digit. *)
Definition non_decimal_value (s : string) : option N :=
  match s with
  | String z (String p r) =>
      if Ascii.eqb z "0" then
        if Ascii.eqb p "x" || Ascii.eqb p "X" then radix_value 16 r
        else if Ascii.eqb p "o" || Ascii.eqb p "O" then radix_value 8 r
        else if Ascii.eqb p "b" || Ascii.eqb p "B" then radix_value 2 r
        else None
      else None
  | _ => None
  end.

Fixpoint skip_digits (s : string) : string :=
  match s with
  | String c s' => if is_digit c then skip_digits s' else s
  | EmptyString => EmptyString
  end.

Definition starts_with_digit (s : string) : bool :=
  match s with
  | String c _ => is_digit c
  | EmptyString => false
  end.

(** Nothing, or an ExponentPart up to the end of the string. *)
Definition exponent_opt (s : string) : bool :=
  match s with
  | EmptyString => true
  | String c s1 =>
      (Ascii.eqb c "e" || Ascii.eqb c "E")
      && let s2 := match s1 with
                   | String g s2 =>
                       if Ascii.eqb g "+" || Ascii.eqb g "-" then s2 else s1
                   | EmptyString => s1
                   end in
         starts_with_digit s2 && String.eqb (skip_digits s2) EmptyString
  end.

Definition unsigned_decimal_literal (s : string) : bool :=
  String.eqb s "Infinity"
  || match skip_digits s with
     | String c r =>
         if Ascii.eqb c "."
         then (starts_with_digit s || starts_with_digit r)
              && exponent_opt (skip_digits r)
         else starts_with_digit s && exponent_opt (String c r)
     | EmptyString => starts_with_digit s
     end.

Definition decimal_literal (s : string) : bool :=
  match s with
  | String c s' =>
      if Ascii.eqb c "+" || Ascii.eqb c "-"
      then unsigned_decimal_literal s'
      else unsigned_decimal_literal s
  | EmptyString => false
  end.

(** The integers below [2^53] are doubles. *)
Definition exact_bound : N := 9007199254740992.

Definition exact (n : N) : numeral :=
  if (n <? exact_bound)%N then IsIndex n else IsOther.

Definition Number_ (s : string) : numeral :=
  let t := trim s in
  match t with
  | EmptyString => IsIndex 0
  | _ =>
      match decimal_value t with
      | Some n => exact n
      | None =>
          match non_decimal_value t with
          | Some n => exact n
          | None => if decimal_literal t then IsOther else IsNaN
          end
      end
  end.

End Numeral.

(** ** Structural paths and their bracket notation *)

(** A segment of [NodeData["path"]]: an array index or an object key. *)
Inductive segment : Type :=
  | Index (n : N)
  | Key (s : string).

Abbreviation JSONPath := (list segment).

(** [s] between double quotes. *)
Definition quoted (s : string) : string :=
  String Str.quote (s +:+ String Str.quote EmptyString).

(** A number is kept as it is, a string is put between double quotes. *)
Definition render_segment (seg : segment) : string :=
  match seg with
  | Index n => Str.of_N n
  | Key s => quoted s
  end.

(** The argument is optional in the source ([path?]): [None] is [undefined]. *)
Definition jsonPathToString (p : option JSONPath) : string :=
  match p with
  | None | Some [] => "$"
  | Some p => "$[" +:+ Str.join "][" (map render_segment p) +:+ "]"
  end.

(** The [replace] of [updateJsonAtPath]: its pattern has two alternatives,
    each anchored, and the flag g, so at most a leading dollar and bracket
    and, after them, a trailing bracket are removed. *)
Fixpoint strip_trailing_bracket (s : string) : string :=
  match s with
  | EmptyString => EmptyString
  | String c s' =>
      match s' with
      | EmptyString => if Ascii.eqb c "]" then EmptyString else s
      | _ => String c (strip_trailing_bracket s')
      end
  end.

Definition strip_brackets (s : string) : string :=
  strip_trailing_bracket
    match s with
    | String c (String c' r) =>
        if Ascii.eqb c "$" && Ascii.eqb c' "[" then r else s
    | _ => s
    end.

(** A piece that [Number] reads as NaN is a key, with every double quote
    removed; any other piece is the number read.  [None] when the piece is a
    numeral whose value the model does not have. *)
Definition read_segment (seg : string) : option segment :=
  match Numeral.Number_ seg with
  | IsNaN => Some (Key (Str.remove_all Str.quote seg))
  | IsIndex n => Some (Index n)
  | IsOther => None
  end.

(** The [pathSegments] of [updateJsonAtPath]. *)
Definition pathSegments (p : string) : option JSONPath :=
  mapM read_segment (Str.split2 "]" "[" (strip_brackets p)).

(** The keys that the bracket notation carries unharmed: those without a
    double quote and without a closing bracket next to an opening one. *)
Definition key_safe (s : string) : bool :=
  negb (Str.contains Str.quote s) && negb (Str.contains2 "]" "[" s).

(** The segments that it carries unharmed: such keys, and the indices in
    the range of the model. *)
Definition segment_safe (seg : segment) : bool :=
  match seg with
  | Index n => (n <? Numeral.exact_bound)%N
  | Key s => key_safe s
  end.

(** ** Values, objects and the heap *)

Abbreviation loc := nat.

Inductive value : Type :=
  | VUndefined
  | VNull
  | VBool (b : bool)
  | VNumber (z : Z)
  | VString (s : string)
  | VObject (l : loc).

(** Own properties, in the order [Object.entries] and [JSON.stringify]
    enumerate them.  The functions on property lists below take any type of
    values, so that they serve for the members of a JSON text too. *)
Abbreviation props := (list (string * value)).

(** An ordinary object, or an array: its elements (a hole reads as
    [undefined] and is kept as [VUndefined]) and the properties that are
    neither an index nor [length]. *)
Inductive object : Type :=
  | Obj (ps : props)
  | Arr (elems : list value) (ps : props).

(** Cell [l] of the heap is the object at address [l]; [h ++ [o]] allocates. *)
Abbreviation heap := (list object).

Inductive error : Type := TypeError | RangeError | SyntaxError.

(** How an evaluation ends: with a value, with an exception, or outside of
    what the model covers. *)
Inductive completion (A : Type) : Type :=
  | Normal (a : A)
  | Throw (e : error)
  | Unsupported.
Arguments Normal {A} a.
Arguments Throw {A} e.
Arguments Unsupported {A}.

Definition cbind {A B} (c : completion A) (f : A -> completion B) : completion B :=
  match c with
  | Normal a => f a
  | Throw e => Throw e
  | Unsupported => Unsupported
  end.

Fixpoint cmapM {A B} (f : A -> completion B) (l : list A) : completion (list B) :=
  match l with
  | [] => Normal []
  | x :: l' => cbind (f x) (fun y => cbind (cmapM f l') (fun ys => Normal (y :: ys)))
  end.

(** Computations on the heap. *)
Definition JS (A : Type) : Type := heap -> heap * completion A.

Definition ret {A} (a : A) : JS A := fun h => (h, Normal a).
Definition throw {A} (e : error) : JS A := fun h => (h, Throw e).
Definition unsupported {A} : JS A := fun h => (h, Unsupported).
Definition bind {A B} (m : JS A) (f : A -> JS B) : JS B :=
  fun h =>
    match m h with
    | (h', Normal a) => f a h'
    | (h', Throw e) => (h', Throw e)
    | (h', Unsupported) => (h', Unsupported)
    end.

Declare Scope js_scope.
Delimit Scope js_scope with js.
Notation "x <- m ;; k" := (bind m (fun x => k))
  (at level 100, m at next level, right associativity) : js_scope.
Notation "m ;;; k" := (bind m (fun _ => k))
  (at level 100, right associativity) : js_scope.

Definition alloc (o : object) : JS value :=
  fun h => (h ++ [o], Normal (VObject (length h))).

(** ToBoolean. *)
Definition truthy (v : value) : bool :=
  match v with
  | VUndefined | VNull => false
  | VBool b => b
  | VNumber z => negb (z =? 0)%Z
  | VString s => negb (String.eqb s EmptyString)
  | VObject _ => true
  end.

(** [typeof v === 'object'], which holds of [null] too. *)
Definition typeof_object (v : value) : bool :=
  match v with
  | VNull | VObject _ => true
  | _ => false
  end.

(** *** Property keys *)

(** ToPropertyKey of a segment. *)
Definition property_key (seg : segment) : string :=
  match seg with
  | Index n => Str.of_N n
  | Key s => s
  end.

(** An array index is a canonical numeral below 2^32 - 1. *)
Definition array_index (k : string) : option N :=
  match Numeral.decimal_value k with
  | Some n =>
      if String.eqb (Str.of_N n) k && (n <? 4294967295)%N then Some n else None
  | None => None
  end.

Fixpoint lookup_prop {V} (k : string) (ps : list (string * V)) : option V :=
  match ps with
  | [] => None
  | (k', v) :: ps' => if String.eqb k' k then Some v else lookup_prop k ps'
  end.

Fixpoint replace_prop {V} (k : string) (v : V) (ps : list (string * V))
  : list (string * V) :=
  match ps with
  | [] => []
  | (k', v') :: ps' =>
      if String.eqb k' k then (k, v) :: ps' else (k', v') :: replace_prop k v ps'
  end.

(** A new index key goes among the index keys, in ascending order; these
    come before all other keys. *)
Fixpoint insert_index {V} (n : N) (k : string) (v : V) (ps : list (string * V))
  : list (string * V) :=
  match ps with
  | [] => [(k, v)]
  | (k', v') :: ps' =>
      match array_index k' with
      | Some n' =>
          if (n' <? n)%N then (k', v') :: insert_index n k v ps' else (k, v) :: ps
      | None => (k, v) :: ps
      end
  end.

(** Writing an own data property of an ordinary object: an existing key
    keeps its place, a new one is added in property order. *)
Definition define_prop {V} (k : string) (v : V) (ps : list (string * V))
  : list (string * V) :=
  match lookup_prop k ps with
  | Some _ => replace_prop k v ps
  | None =>
      match array_index k with
      | Some n => insert_index n k v ps
      | None => ps ++ [(k, v)]
      end
  end.

(** The names that [Object.prototype] and [Array.prototype] answer when an
    object has no own property of that name.  The model has no prototype
    objects: reading such a name is outside of it. *)
Definition object_prototype_names : list string :=
  [ "constructor"; "hasOwnProperty"; "isPrototypeOf"; "propertyIsEnumerable";
    "toLocaleString"; "toString"; "valueOf"; "__proto__";
    "__defineGetter__"; "__defineSetter__"; "__lookupGetter__";
    "__lookupSetter__" ].

Definition array_prototype_names : list string :=
  [ "at"; "concat"; "copyWithin"; "entries"; "every"; "fill"; "filter";
    "find"; "findIndex"; "findLast"; "findLastIndex"; "flat"; "flatMap";
    "forEach"; "includes"; "indexOf"; "join"; "keys"; "lastIndexOf"; "map";
    "pop"; "push"; "reduce"; "reduceRight"; "reverse"; "shift"; "slice";
    "some"; "sort"; "splice"; "toReversed"; "toSorted"; "toSpliced";
    "unshift"; "values"; "with" ].

Definition mem_string (k : string) (l : list string) : bool :=
  existsb (String.eqb k) l.

Definition inherited (o : object) (k : string) : bool :=
  match o with
  | Obj _ => mem_string k object_prototype_names
  | Arr _ _ =>
      mem_string k object_prototype_names || mem_string k array_prototype_names
  end.

(** *** Reading and writing a property of an object *)

Definition get_own (o : object) (k : string) : option value :=
  match o with
  | Obj ps => lookup_prop k ps
  | Arr es ps =>
      match array_index k with
      | Some n => es !! N.to_nat n
      | None =>
          if String.eqb k "length" then Some (VNumber (Z.of_nat (length es)))
          else lookup_prop k ps
      end
  end.

(** [o[k]] for the object at [l]. *)
Definition get (l : loc) (k : string) : JS value :=
  fun h =>
    match h !! l with
    | None => (h, Unsupported)
    | Some o =>
        match get_own o k with
        | Some v => (h, Normal v)
        | None => if inherited o k then (h, Unsupported) else (h, Normal VUndefined)
        end
    end.

(** [a[n] = v]: past the end the array grows, leaving holes. *)
Definition set_elem (n : nat) (v : value) (es : list value) : list value :=
  if (n <? length es)%nat then <[n := v]> es
  else es ++ replicate (n - length es) VUndefined ++ [v].

Definition resize (n : nat) (es : list value) : list value :=
  take n es ++ replicate (n - length es) VUndefined.

(** [a.length = v]: the length that [v] converts to, [Throw RangeError] when
    it is not a valid array length. *)
Definition length_of_value (v : value) : completion nat :=
  let check (z : Z) : completion nat :=
    if (0 <=? z)%Z && (z <? 4294967296)%Z then Normal (Z.to_nat z)
    else Throw RangeError in
  match v with
  | VUndefined => Throw RangeError
  | VNull => Normal 0%nat
  | VBool b => Normal (if b then 1%nat else 0%nat)
  | VNumber z => check z
  | VString s =>
      match Numeral.Number_ s with
      | IsIndex n => check (Z.of_N n)
      | IsNaN => Throw RangeError
      | IsOther => Unsupported
      end
  | VObject _ => Unsupported
  end.

Definition is_Some_bool {A} (o : option A) : bool :=
  match o with Some _ => true | None => false end.

Definition proto_key : string := "__proto__".

(** The setter of the inherited accessor [__proto__]: it ignores a value
    that is neither an object nor [null], and changes the prototype
    otherwise, which the model does not follow. *)
Definition proto_setter (v : value) : completion unit :=
  match v with
  | VObject _ | VNull => Unsupported
  | _ => Normal tt
  end.

(** [o[k] = v] for the object at [l].  Without an own property of that name,
    [__proto__] is the accessor of [Object.prototype]; every other name
    becomes an own data property. *)
Definition put (l : loc) (k : string) (v : value) : JS unit :=
  fun h =>
    match h !! l with
    | None => (h, Unsupported)
    | Some (Obj ps) =>
        if String.eqb k proto_key && negb (is_Some_bool (lookup_prop k ps))
        then (h, proto_setter v)
        else (<[l := Obj (define_prop k v ps)]> h, Normal tt)
    | Some (Arr es ps) =>
        match array_index k with
        | Some n => (<[l := Arr (set_elem (N.to_nat n) v es) ps]> h, Normal tt)
        | None =>
            if String.eqb k "length" then
              match length_of_value v with
              | Normal n => (<[l := Arr (resize n es) ps]> h, Normal tt)
              | Throw e => (h, Throw e)
              | Unsupported => (h, Unsupported)
              end
            else if String.eqb k proto_key && negb (is_Some_bool (lookup_prop k ps))
            then (h, proto_setter v)
            else (<[l := Arr es (define_prop k v ps)]> h, Normal tt)
        end
    end.

(** ** JSON texts

    A JSON text is kept as its syntax tree: [JSON.stringify] yields the tree
    of a value and [JSON.parse] allocates the value of a tree.  The members
    of an object are in the order of the text, duplicates included. *)

#[local] Unset Elimination Schemes.
Inductive json : Type :=
  | JNull
  | JBool (b : bool)
  | JNumber (z : Z)
  | JString (s : string)
  | JArray (items : list json)
  | JObject (members : list (string * json)).
#[local] Set Elimination Schemes.

(** [JSON.stringify] on the heap: a property whose value is [undefined] is
    left out of an object and written [null] in an array; a cyclic value
    throws a TypeError.  A chain of nested objects that is longer than the
    number of objects visits one of them twice, so the recursion is cut at
    that depth. *)
Fixpoint to_json (fuel : nat) (h : heap) (v : value) : completion (option json) :=
  match v with
  | VUndefined => Normal None
  | VNull => Normal (Some JNull)
  | VBool b => Normal (Some (JBool b))
  | VNumber z => Normal (Some (JNumber z))
  | VString s => Normal (Some (JString s))
  | VObject l =>
      match fuel with
      | O => Throw TypeError
      | S fuel' =>
          match h !! l with
          | None => Unsupported
          | Some (Obj ps) =>
              cbind
                (cmapM (fun kv : string * value =>
                          cbind (to_json fuel' h kv.2)
                                (fun oj => Normal (pair kv.1 <$> oj))) ps)
                (fun ms => Normal (Some (JObject (omap id ms))))
          | Some (Arr es _) =>
              cbind
                (cmapM (fun e => cbind (to_json fuel' h e)
                                       (fun oj => Normal (default JNull oj))) es)
                (fun items => Normal (Some (JArray items)))
          end
      end
  end.

Definition stringify (v : value) : JS (option json) :=
  fun h => (h, to_json (length h) h v).

(** Allocating the values of a list, from left to right. *)
Definition thread {A B} (f : A -> heap -> heap * B) : list A -> heap -> heap * list B :=
  fix go (l : list A) (h : heap) : heap * list B :=
    match l with
    | [] => (h, [])
    | x :: r =>
        let '(h1, y) := f x h in
        let '(h2, ys) := go r h1 in
        (h2, y :: ys)
    end.

(** CreateDataProperty for each member in turn, on a new object. *)
Definition build_props {V} (kvs : list (string * V)) : list (string * V) :=
  fold_left (fun ps kv => define_prop kv.1 kv.2 ps) kvs [].

(** [JSON.parse] of a text: every array and object of the tree is a new
    object on the heap; a key that occurs twice keeps its first place and
    its last value. *)
Fixpoint from_json (j : json) (h : heap) : heap * value :=
  match j with
  | JNull => (h, VNull)
  | JBool b => (h, VBool b)
  | JNumber z => (h, VNumber z)
  | JString s => (h, VString s)
  | JArray items =>
      let '(h', vs) := thread from_json items h in
      (h' ++ [Arr vs []], VObject (length h'))
  | JObject members =>
      let '(h', kvs) :=
        thread (fun (kj : string * json) h =>
                  let '(h1, v) := from_json kj.2 h in (h1, (kj.1, v)))
               members h in
      (h' ++ [Obj (build_props kvs)], VObject (length h'))
  end.

Definition parse (j : json) : JS value :=
  fun h => let '(h', v) := from_json j h in (h', Normal v).

(** [JSON.parse(JSON.stringify(v))].  [JSON.stringify(undefined)] is
    [undefined], which [JSON.parse] rejects. *)
Definition clone (v : value) : JS value :=
  (oj <- stringify v ;;
   match oj with
   | Some j => parse j
   | None => throw SyntaxError
   end)%js.

(** ** The tree patcher *)

(** The module is strict mode code, so the assignment to a property of a
    primitive value throws a TypeError, whatever the read before it gave; so
    does any property access on [null] or [undefined].  The one exception is
    the inherited accessor [__proto__]. *)
Definition on_object {A} (current : value) (k : string) (f : loc -> JS A) : JS A :=
  match current with
  | VObject l => f l
  | VUndefined | VNull => throw TypeError
  | VBool _ | VNumber _ | VString _ =>
      if String.eqb k proto_key then unsupported else throw TypeError
  end.

(** One turn of the loop: [current = current[segment] = current[segment] || {}]. *)
Definition step (current : value) (seg : segment) : JS value :=
  let k := property_key seg in
  on_object current k (fun l =>
    v <- get l k ;;
    child <- (if truthy v then ret v else alloc (Obj [])) ;;
    put l k child ;;;
    ret child)%js.

Fixpoint descend (segs : list segment) (current : value) : JS value :=
  match segs with
  | [] => ret current
  | seg :: rest => (child <- step current seg ;; descend rest child)%js
  end.

(** [base[k] = v]. *)
Definition set_property (base : value) (k : string) (v : value) : JS unit :=
  on_object base k (fun l => put l k v).

(** [current[segment] = newValue]. *)
Definition assign (current : value) (seg : segment) (newValue : value) : JS unit :=
  set_property current (property_key seg) newValue.

(** [pathSegments[pathSegments.length - 1]]; of an empty array it would be
    [undefined], the key of that name. *)
Definition last_segment (segs : list segment) : segment :=
  List.last segs (Key "undefined").

(** [!path] holds of the empty string only. *)
Definition updateJsonAtPath (jsonObj : value) (path : string) (newValue : value)
  : JS value :=
  if String.eqb path EmptyString then ret jsonObj
  else
    match pathSegments path with
    | None => unsupported
    | Some segs =>
        (clonedJson <- clone jsonObj ;;
         current <- descend (removelast segs) clonedJson ;;
         assign current (last_segment segs) newValue ;;;
         ret clonedJson)%js
    end.

(** The patcher seen from JSON texts: the document and the new value are
    parsed on an empty heap, and the result is written out again. *)
Definition patch (doc : json) (path : string) (newValue : json) : completion (option json) :=
  snd ((d <- parse doc ;;
        v <- parse newValue ;;
        r <- updateJsonAtPath d path v ;;
        stringify r)%js []).

(** ** [JSON.stringify(v, null, 2)]: the text of a tree, indented by two *)

Module Text.

Definition nl : string := String (ascii_of_nat 10) EmptyString.

Definition hex_digit (n : nat) : ascii :=
  if (n <? 10)%nat then ascii_of_nat (48 + n) else ascii_of_nat (87 + n).

(** QuoteJSONString, one code unit. *)
Definition escape_char (c : ascii) : string :=
  let n := nat_of_ascii c in
  if (n =? 34)%nat then String "\" (String c EmptyString)
  else if (n =? 92)%nat then "\\"
  else if (n =? 8)%nat then "\b"
  else if (n =? 9)%nat then "\t"
  else if (n =? 10)%nat then "\n"
  else if (n =? 12)%nat then "\f"
  else if (n =? 13)%nat then "\r"
  else if (n <? 32)%nat
       then "\u00" +:+ String (hex_digit (n / 16)) (String (hex_digit (n mod 16)) EmptyString)
  else String c EmptyString.

Fixpoint escape (s : string) : string :=
  match s with
  | EmptyString => EmptyString
  | String c s' => escape_char c +:+ escape s'
  end.

Definition quote_string (s : string) : string :=
  String Str.quote (escape s +:+ String Str.quote EmptyString).

(** A number is written with all its digits, as [JSON.stringify] writes the
    integers below 10^21 in absolute value; from there on [JSON.stringify]
    writes an exponent, and the texts of this function are those of the code
    for the numbers below that bound only. *)
Fixpoint pretty (indent : string) (j : json) : string :=
  match j with
  | JNull => "null"
  | JBool b => if b then "true" else "false"
  | JNumber z => Str.of_Z z
  | JString s => quote_string s
  | JArray [] => "[]"
  | JArray items =>
      let inner := indent +:+ "  " in
      "[" +:+ nl +:+ inner
      +:+ Str.join ("," +:+ nl +:+ inner) (map (pretty inner) items)
      +:+ nl +:+ indent +:+ "]"
  | JObject [] => "{}"
  | JObject members =>
      let inner := indent +:+ "  " in
      "{" +:+ nl +:+ inner
      +:+ Str.join ("," +:+ nl +:+ inner)
            (map (fun kj : string * json =>
                    quote_string kj.1 +:+ ": " +:+ pretty inner kj.2) members)
      +:+ nl +:+ indent +:+ "}"
  end.

End Text.

(** [JSON.stringify(v, null, 2)]; [None] is [undefined]. *)
Definition stringify_pretty (v : value) : JS (option string) :=
  (oj <- stringify v ;; ret (Text.pretty EmptyString <$> oj))%js.

(** ** The node normaliser *)

(** Modelled from the spec: the type of a row, declared in [types/graph].
    [key] is a string or [null]; at run time [value] is any value, the rows
    that a Save makes hold objects too. *)
Record NodeRow : Type := {
  row_key : option string;
  row_value : value;
  row_type : string
}.

(** [row.key] as a condition: [null] and the empty string are falsy. *)
Definition key_truthy (row : NodeRow) : bool :=
  match row_key row with
  | Some k => truthy (VString k)
  | None => false
  end.

Definition key_string (row : NodeRow) : string := default EmptyString (row_key row).

(** [l.reduce(f, init)]. *)
Fixpoint reduce {A B} (f : B -> A -> JS B) (l : list A) (acc : B) : JS B :=
  match l with
  | [] => ret acc
  | x :: l' => (acc' <- f acc x ;; reduce f l' acc')%js
  end.

Definition normalizeNodeData (nodeRows : list NodeRow) : JS (option string) :=
  match nodeRows with
  | [] => ret (Some "{}")
  | row :: rest =>
      if (length nodeRows =? 1)%nat && negb (key_truthy row)
      then stringify_pretty (row_value row)
      else
        (empty <- alloc (Obj []) ;;
         compactJson <-
           reduce (fun acc row =>
                     if key_truthy row && negb (typeof_object (row_value row))
                     then set_property acc (key_string row) (row_value row) ;;; ret acc
                     else ret acc)
                  nodeRows empty ;;
         stringify_pretty compactJson)%js
  end.

(** The row with its key taken away when it is the empty string. *)
Definition without_empty_key (row : NodeRow) : NodeRow :=
  match row_key row with
  | Some k =>
      if String.eqb k EmptyString
      then {| row_key := None; row_value := row_value row; row_type := row_type row |}
      else row
  | None => row
  end.

(** The rows that the reduction writes to the object it builds: those with
    a key and a value that is not of type [object]. *)
Definition kept (row : NodeRow) : bool :=
  key_truthy row && negb (typeof_object (row_value row)).

(** The properties of the object that the reduction builds.  The key
    [__proto__] is left out: on a new object it names the inherited accessor,
    which ignores a value that is not an object. *)
Definition compact (rows : list NodeRow) : props :=
  fold_left
    (fun acc row =>
       if kept row && negb (String.eqb (key_string row) proto_key)
       then define_prop (key_string row) (row_value row) acc
       else acc)
    rows [].

(** The text of a value that is not an object; [undefined] has none. *)
Definition scalar_json (v : value) : option json :=
  match v with
  | VUndefined => None
  | VNull => Some JNull
  | VBool b => Some (JBool b)
  | VNumber z => Some (JNumber z)
  | VString s => Some (JString s)
  | VObject _ => None
  end.

Definition members_of (ps : props) : list (string * json) :=
  omap (fun kv : string * value => pair kv.1 <$> scalar_json kv.2) ps.

(** ** [JSON.parse] on a text

    A recursive-descent reader of the JSON grammar.  A number with a fraction
    or an exponent, an integer from 2^53 on and a [\u] escape above 255 are
    outside of the model. *)

Module Parser.

Definition is_ws (c : ascii) : bool :=
  let n := nat_of_ascii c in
  (n =? 32)%nat || (n =? 9)%nat || (n =? 10)%nat || (n =? 13)%nat.

Fixpoint skip_ws (s : string) : string :=
  match s with
  | String c s' => if is_ws c then skip_ws s' else s
  | EmptyString => EmptyString
  end.

Definition hex4 (a b c d : ascii) : option N :=
  match Numeral.digit_value a, Numeral.digit_value b,
        Numeral.digit_value c, Numeral.digit_value d with
  | Some x, Some y, Some z, Some w => Some (((x * 16 + y) * 16 + z) * 16 + w)%N
  | _, _, _, _ => None
  end.

Definition escaped (c : ascii) : option ascii :=
  if Ascii.eqb c Str.quote then Some c
  else if Ascii.eqb c "\" then Some c
  else if Ascii.eqb c "/" then Some c
  else if Ascii.eqb c "b" then Some (ascii_of_nat 8)
  else if Ascii.eqb c "f" then Some (ascii_of_nat 12)
  else if Ascii.eqb c "n" then Some (ascii_of_nat 10)
  else if Ascii.eqb c "r" then Some (ascii_of_nat 13)
  else if Ascii.eqb c "t" then Some (ascii_of_nat 9)
  else None.

(** The characters of a string up to its closing quote, and the rest. *)
Fixpoint string_body (s : string) : completion (string * string) :=
  match s with
  | EmptyString => Throw SyntaxError
  | String c s' =>
      if Ascii.eqb c Str.quote then Normal (EmptyString, s')
      else if Ascii.eqb c "\" then
        match s' with
        | String e s'' =>
            if Ascii.eqb e "u" then
              match s'' with
              | String x1 (String x2 (String x3 (String x4 r))) =>
                  match hex4 x1 x2 x3 x4 with
                  | Some n =>
                      if (n <? 256)%N
                      then cbind (string_body r)
                             (fun '(b, rest) => Normal (String (ascii_of_N n) b, rest))
                      else Unsupported
                  | None => Throw SyntaxError
                  end
              | _ => Throw SyntaxError
              end
            else
              match escaped e with
              | Some x =>
                  cbind (string_body s'')
                    (fun '(b, rest) => Normal (String x b, rest))
              | None => Throw SyntaxError
              end
        | EmptyString => Throw SyntaxError
        end
      else if (nat_of_ascii c <? 32)%nat then Throw SyntaxError
      else cbind (string_body s') (fun '(b, rest) => Normal (String c b, rest))
  end.

Fixpoint take_digits (s : string) : string * string :=
  match s with
  | String c s' =>
      if Str.is_digit c
      then let '(d, r) := take_digits s' in (String c d, r)
      else (EmptyString, s)
  | EmptyString => (EmptyString, EmptyString)
  end.

(** After the integer part: a fraction or an exponent makes the number one
    that the model does not have, or the text malformed. *)
Definition after_int (z : Z) (r : string) : completion (json * string) :=
  match r with
  | String c r' =>
      if Ascii.eqb c "." then
        match take_digits r' with
        | (EmptyString, _) => Throw SyntaxError
        | _ => Unsupported
        end
      else if Ascii.eqb c "e" || Ascii.eqb c "E" then
        let r'' := match r' with
                   | String g t =>
                       if Ascii.eqb g "+" || Ascii.eqb g "-" then t else r'
                   | EmptyString => r'
                   end in
        match take_digits r'' with
        | (EmptyString, _) => Throw SyntaxError
        | _ => Unsupported
        end
      else Normal (JNumber z, r)
  | EmptyString => Normal (JNumber z, r)
  end.

(** [s] starts at the first digit; a leading zero stands alone. *)
Definition unsigned_number (neg : bool) (s : string) : completion (json * string) :=
  match s with
  | String c s' =>
      if Ascii.eqb c "0" then after_int 0%Z s'
      else if Str.is_digit c then
        let '(d, r) := take_digits s in
        match Numeral.decimal_value d with
        | Some n =>
            match after_int (if neg then (- Z.of_N n)%Z else Z.of_N n) r with
            | Normal x => if (n <? Numeral.exact_bound)%N then Normal x else Unsupported
            | c => c
            end
        | None => Throw SyntaxError
        end
      else Throw SyntaxError
  | EmptyString => Throw SyntaxError
  end.

Definition literal (word : string) (j : json) (s : string) : completion (json * string) :=
  if String.prefix word s
  then Normal (j, String.substring (String.length word)
                    (String.length s - String.length word) s)
  else Throw SyntaxError.

Fixpoint value (fuel : nat) (s : string) : completion (json * string) :=
  match fuel with
  | O => Unsupported
  | S fuel' =>
      match skip_ws s with
      | EmptyString => Throw SyntaxError
      | String c r =>
          if Ascii.eqb c "{" then
            match skip_ws r with
            | String c' r' =>
                if Ascii.eqb c' "}" then Normal (JObject [], r')
                else cbind (members fuel' (String c' r'))
                       (fun '(ms, rest) => Normal (JObject ms, rest))
            | EmptyString => Throw SyntaxError
            end
          else if Ascii.eqb c "[" then
            match skip_ws r with
            | String c' r' =>
                if Ascii.eqb c' "]" then Normal (JArray [], r')
                else cbind (elements fuel' (String c' r'))
                       (fun '(items, rest) => Normal (JArray items, rest))
            | EmptyString => Throw SyntaxError
            end
          else if Ascii.eqb c Str.quote then
            cbind (string_body r) (fun '(b, rest) => Normal (JString b, rest))
          else if Ascii.eqb c "-" then unsigned_number true r
          else if Str.is_digit c then unsigned_number false (String c r)
          else if Ascii.eqb c "t" then literal "true" (JBool true) (String c r)
          else if Ascii.eqb c "f" then literal "false" (JBool false) (String c r)
          else if Ascii.eqb c "n" then literal "null" JNull (String c r)
          else Throw SyntaxError
      end
  end

(** One or more values separated by commas, up to the closing bracket. *)
with elements (fuel : nat) (s : string) : completion (list json * string) :=
  match fuel with
  | O => Unsupported
  | S fuel' =>
      cbind (value fuel' s) (fun '(j, r) =>
        match skip_ws r with
        | String c r' =>
            if Ascii.eqb c "," then
              cbind (elements fuel' r') (fun '(js, rest) => Normal (j :: js, rest))
            else if Ascii.eqb c "]" then Normal ([j], r')
            else Throw SyntaxError
        | EmptyString => Throw SyntaxError
        end)
  end

(** One or more members separated by commas, up to the closing brace; [s]
    starts at the quote of the first key. *)
with members (fuel : nat) (s : string) : completion (list (string * json) * string) :=
  match fuel with
  | O => Unsupported
  | S fuel' =>
      match s with
      | String c r0 =>
          if Ascii.eqb c Str.quote then
            cbind (string_body r0) (fun '(k, r1) =>
              match skip_ws r1 with
              | String c1 r2 =>
                  if Ascii.eqb c1 ":" then
                    cbind (value fuel' r2) (fun '(j, r3) =>
                      match skip_ws r3 with
                      | String c3 r4 =>
                          if Ascii.eqb c3 "," then
                            cbind (members fuel' (skip_ws r4))
                              (fun '(ms, rest) => Normal ((k, j) :: ms, rest))
                          else if Ascii.eqb c3 "}" then Normal ([(k, j)], r4)
                          else Throw SyntaxError
                      | EmptyString => Throw SyntaxError
                      end)
                  else Throw SyntaxError
              | EmptyString => Throw SyntaxError
              end)
          else Throw SyntaxError
      | EmptyString => Throw SyntaxError
      end
  end.

(** The whole text is one value; of two nested calls of the reader one
    consumes a character, so twice the length of the text bounds the
    recursion. *)
Definition text (s : string) : completion json :=
  cbind (value (2 * String.length s + 2) s) (fun '(j, rest) =>
    match skip_ws rest with
    | EmptyString => Normal j
    | _ => Throw SyntaxError
    end).

End Parser.

(** [JSON.parse(text)]. *)
Definition JSON_parse (text : string) : JS value :=
  fun h =>
    match Parser.text text with
    | Normal j => parse j h
    | Throw e => (h, Throw e)
    | Unsupported => (h, Unsupported)
    end.

(** ** The stores and the Save handler *)

(** Modelled from the spec: the type of a node, declared in [types/graph],
    with the fields the modal uses; [path] is optional. *)
Record NodeData : Type := {
  node_id : string;
  node_text : list NodeRow;
  node_path : option JSONPath
}.

(** What the handler calls on its collaborators, oldest first. *)
Inductive event : Type :=
  | SetContents (text : option string)
  | SetGraphState
  | ToastSuccess (message : string)
  | ToastError (message : string).

(** The state around the modal: the heap, the two pieces of component state
    ([isEditing], [editedContent]), the selected node of the graph store, the
    text that [getJson] returns, the text last given to [setContents], and the
    calls made so far.  The component reads [getJson()] and the path of the
    selected node when it renders; the handler runs on what was rendered. *)
Record World : Type := {
  w_heap : heap;
  isEditing : bool;
  editedContent : string;
  selectedNode : option NodeData;
  fullJson : string;
  contents : option string;
  calls : list event
}.

Definition with_heap (h : heap) (w : World) : World :=
  {| w_heap := h; isEditing := isEditing w; editedContent := editedContent w;
     selectedNode := selectedNode w; fullJson := fullJson w;
     contents := contents w; calls := calls w |}.

Definition call (e : event) (w : World) : World :=
  {| w_heap := w_heap w; isEditing := isEditing w; editedContent := editedContent w;
     selectedNode := selectedNode w; fullJson := fullJson w;
     contents := contents w; calls := calls w ++ [e] |}.

(** Computations on the world. *)
Definition UI (A : Type) : Type := World -> World * completion A.

Definition ui_ret {A} (a : A) : UI A := fun w => (w, Normal a).
Definition ui_bind {A B} (m : UI A) (f : A -> UI B) : UI B :=
  fun w =>
    match m w with
    | (w', Normal a) => f a w'
    | (w', Throw e) => (w', Throw e)
    | (w', Unsupported) => (w', Unsupported)
    end.

Declare Scope ui_scope.
Delimit Scope ui_scope with ui.
Notation "x <- m ;; k" := (ui_bind m (fun x => k))
  (at level 100, m at next level, right associativity) : ui_scope.
Notation "m ;;; k" := (ui_bind m (fun _ => k))
  (at level 100, right associativity) : ui_scope.

Definition lift {A} (m : JS A) : UI A :=
  fun w => let '(h, c) := m (w_heap w) in (with_heap h w, c).

(** [try { body } catch (error) { handler }]: an exception of the body is
    caught, whatever it is. *)
Definition try_catch (body handler : UI unit) : UI unit :=
  fun w =>
    match body w with
    | (w', Throw _) => handler w'
    | r => r
    end.

(** Modelled from the spec: [setContents({ contents })] of the document-text
    store overwrites the full document text. *)
Definition setContents (text : option string) : UI unit :=
  fun w =>
    (call (SetContents text)
       {| w_heap := w_heap w; isEditing := isEditing w;
          editedContent := editedContent w; selectedNode := selectedNode w;
          fullJson := fullJson w; contents := text; calls := calls w |},
     Normal tt).

Definition setIsEditing (b : bool) : UI unit :=
  fun w =>
    ({| w_heap := w_heap w; isEditing := b; editedContent := editedContent w;
        selectedNode := selectedNode w; fullJson := fullJson w;
        contents := contents w; calls := calls w |},
     Normal tt).

(** Modelled from the spec: the notification channel keeps nothing but the
    call. *)
Definition toast_success (m : string) : UI unit :=
  fun w => (call (ToastSuccess m) w, Normal tt).

Definition toast_error (m : string) : UI unit :=
  fun w => (call (ToastError m) w, Normal tt).

(** Modelled from the spec: the state-replacement operation of the
    graph-selection store, [useGraph.setState(updater)].  The store calls the
    updater on its state during the call; an exception of the updater leaves
    the state as it was and reaches the caller. *)
Definition setState (updater : option NodeData -> JS (option NodeData)) : UI unit :=
  fun w =>
    match updater (selectedNode w) (w_heap w) with
    | (h, Normal node) =>
        (call SetGraphState
           {| w_heap := h; isEditing := isEditing w;
              editedContent := editedContent w; selectedNode := node;
              fullJson := fullJson w; contents := contents w; calls := calls w |},
         Normal tt)
    | (h, Throw e) => (with_heap h w, Throw e)
    | (h, Unsupported) => (with_heap h w, Unsupported)
    end.

(** The keys [0], [1], ... of the elements of an array or the code units of
    a string. *)
Definition indexed {A} (l : list A) : list (string * A) :=
  imap (fun i x => (Str.of_N (N.of_nat i), x)) l.

Definition is_undefined (v : value) : bool :=
  match v with VUndefined => true | _ => false end.

(** [Object.entries(v)]: the own enumerable properties, in property order;
    [null] and [undefined] have none to give and throw a TypeError.  An array
    with a hole is outside of the model, which does not tell a hole from an
    element that is [undefined]. *)
Definition Object_entries (v : value) : JS (list (string * value)) :=
  fun h =>
    match v with
    | VUndefined | VNull => (h, Throw TypeError)
    | VBool _ | VNumber _ => (h, Normal [])
    | VString s =>
        (h, Normal (indexed (map (fun c => VString (String c EmptyString))
                                 (list_ascii_of_string s))))
    | VObject l =>
        match h !! l with
        | None => (h, Unsupported)
        | Some (Obj ps) => (h, Normal ps)
        | Some (Arr es ps) =>
            if existsb is_undefined es then (h, Unsupported)
            else (h, Normal (indexed es ++ ps))
        end
    end.

(** The row that the updater makes of an entry. *)
Definition entry_row (kv : string * value) : NodeRow :=
  {| row_key := Some kv.1; row_value := kv.2; row_type := "default" |}.

(** The updater given to [useGraph.setState]; the other fields of the node
    are copied. *)
Definition update_selected (parsedContent : value) (selected : option NodeData)
  : JS (option NodeData) :=
  match selected with
  | None => ret None
  | Some node =>
      (entries <- Object_entries parsedContent ;;
       ret (Some {| node_id := if truthy (VString (node_id node))
                               then node_id node else EmptyString;
                    node_text := map entry_row entries;
                    node_path := node_path node |}))%js
  end.

(** The two messages of the handler. *)
Definition invalid_json : string := "Invalid JSON. Please check your input.".
Definition updated_json : string := "JSON updated successfully!".

Definition handleSave : UI unit :=
  fun w =>
    let nodePath := selectedNode w ≫= node_path in
    try_catch
      (parsedContent <- lift (JSON_parse (editedContent w)) ;;
       jsonObj <- lift (JSON_parse (fullJson w)) ;;
       updatedJson <- lift (updateJsonAtPath jsonObj (jsonPathToString nodePath)
                                             parsedContent) ;;
       text <- lift (stringify_pretty updatedJson) ;;
       setContents text ;;;
       setState (update_selected parsedContent) ;;;
       toast_success updated_json ;;;
       setIsEditing false)%ui
      (toast_error invalid_json)
      w.


(** ** Sharing between values

    The objects that a value reaches on a heap: its own, and those of the
    values stored in an object it reaches. *)

Definition object_values (o : object) : list value :=
  match o with
  | Obj ps => map snd ps
  | Arr es ps => es ++ map snd ps
  end.

Inductive reachable (h : heap) : value -> loc -> Prop :=
  | reach_here l o :
      h !! l = Some o -> reachable h (VObject l) l
  | reach_step l o v l' :
      h !! l = Some o -> In v (object_values o) -> reachable h v l' ->
      reachable h (VObject l) l'.

(** A value made at or after address [n]: a primitive, or an object
    allocated there. *)
Definition val_fresh (n : nat) (h : heap) (v : value) : Prop :=
  match v with
  | VObject l => n <= l < length h
  | _ => True
  end.

(** Every object at or after address [n] stores only such values. *)
Definition fresh_inv (n : nat) (h : heap) : Prop :=
  forall l o, n <= l -> h !! l = Some o -> Forall (val_fresh n h) (object_values o).

(** ** Reading a parsed text back

    The tree that a parsed text has when it is written out again: the
    members of an object in property order, one for each key. *)
Fixpoint normal (j : json) : json :=
  match j with
  | JArray items => JArray (map normal items)
  | JObject members =>
      JObject (build_props (map (fun kj : string * json => (kj.1, normal kj.2)) members))
  | _ => j
  end.

Fixpoint depth (j : json) : nat :=
  match j with
  | JArray items => S (list_max (map depth items))
  | JObject members => S (list_max (map (fun kj : string * json => depth kj.2) members))
  | _ => 0
  end.

(** The value [v] on the heap [h] is the text [j]: on [h] and on every heap
    that [h] is the beginning of, it is written out as [normal j]. *)
Definition reads_as (j : json) (v : value) (h : heap) : Prop :=
  forall h' fuel,
    h `prefix_of` h' -> depth j <= fuel ->
    to_json fuel h' v = Normal (Some (normal j)).

(** The texts of the values that are falsy: [null], [false], [0] and the
    empty string. *)
Definition falsy_scalar (j : json) : bool :=
  match j with
  | JNull => true
  | JBool b => negb b
  | JNumber z => (z =? 0)%Z
  | JString s => String.eqb s EmptyString
  | _ => false
  end.

(** Two properties with the same key and related values. *)
Definition same_keys {V W} (R : V -> W -> Prop) (a : string * V) (b : string * W) : Prop :=
  a.1 = b.1 /\ R a.2 b.2.

(** A value that is written out as [j] on every heap that goes on from [g],
    at a depth of recursion that the size of [g] allows. *)
Definition written (g : heap) (v : value) (j : json) : Prop :=
  forall (h' : heap) fuel,
    g `prefix_of` h' -> length g <= fuel -> to_json fuel h' v = Normal (Some j).

(** What holds of the heap while the patcher walks: the objects of the heap
    [h0] it started from are in place, and the later ones store fresh values
    only. *)
Definition walking (h0 h : heap) : Prop :=
  h0 `prefix_of` h /\ fresh_inv (length h0) h.

(** Where the patcher ends: the objects of the first heap are in place, and
    a later object stores fresh values or the new value. *)
Definition patched (h0 h : heap) (newValue : value) : Prop :=
  h0 `prefix_of` h
  /\ forall l o, length h0 <= l -> h !! l = Some o ->
       Forall (fun u => val_fresh (length h0) h u \/ u = newValue) (object_values o).

(** [f x] only adds objects, and what it adds and returns is fresh. *)
Definition alloc_ok {A B} (vals : B -> list value)
           (f : A -> heap -> heap * B) (x : A) : Prop :=
  forall n h h' y,
    f x h = (h', y) -> n <= length h -> fresh_inv n h ->
    h `prefix_of` h' /\ fresh_inv n h' /\ Forall (val_fresh n h') (vals y).

(** The world of the examples: the document is an array of two numbers and
    the node of its first element is selected. *)
Definition example_world (buffer : string) : World :=
  {| w_heap := [];
     isEditing := true;
     editedContent := buffer;
     selectedNode :=
       Some {| node_id := "2";
               node_text := [{| row_key := None; row_value := VNumber 1;
                                row_type := "number" |}];
               node_path := Some [Index 0] |};
     fullJson := "[1,2]";
     contents := Some "[1,2]";
     calls := [] |}.

(** ** Induction on JSON texts

    The induction principle that goes through the items of an array and the
    members of an object. *)

Section json_induction.
Variable P : json -> Prop.
Hypothesis Hnull : P JNull.
Hypothesis Hbool : forall b, P (JBool b).
Hypothesis Hnum : forall z, P (JNumber z).
Hypothesis Hstr : forall s, P (JString s).
Hypothesis Harr : forall items, Forall P items -> P (JArray items).
Hypothesis Hobj :
  forall members, Forall (fun kj : string * json => P kj.2) members ->
                  P (JObject members).

Fixpoint json_nested_ind (j : json) : P j :=
  match j with
  | JNull => Hnull
  | JBool b => Hbool b
  | JNumber z => Hnum z
  | JString s => Hstr s
  | JArray items =>
      Harr items
        ((fix go (l : list json) : Forall P l :=
            match l with
            | [] => List.Forall_nil P
            | x :: r => @List.Forall_cons _ P x r (json_nested_ind x) (go r)
            end) items)
  | JObject members =>
      Hobj members
        ((fix go (l : list (string * json))
            : Forall (fun kj : string * json => P kj.2) l :=
            match l with
            | [] => List.Forall_nil _
            | x :: r => @List.Forall_cons _ _ x r (json_nested_ind x.2) (go r)
            end) members)
  end.
End json_induction.

(** ** The Edit and Cancel handlers

    The component computes [normalizedData] when it renders, from the rows of
    the selected node, or from no rows when there is none; the handlers of
    that render hold its value. *)
Definition normalizedData : UI (option string) :=
  fun w => lift (normalizeNodeData (default [] (node_text <$> selectedNode w))) w.

(** The setter of the edit buffer, a piece of state that holds a string;
    [undefined], which [normalizeNodeData] can return, is outside of the
    model of that state. *)
Definition setEditedContent (text : option string) : UI unit :=
  fun w =>
    match text with
    | Some s =>
        ({| w_heap := w_heap w; isEditing := isEditing w; editedContent := s;
            selectedNode := selectedNode w; fullJson := fullJson w;
            contents := contents w; calls := calls w |},
         Normal tt)
    | None => (w, Unsupported)
    end.

Definition handleEditToggle (normalizedData : option string) : UI unit :=
  fun w =>
    ((if negb (isEditing w) then setEditedContent normalizedData else ui_ret tt) ;;;
     setIsEditing (negb (isEditing w)))%ui w.

Definition handleCancel (normalizedData : option string) : UI unit :=
  (setEditedContent normalizedData ;;; setIsEditing false)%ui.

(** A click on a button of the modal: the component has rendered the state,
    and the handler of that render runs. *)
Definition click (handler : option string -> UI unit) : UI unit :=
  (data <- normalizedData ;; handler data)%ui.

(** ** Further notions for the properties *)


Definition scalar (j : json) : bool :=
  match j with
  | JArray _ | JObject _ => false
  | _ => true
  end.

(** [a[n] = j] seen from the text of the array: past the end, the holes are
    written [null]. *)
Definition set_item (n : nat) (j : json) (items : list json) : list json :=
  if (n <? length items)%nat then <[n := j]> items
  else items ++ replicate (n - length items) JNull ++ [j].

(** The texts of a boolean, a number and a string. *)
Definition plain_scalar (j : json) : bool :=
  match j with
  | JBool _ | JNumber _ | JString _ => true
  | _ => false
  end.

(** The rows that write the key [k] of the object that the normaliser
    builds. *)
Definition writes_key (k : string) (row : NodeRow) : bool :=
  kept row && String.eqb (key_string row) k.

(** ** Writing a text and reading it again *)

(** The numbers of a text are integers below 2^53 in absolute value, the
    ones that the reader has. *)
Fixpoint ints_exact (j : json) : bool :=
  match j with
  | JNumber z => (Z.abs_N z <? Numeral.exact_bound)%N
  | JArray items => forallb ints_exact items
  | JObject members => forallb (fun kj : string * json => ints_exact kj.2) members
  | _ => true
  end.

Definition exact_value (v : value) : bool :=
  match v with
  | VNumber z => (Z.abs_N z <? Numeral.exact_bound)%N
  | _ => true
  end.

(** A bound on the depth of recursion of the reader on the text of [j]. *)
Fixpoint size (j : json) : nat :=
  match j with
  | JArray items => S (list_sum (map (fun x => S (size x)) items))
  | JObject members =>
      S (list_sum (map (fun kj : string * json => S (size kj.2)) members))
  | _ => 1
  end.

(** What may follow a number in a text: the end, or a character that does
    not go on with the number. *)
Definition delimited (s : string) : bool :=
  match s with
  | EmptyString => true
  | String c _ =>
      negb (Str.is_digit c || Ascii.eqb c "." || Ascii.eqb c "e" || Ascii.eqb c "E")
  end.

(** The reader takes the text of [j], at any indentation and before any
    rest that ends a number, and yields [j] and that rest. *)
Definition reads_back (j : json) : Prop :=
  forall indent rest fuel,
    Str.all_chars Parser.is_ws indent = true -> delimited rest = true ->
    size j <= fuel ->
    Parser.value fuel (Text.pretty indent j +:+ rest) = Normal (j, rest).

(** ** The patch on texts

    What [updateJsonAtPath] computes, told on the text of the document.  The
    walk reads the member or the element that a segment names and goes on in
    it, or in a new empty object where it is absent or falsy; the final
    segment is assigned the new value.  The result is [Unsupported] where
    the model of the heap is, and for the names of an array that are no
    index. *)

(** [current[k]]; [None] is [undefined]. *)
Definition read_tree (j : json) (k : string) : completion (option json) :=
  match j with
  | JObject members =>
      match lookup_prop k members with
      | Some c => Normal (Some c)
      | None => if mem_string k object_prototype_names then Unsupported else Normal None
      end
  | JArray items =>
      match array_index k with
      | Some n => Normal (items !! N.to_nat n)
      | None => Unsupported
      end
  | JNull => Throw TypeError
  | _ => if String.eqb k proto_key then Unsupported else Throw TypeError
  end.

(** The text after [current[k] = x], where the read went well. *)
Definition write_tree (j : json) (k : string) (x : json) : json :=
  match j with
  | JObject members => JObject (define_prop k x members)
  | JArray items =>
      match array_index k with
      | Some n => JArray (set_item (N.to_nat n) x items)
      | None => j
      end
  | _ => j
  end.

(** The final assignment. *)
Definition assign_tree (j : json) (k : string) (x : json) : completion json :=
  match j with
  | JObject members =>
      if String.eqb k proto_key && negb (is_Some_bool (lookup_prop k members))
      then Unsupported
      else Normal (write_tree j k x)
  | JArray items =>
      match array_index k with
      | Some n => Normal (write_tree j k x)
      | None => Unsupported
      end
  | JNull => Throw TypeError
  | _ => if String.eqb k proto_key then Unsupported else Throw TypeError
  end.

(** [v || {}] on texts. *)
Definition or_empty (oc : option json) : json :=
  match oc with
  | Some c => if falsy_scalar c then JObject [] else c
  | None => JObject []
  end.

Fixpoint patch_tree (segs : list segment) (last : segment) (x : json) (j : json)
  : completion json :=
  match segs with
  | [] => assign_tree j (property_key last) x
  | seg :: rest =>
      let k := property_key seg in
      cbind (read_tree j k) (fun oc =>
        cbind (patch_tree rest last x (or_empty oc)) (fun r =>
          Normal (write_tree j k r)))
  end.

(** Two heaps with the same objects at the addresses from [a] up to [b]. *)
Definition agree (a b : nat) (g h : heap) : Prop :=
  forall l, a <= l < b -> h !! l = g !! l.

(** The value [v], made on the heap [g] from the address [a] on, is the text
    [j]: it is written out as [normal j] on every heap that has the objects
    of [g] from [a] on. *)
Definition reads_in (j : json) (v : value) (a : nat) (g : heap) : Prop :=
  forall h fuel,
    agree a (length g) g h -> depth j <= fuel ->
    to_json fuel h v = Normal (Some (normal j)).

(** What the walk and the final assignment do on a value [v] that
    [JSON.parse] made of the text [j] between the heaps [h] and [h'], run on
    a heap [H] that has those objects: when the patch on texts has a result,
    the run ends well, it changes no earlier object outside of those of [v],
    and [v] is then written out as that result; when the patch on texts
    throws, so does the run. *)
Definition walked (last : segment) (new : json) (P : value)
           (segs : list segment) (j : json) (h h' : heap) (v : value) (H : heap) : Prop :=
  match patch_tree segs last (normal new) j with
  | Normal r =>
      exists H' : heap,
        (current <- descend segs v ;; assign current last P)%js H = (H', Normal tt)
        /\ length H <= length H'
        /\ (forall a, a < length H -> ~ (length h <= a < length h') -> H' !! a = H !! a)
        /\ (forall fuel,
              (length h' - length h) + depth new + (length H' - length H) <= fuel ->
              to_json fuel H' v = Normal (Some r))
  | Throw e =>
      exists H' : heap,
        (current <- descend segs v ;; assign current last P)%js H = (H', Throw e)
  | Unsupported => True
  end.

(** The member or element that a property key names in a text. *)
Definition child (j : json) (k : string) : option json :=
  match j with
  | JObject members => lookup_prop k members
  | JArray items => array_index k ≫= fun n => items !! N.to_nat n
  | _ => None
  end.

(** The text at the end of a path. *)
Fixpoint get_at (p : list segment) (j : json) : option json :=
  match p with
  | [] => Some j
  | seg :: rest => child j (property_key seg) ≫= get_at rest
  end.

(** ** Locations of a text off a path *)

(** The path [q] leaves the path [p]: at some place, before either of them
    ends, the two name different properties. *)
Fixpoint apart (q p : list segment) : bool :=
  match q, p with
  | b :: q', a :: p' =>
      if String.eqb (property_key b) (property_key a) then apart q' p' else true
  | _, _ => false
  end.

(** The read of [k] in an object or array gives [undefined]: a key that the
    object neither owns nor inherits, an index at or past the end of the
    array. *)
Definition absent_in (j : json) (k : string) : bool :=
  match j with
  | JObject members =>
      negb (is_Some_bool (lookup_prop k members))
      && negb (mem_string k object_prototype_names)
  | JArray items =>
      match array_index k with
      | Some n => (length items <=? N.to_nat n)%nat
      | None => false
      end
  | _ => false
  end.

(** The objects of one member each that the walk makes for the segments
    [post] in a new object, around the member [last] that holds [x]. *)
Definition nest (post : list segment) (last : segment) (x : json) : json :=
  fold_right (fun seg inner => JObject [(property_key seg, inner)])
             (JObject [(property_key last, x)]) post.

(** * Properties *)

(** In the proofs, [+:+] computes on a string that starts with a character. *)
#[local] Arguments String.append !_ _ / : simpl nomatch.

(** ** Strings *)

Section StringFacts.
Import Str.

Lemma append_assoc (a b c : string) : (a +:+ b) +:+ c = a +:+ (b +:+ c).
Proof. induction a as [|x a IH]; cbn; [reflexivity | now f_equal]. Qed.

Lemma digit_not_space c : is_digit c = true -> is_space c = false.
Proof.
  unfold is_digit, is_space. cbv zeta.
  generalize (nat_of_ascii c) as n. intros n H.
  apply andb_true_iff in H as [H1 H2].
  apply Nat.leb_le in H1. apply Nat.leb_le in H2.
  repeat (apply orb_false_iff; split); apply Nat.eqb_neq; lia.
Qed.

Lemma digit_not_bracket c : is_digit c = true -> Ascii.eqb c "]" = false.
Proof.
  intros H. destruct (Ascii.eqb_spec c "]") as [->|]; [discriminate H | reflexivity].
Qed.

Lemma ltrim_head c s : is_space c = false -> ltrim (String c s) = String c s.
Proof. intros H. simpl. now rewrite H. Qed.

Lemma rtrim_snoc s c :
  is_space c = false -> rtrim (s +:+ String c EmptyString) = s +:+ String c EmptyString.
Proof.
  intros Hc. induction s as [|x s IH]; simpl.
  - now rewrite Hc.
  - rewrite IH. destruct s; reflexivity.
Qed.

Lemma rtrim_no_space s : all_chars (fun c => negb (is_space c)) s = true -> rtrim s = s.
Proof.
  induction s as [|x s IH]; simpl; [reflexivity |].
  intros H. apply andb_true_iff in H as [Hx Hs].
  rewrite (IH Hs). apply negb_true_iff in Hx. rewrite Hx.
  destruct s; reflexivity.
Qed.

Lemma trim_no_space s : all_chars (fun c => negb (is_space c)) s = true -> trim s = s.
Proof.
  intros H. unfold trim.
  assert (ltrim s = s) as ->; [| now apply rtrim_no_space].
  destruct s as [|c s]; [reflexivity |]. simpl in *.
  apply andb_true_iff in H as [Hx _]. apply negb_true_iff in Hx. now rewrite Hx.
Qed.

Lemma all_chars_impl (f g : ascii -> bool) s :
  (forall c, f c = true -> g c = true) -> all_chars f s = true -> all_chars g s = true.
Proof.
  intros Hfg. induction s as [|c s IH]; simpl; [reflexivity |].
  intros H. apply andb_true_iff in H as [Hc Hs].
  rewrite (Hfg _ Hc), (IH Hs). reflexivity.
Qed.

Lemma digits_of_uint d : all_chars is_digit (NilEmpty.string_of_uint d) = true.
Proof. induction d; simpl; auto. Qed.

Lemma digits_of_N n : all_chars is_digit (of_N n) = true.
Proof.
  unfold of_N, NilZero.string_of_uint.
  destruct (N.to_uint n) eqn:E; try reflexivity; rewrite <- E; apply digits_of_uint.
Qed.

Lemma of_N_nonempty n : of_N n <> EmptyString.
Proof.
  unfold of_N, NilZero.string_of_uint. destruct (N.to_uint n); discriminate.
Qed.

Lemma to_uint_nonnil n : N.to_uint n <> Nil.
Proof.
  destruct n as [|p]; simpl; [discriminate | apply DecimalPos.Unsigned.to_uint_nonnil].
Qed.

Lemma decimal_value_of_N n : Numeral.decimal_value (of_N n) = Some n.
Proof.
  unfold Numeral.decimal_value, of_N.
  rewrite NilZero.usu by apply to_uint_nonnil.
  simpl. now rewrite DecimalN.Unsigned.of_to.
Qed.

(** Splitting what [join] made gives the pieces back, when no piece holds
    the separator. *)
Lemma split2_piece a b p rest :
  a <> b ->
  contains2 a b p = false ->
  split2 a b (p +:+ String a (String b rest)) = p :: split2 a b rest.
Proof.
  intros Hab. induction p as [|c p IH]; intros Hp.
  - cbn. now rewrite !Ascii.eqb_refl.
  - destruct p as [|c' p].
    + clear IH. cbn.
      assert (Ascii.eqb a b = false) as -> by now apply Ascii.eqb_neq.
      rewrite andb_false_r, !Ascii.eqb_refl. reflexivity.
    + cbn in Hp. apply orb_false_iff in Hp as [Hc Hp'].
      specialize (IH Hp'). cbn in IH |- *. rewrite Hc, IH. reflexivity.
Qed.

Lemma split2_single a b p : contains2 a b p = false -> split2 a b p = [p].
Proof.
  induction p as [|c p IH]; intros Hp; [reflexivity |].
  destruct p as [|c' p]; [reflexivity |].
  cbn in Hp. apply orb_false_iff in Hp as [Hc Hp'].
  specialize (IH Hp'). cbn in IH |- *. rewrite Hc, IH. reflexivity.
Qed.

Lemma split2_join a b (l : list string) :
  a <> b -> l <> [] ->
  forallb (fun p => negb (contains2 a b p)) l = true ->
  split2 a b (join (String a (String b EmptyString)) l) = l.
Proof.
  intros Hab. induction l as [|p l IH]; intros Hne Hall; [congruence |].
  cbn in Hall. apply andb_true_iff in Hall as [Hp Hl].
  apply negb_true_iff in Hp.
  destruct l as [|p' l]; [now apply split2_single |].
  change (join (String a (String b EmptyString)) (p :: p' :: l))
    with (p +:+ String a (String b EmptyString)
            +:+ join (String a (String b EmptyString)) (p' :: l)).
  cbn [append]. rewrite split2_piece by assumption.
  f_equal. apply IH; [discriminate | exact Hl].
Qed.

Lemma strip_trailing_bracket_snoc s :
  strip_trailing_bracket (s +:+ "]") = s.
Proof.
  induction s as [|c s IH]; [reflexivity |].
  cbn in IH |- *. rewrite IH. destruct s; reflexivity.
Qed.

Lemma remove_all_absent c s : contains c s = false -> remove_all c s = s.
Proof.
  induction s as [|x s IH]; [reflexivity |]. cbn.
  intros H. apply orb_false_iff in H as [Hx Hs]. rewrite Hx, (IH Hs). reflexivity.
Qed.

Lemma remove_all_snoc c s :
  remove_all c (s +:+ String c EmptyString) = remove_all c s.
Proof.
  induction s as [|x s IH]; cbn.
  - now rewrite Ascii.eqb_refl.
  - rewrite IH. reflexivity.
Qed.

Lemma contains2_digits a b s :
  all_chars is_digit s = true -> is_digit a = false -> contains2 a b s = false.
Proof.
  intros Hs Ha. induction s as [|c s IH]; [reflexivity |].
  cbn in Hs. apply andb_true_iff in Hs as [Hc Hs]. specialize (IH Hs).
  destruct s as [|c' s]; [reflexivity |].
  cbn in IH |- *. rewrite IH, orb_false_r.
  destruct (Ascii.eqb_spec c a) as [->|]; [congruence | reflexivity].
Qed.

Lemma contains2_snoc a b s c :
  Ascii.eqb c b = false ->
  contains2 a b (s +:+ String c EmptyString) = contains2 a b s.
Proof.
  intros Hc. induction s as [|x s IH]; [reflexivity |].
  destruct s as [|x' s].
  - cbn. now rewrite Hc, andb_false_r.
  - cbn in IH |- *. now rewrite IH.
Qed.

End StringFacts.

(** ** The path codec *)

Section CodecFacts.
Import Str.

Lemma Number_of_N n :
  (n <? Numeral.exact_bound)%N = true -> Numeral.Number_ (of_N n) = IsIndex n.
Proof.
  intros Hn. unfold Numeral.Number_. rewrite trim_no_space.
  - cbv zeta. destruct (of_N n) eqn:E; [now apply of_N_nonempty in E |].
    rewrite <- E, decimal_value_of_N. unfold Numeral.exact. now rewrite Hn.
  - eapply all_chars_impl; [| apply digits_of_N].
    intros c H. now rewrite digit_not_space.
Qed.

Lemma trim_quoted s :
  trim (String quote (s +:+ String quote EmptyString))
  = String quote (s +:+ String quote EmptyString).
Proof.
  unfold trim. rewrite ltrim_head by reflexivity.
  change (String quote (s +:+ String quote EmptyString))
    with (String quote s +:+ String quote EmptyString).
  now rewrite rtrim_snoc.
Qed.

(** A piece between double quotes is no numeral. *)
Lemma Number_quoted s :
  Numeral.Number_ (String quote (s +:+ String quote EmptyString)) = IsNaN.
Proof.
  unfold Numeral.Number_. rewrite trim_quoted. cbv zeta.
  assert (Numeral.decimal_value (String quote (s +:+ String quote EmptyString)) = None) as ->.
  { unfold Numeral.decimal_value, NilZero.uint_of_string.
    cbn [NilEmpty.uint_of_string].
    destruct (NilEmpty.uint_of_string _); reflexivity. }
  assert (Numeral.non_decimal_value (String quote (s +:+ String quote EmptyString)) = None) as ->.
  { destruct s; reflexivity. }
  assert (Numeral.decimal_literal (String quote (s +:+ String quote EmptyString)) = false) as ->.
  { reflexivity. }
  reflexivity.
Qed.

Lemma read_render seg :
  segment_safe seg = true -> read_segment (render_segment seg) = Some seg.
Proof.
  destruct seg as [n|s]; intros Hs; unfold read_segment, render_segment, quoted.
  - now rewrite (Number_of_N _ Hs).
  - rewrite Number_quoted. do 2 f_equal.
    unfold key_safe in Hs. apply andb_true_iff in Hs as [Hq _].
    apply negb_true_iff in Hq.
    change (String quote (s +:+ String quote EmptyString))
      with (String quote s +:+ String quote EmptyString).
    rewrite remove_all_snoc. cbn [remove_all]. rewrite Ascii.eqb_refl.
    now apply remove_all_absent.
Qed.

Lemma render_no_separator seg :
  segment_safe seg = true -> contains2 "]" "[" (render_segment seg) = false.
Proof.
  destruct seg as [n|s]; intros Hs; unfold render_segment, quoted.
  - apply contains2_digits; [apply digits_of_N | reflexivity].
  - unfold key_safe in Hs. apply andb_true_iff in Hs as [_ Hb].
    apply negb_true_iff in Hb.
    change (String quote (s +:+ String quote EmptyString))
      with (String quote s +:+ String quote EmptyString).
    rewrite contains2_snoc by reflexivity.
    destruct s; [reflexivity | exact Hb].
Qed.

Lemma read_all_rendered (p : JSONPath) :
  forallb segment_safe p = true ->
  mapM read_segment (map render_segment p) = Some p.
Proof.
  induction p as [|seg p IH]; intros Hp; [reflexivity |].
  cbn in Hp. apply andb_true_iff in Hp as [Hseg Hp].
  cbn. rewrite (read_render _ Hseg). cbn. rewrite (IH Hp). reflexivity.
Qed.

(** Reading back what [jsonPathToString] wrote, for a path that is not the
    root and whose keys are safe. *)
Lemma pathSegments_rendered (p : JSONPath) :
  p <> [] -> forallb segment_safe p = true ->
  pathSegments (jsonPathToString (Some p)) = Some p.
Proof.
  intros Hne Hp. unfold pathSegments.
  assert (strip_brackets (jsonPathToString (Some p))
          = join "][" (map render_segment p)) as ->.
  { destruct p as [|seg p]; [congruence |].
    unfold jsonPathToString, strip_brackets. cbn [append Ascii.eqb].
    cbn. apply strip_trailing_bracket_snoc. }
  rewrite split2_join.
  - now apply read_all_rendered.
  - discriminate.
  - destruct p; [congruence | discriminate].
  - rewrite forallb_forall in Hp |- *. intros x Hx.
    apply in_map_iff in Hx as (seg & <- & Hin).
    apply negb_true_iff, render_no_separator, Hp, Hin.
Qed.

End CodecFacts.

(** C1, as the code has it: for every path that is not the root, whose
    integer segments are below 2^53 and whose string segments hold no double
    quote and no closing bracket followed by an opening one, reading back the
    string that [jsonPathToString] writes gives the path again. *)
Theorem roundtrip_safe_path (p : JSONPath) :
  p <> [] -> forallb segment_safe p = true ->
  pathSegments (jsonPathToString (Some p)) = Some p.
Proof. apply pathSegments_rendered. Qed.

Lemma roundtrip_safe_path_witness :
  let p := [Key "users"; Index 3; Key "first name"; Key "12"; Index 0] in
  p <> [] /\ forallb segment_safe p = true
  /\ pathSegments (jsonPathToString (Some p)) = Some p.
Proof.
  split; [discriminate |]. split; [reflexivity |].
  apply roundtrip_safe_path; [discriminate | reflexivity].
Defined.

(** C1 as stated fails: a key that holds a double quote loses it. *)
Lemma roundtrip_fails_on_quote :
  let p := [Key (String Str.quote "b")] in
  pathSegments (jsonPathToString (Some p)) = Some [Key "b"]
  /\ pathSegments (jsonPathToString (Some p)) <> Some p.
Proof. split; [reflexivity | discriminate]. Qed.

(** ** The heap: what a call allocates and what it writes *)


Section HeapFacts.

Lemma val_fresh_mono n h h' v :
  length h <= length h' -> val_fresh n h v -> val_fresh n h' v.
Proof. destruct v; cbn; try tauto. lia. Qed.

Lemma Forall_val_fresh_mono n h h' vs :
  length h <= length h' -> Forall (val_fresh n h) vs -> Forall (val_fresh n h') vs.
Proof. intros Hlen. apply List.Forall_impl. intros v. now apply val_fresh_mono. Qed.

Lemma fresh_inv_start (h : heap) : fresh_inv (length h) h.
Proof.
  intros l o Hl Hlook. apply lookup_lt_Some in Hlook. lia.
Qed.

Lemma fresh_inv_alloc n h o :
  n <= length h -> fresh_inv n h ->
  Forall (val_fresh n h) (object_values o) ->
  fresh_inv n (h ++ [o]).
Proof.
  intros Hn Hinv Ho l o' Hl Hlook.
  assert (Hlen : length h <= length (h ++ [o])) by (rewrite length_app; lia).
  destruct (decide (l < length h)) as [Hlt|Hge].
  - rewrite lookup_app_l in Hlook by exact Hlt.
    eapply Forall_val_fresh_mono; [exact Hlen | eapply Hinv; eauto].
  - rewrite lookup_app_r in Hlook by lia.
    destruct (l - length h) as [|m] eqn:E; cbn in Hlook; [| now destruct m].
    injection Hlook as <-. eapply Forall_val_fresh_mono; eauto.
Qed.

(** *** Property lists *)

Lemma lookup_prop_In {V} k (ps : list (string * V)) v :
  lookup_prop k ps = Some v -> In v (map snd ps).
Proof.
  induction ps as [|[k' v'] ps IH]; cbn; [discriminate |].
  destruct (String.eqb k' k); [intros [= ->]; now left | intros H; right; auto].
Qed.

Lemma replace_prop_values {V} (Q : V -> Prop) k v (ps : list (string * V)) :
  Q v -> Forall Q (map snd ps) -> Forall Q (map snd (replace_prop k v ps)).
Proof.
  intros Hv. induction ps as [|[k' v'] ps IH]; cbn; intros H; [constructor |].
  inversion H; subst. destruct (String.eqb k' k); cbn; constructor; auto.
Qed.

Lemma insert_index_values {V} (Q : V -> Prop) n k v (ps : list (string * V)) :
  Q v -> Forall Q (map snd ps) -> Forall Q (map snd (insert_index n k v ps)).
Proof.
  intros Hv. induction ps as [|[k' v'] ps IH]; cbn; intros H.
  - constructor; [exact Hv | constructor].
  - inversion H; subst.
    destruct (array_index k') as [n'|]; [destruct (n' <? n)%N |];
      cbn; repeat constructor; auto.
Qed.

Lemma define_prop_values {V} (Q : V -> Prop) k v (ps : list (string * V)) :
  Q v -> Forall Q (map snd ps) -> Forall Q (map snd (define_prop k v ps)).
Proof.
  intros Hv Hps. unfold define_prop.
  destruct (lookup_prop k ps); [now apply replace_prop_values |].
  destruct (array_index k); [now apply insert_index_values |].
  rewrite map_app. apply Forall_app. split; [exact Hps |].
  cbn. constructor; [exact Hv | constructor].
Qed.

Lemma build_props_values {V} (Q : V -> Prop) (kvs : list (string * V)) :
  Forall Q (map snd kvs) -> Forall Q (map snd (build_props kvs)).
Proof.
  unfold build_props.
  assert (G : forall acc, Forall Q (map snd acc) -> Forall Q (map snd kvs) ->
              Forall Q (map snd (fold_left
                (fun ps (kv : string * V) => define_prop kv.1 kv.2 ps) kvs acc))).
  { induction kvs as [|[k v] kvs IH]; cbn; intros acc Hacc H; [exact Hacc |].
    inversion H; subst. apply IH; [now apply define_prop_values | assumption]. }
  intros H. apply G; [constructor | exact H].
Qed.

(** *** Allocation by [JSON.parse] *)

Lemma thread_ok {A B} (vals : B -> list value) (f : A -> heap -> heap * B) l :
  Forall (alloc_ok vals f) l -> alloc_ok (flat_map vals) (thread f) l.
Proof.
  induction 1 as [|x l Hx Hl IH]; intros n h h' ys E Hn Hinv.
  - cbn in E. injection E as <- <-. repeat split; [reflexivity | exact Hinv | constructor].
  - cbn in E. destruct (f x h) as [h1 y] eqn:E1.
    destruct (thread f l h1) as [h2 ys'] eqn:E2.
    injection E as <- <-.
    destruct (Hx _ _ _ _ E1 Hn Hinv) as (P1 & I1 & V1).
    assert (Hn1 : n <= length h1) by (apply prefix_length in P1; lia).
    destruct (IH _ _ _ _ E2 Hn1 I1) as (P2 & I2 & V2).
    repeat split; [now transitivity h1 | exact I2 |].
    cbn. apply Forall_app. split; [| exact V2].
    eapply Forall_val_fresh_mono; [apply prefix_length; exact P2 | exact V1].
Qed.

Lemma flat_map_singleton {A} (l : list A) : flat_map (fun v => [v]) l = l.
Proof. induction l as [|x l IH]; cbn; [reflexivity | now rewrite IH]. Qed.

Lemma flat_map_snd {A B} (l : list (A * B)) :
  flat_map (fun kv : A * B => [kv.2]) l = map snd l.
Proof. induction l as [|x l IH]; cbn; [reflexivity | now rewrite IH]. Qed.

Lemma alloc_object_ok n h o :
  n <= length h -> fresh_inv n h -> Forall (val_fresh n h) (object_values o) ->
  h `prefix_of` h ++ [o] /\ fresh_inv n (h ++ [o])
  /\ val_fresh n (h ++ [o]) (VObject (length h)).
Proof.
  intros Hn Hinv Ho. repeat split.
  - now apply prefix_app_r.
  - now apply fresh_inv_alloc.
  - exact Hn.
  - rewrite length_app. cbn. lia.
Qed.

Lemma from_json_ok j : alloc_ok (fun v => [v]) from_json j.
Proof.
  induction j as [| b | z | s | items IH | members IH] using json_nested_ind;
    intros n h h' y E Hn Hinv.
  1-4: cbn in E; injection E as <- <-;
       (repeat split; [reflexivity | exact Hinv | repeat constructor]).
  - cbn in E. destruct (thread from_json items h) as [h1 vs] eqn:E1.
    injection E as <- <-.
    destruct (thread_ok _ _ _ IH _ _ _ _ E1 Hn Hinv) as (P1 & I1 & V1).
    rewrite flat_map_singleton in V1.
    assert (Hn1 : n <= length h1) by (apply prefix_length in P1; lia).
    destruct (alloc_object_ok n h1 (Arr vs []) Hn1 I1) as (P2 & I2 & V2).
    { cbn. now rewrite app_nil_r. }
    repeat split; [now transitivity h1 | exact I2 |].
    constructor; [exact V2 | constructor].
  - cbn in E.
    set (f := fun (kj : string * json) (h : heap) =>
                let '(h1, v) := from_json kj.2 h in (h1, (kj.1, v))) in *.
    destruct (thread f members h) as [h1 kvs] eqn:E1.
    injection E as <- <-.
    assert (Hf : Forall (alloc_ok (fun kv : string * value => [kv.2]) f) members).
    { eapply List.Forall_impl; [| exact IH].
      intros [k j'] Hj n' g g' [k' v'] Eg Hn' Hinv'. unfold f in Eg. cbn in Eg.
      destruct (from_json j' g) as [g1 v1] eqn:Eg1. injection Eg as <- <- <-.
      exact (Hj _ _ _ _ Eg1 Hn' Hinv'). }
    destruct (thread_ok _ _ _ Hf _ _ _ _ E1 Hn Hinv) as (P1 & I1 & V1).
    rewrite flat_map_snd in V1.
    assert (Hn1 : n <= length h1) by (apply prefix_length in P1; lia).
    destruct (alloc_object_ok n h1 (Obj (build_props kvs)) Hn1 I1) as (P2 & I2 & V2).
    { cbn. now apply build_props_values. }
    repeat split; [now transitivity h1 | exact I2 |].
    constructor; [exact V2 | constructor].
Qed.

(** *** Reading and writing *)

Lemma get_own_values o k v :
  get_own o k = Some v -> In v (object_values o) \/ exists z, v = VNumber z.
Proof.
  destruct o as [ps|es ps]; cbn.
  - intros H. left. eapply lookup_prop_In, H.
  - destruct (array_index k) as [n|].
    + intros H. left. apply in_or_app. left.
      apply list_elem_of_In. eapply list_elem_of_lookup_2, H.
    + destruct (String.eqb k "length"); [intros [= <-]; eauto |].
      intros H. left. apply in_or_app. right. eapply lookup_prop_In, H.
Qed.

Lemma get_fresh n l k h h' c :
  get l k h = (h', c) -> n <= l -> fresh_inv n h ->
  h' = h /\ forall v, c = Normal v -> val_fresh n h v.
Proof.
  unfold get. intros E Hl Hinv.
  destruct (h !! l) as [o|] eqn:Ho; [| injection E as <- <-; split; [easy | discriminate]].
  destruct (get_own o k) as [v|] eqn:Hv.
  - injection E as <- <-. split; [reflexivity |]. intros v' [= <-].
    destruct (get_own_values _ _ _ Hv) as [Hin | [z ->]]; [| exact I].
    specialize (Hinv _ _ Hl Ho). rewrite List.Forall_forall in Hinv. auto.
  - destruct (inherited o k); injection E as <- <-; (split; [reflexivity |]).
    + discriminate.
    + intros v' [= <-]. exact I.
Qed.

Lemma set_elem_values n v es u :
  In u (set_elem n v es) -> In u es \/ u = v \/ u = VUndefined.
Proof.
  unfold set_elem. destruct (n <? length es)%nat.
  - intros H. apply list_elem_of_In, list_elem_of_lookup in H as [i Hi].
    apply list_lookup_insert_Some in Hi as [(_ & -> & _) | (_ & Hi)]; [tauto |].
    left. apply list_elem_of_In. eapply list_elem_of_lookup_2, Hi.
  - intros H. apply in_app_or in H as [H|H]; [tauto |].
    apply in_app_or in H as [H|H].
    + apply list_elem_of_In, elem_of_replicate_inv in H. tauto.
    + destruct H as [<-|[]]. tauto.
Qed.

Lemma resize_values n es u : In u (resize n es) -> In u es \/ u = VUndefined.
Proof.
  unfold resize. intros H. apply in_app_or in H as [H|H].
  - left. apply list_elem_of_In. apply list_elem_of_In, elem_of_take in H as (i & Hi & _).
    eapply list_elem_of_lookup_2, Hi.
  - apply list_elem_of_In, elem_of_replicate_inv in H. tauto.
Qed.

Lemma define_prop_In {V} k (v : V) (ps : list (string * V)) u :
  In u (map snd (define_prop k v ps)) -> In u (map snd ps) \/ u = v.
Proof.
  intros H.
  assert (G : Forall (fun u => In u (map snd ps) \/ u = v) (map snd (define_prop k v ps))).
  { apply define_prop_values; [now right |].
    apply List.Forall_forall. intros x Hx. now left. }
  rewrite List.Forall_forall in G. auto.
Qed.

(** A write changes at most the object written to, and stores nothing
    but the value given, and [undefined] in the holes of an array. *)
Lemma put_effect l k v h h' c :
  put l k v h = (h', c) ->
  h' = h
  \/ exists o o', h !! l = Some o /\ h' = <[l := o']> h
       /\ forall u, In u (object_values o') ->
                    In u (object_values o) \/ u = v \/ u = VUndefined.
Proof.
  unfold put. intros E.
  destruct (h !! l) as [[ps|es ps]|] eqn:Ho; [| | injection E as <- <-; now left].
  - destruct (String.eqb k proto_key && negb (is_Some_bool (lookup_prop k ps)));
      injection E as <- <-; [now left |].
    right. exists (Obj ps), (Obj (define_prop k v ps)). repeat split.
    cbn. intros u Hu. apply define_prop_In in Hu. tauto.
  - destruct (array_index k) as [n|].
    + injection E as <- <-. right.
      exists (Arr es ps), (Arr (set_elem (N.to_nat n) v es) ps). repeat split.
      cbn. intros u Hu. apply in_app_or in Hu as [Hu|Hu].
      * apply set_elem_values in Hu as [Hu|Hu]; [| tauto]. left. now apply in_or_app; left.
      * left. now apply in_or_app; right.
    + destruct (String.eqb k "length").
      * destruct (length_of_value v) as [m| |]; injection E as <- <-; [| now left | now left].
        right. exists (Arr es ps), (Arr (resize m es) ps). repeat split.
        cbn. intros u Hu. apply in_app_or in Hu as [Hu|Hu].
        -- apply resize_values in Hu as [Hu|Hu]; [| tauto]. left. now apply in_or_app; left.
        -- left. now apply in_or_app; right.
      * destruct (String.eqb k proto_key && negb (is_Some_bool (lookup_prop k ps)));
          injection E as <- <-; [now left |].
        right. exists (Arr es ps), (Arr es (define_prop k v ps)). repeat split.
        cbn. intros u Hu. apply in_app_or in Hu as [Hu|Hu].
        -- left. now apply in_or_app; left.
        -- apply define_prop_In in Hu as [Hu|Hu]; [| tauto]. left. now apply in_or_app; right.
Qed.

(** The objects below [length h0] are those of [h0]. *)
Lemma prefix_insert (h0 h : heap) l o :
  h0 `prefix_of` h -> length h0 <= l -> h0 `prefix_of` <[l := o]> h.
Proof.
  intros [ext ->] Hl. exists (<[l - length h0 := o]> ext).
  now rewrite insert_app_r_alt.
Qed.

Lemma put_prefix (h0 : heap) l k v h h' c :
  put l k v h = (h', c) -> h0 `prefix_of` h -> length h0 <= l ->
  h0 `prefix_of` h' /\ length h' = length h.
Proof.
  intros E Hp Hl.
  destruct (put_effect _ _ _ _ _ _ E) as [-> | (o & o' & _ & -> & _)]; [easy |].
  split; [now apply prefix_insert | apply length_insert].
Qed.

(** After a write of [v] to a fresh object, every fresh object stores
    fresh values or [v]. *)
Lemma put_cells n l k v h h' c :
  put l k v h = (h', c) -> fresh_inv n h ->
  forall l1 o1, n <= l1 -> h' !! l1 = Some o1 ->
    Forall (fun u => val_fresh n h' u \/ u = v) (object_values o1).
Proof.
  intros E Hinv l1 o1 Hl1 Ho1.
  destruct (put_effect _ _ _ _ _ _ E) as [-> | (o & o' & Ho & -> & Hvals)].
  - eapply List.Forall_impl; [| eapply Hinv; eauto]. intros u Hu. now left.
  - assert (Hlen : length h <= length (<[l := o']> h)) by now rewrite length_insert.
    apply list_lookup_insert_Some in Ho1 as [(-> & <- & _) | (Hne & Ho1)].
    + apply List.Forall_forall. intros u Hu.
      destruct (Hvals _ Hu) as [Hin | [-> | ->]]; [| now right | now left].
      left. eapply val_fresh_mono; [exact Hlen |].
      specialize (Hinv _ _ Hl1 Ho). rewrite List.Forall_forall in Hinv. auto.
    + eapply List.Forall_impl; [| eapply Hinv; eauto].
      intros u Hu. left. eapply val_fresh_mono; eauto.
Qed.

Lemma put_fresh n l k v h h' c :
  put l k v h = (h', c) -> fresh_inv n h -> val_fresh n h v -> fresh_inv n h'.
Proof.
  intros E Hinv Hv l1 o1 Hl1 Ho1.
  assert (Hlen : length h' = length h).
  { destruct (put_effect _ _ _ _ _ _ E) as [-> | (o & o' & _ & -> & _)];
      [easy | apply length_insert]. }
  eapply List.Forall_impl; [| eapply put_cells; eauto].
  intros u [Hu | ->]; [exact Hu |].
  eapply val_fresh_mono; [| exact Hv]. lia.
Qed.

(** *** The walk of the patcher *)

Lemma step_walking (h0 : heap) current seg h h' c :
  step current seg h = (h', c) ->
  walking h0 h -> val_fresh (length h0) h current ->
  walking h0 h' /\ length h <= length h'
  /\ forall child, c = Normal child -> val_fresh (length h0) h' child.
Proof.
  intros E [Hp Hinv] Hcur. unfold step, on_object in E.
  destruct current as [| | b | z | s | l].
  1-2: injection E as <- <-; split; [now split | split; [lia | discriminate]].
  1-3: destruct (String.eqb (property_key seg) proto_key);
       injection E as <- <-; (split; [now split | split; [lia | discriminate]]).
  cbn in Hcur. unfold bind in E.
  destruct (get l (property_key seg) h) as [h1 c1] eqn:E1.
  destruct (get_fresh (length h0) _ _ _ _ _ E1 (proj1 Hcur) Hinv) as [-> Hv].
  destruct c1 as [v| e |];
    [| injection E as <- <-; split; [now split | split; [lia | discriminate]] ..].
  specialize (Hv v eq_refl).
  destruct (truthy v).
  - cbn in E. destruct (put l (property_key seg) v h) as [h2 c2] eqn:E2.
    destruct (put_prefix h0 _ _ _ _ _ _ E2 Hp (proj1 Hcur)) as [Hp2 Hlen2].
    pose proof (put_fresh _ _ _ _ _ _ _ E2 Hinv Hv) as Hinv2.
    destruct c2; injection E as <- <-; (split; [now split |]); (split; [lia |]); try discriminate.
    intros child [= <-]. eapply val_fresh_mono; [| exact Hv]. lia.
  - cbn in E.
    assert (Hn : length h0 <= length h) by now apply prefix_length.
    destruct (alloc_object_ok _ h (Obj []) Hn Hinv) as (Pa & Ia & Va); [constructor |].
    destruct (put l (property_key seg) (VObject (length h)) (h ++ [Obj []]))
      as [h2 c2] eqn:E2.
    assert (Hpa : h0 `prefix_of` h ++ [Obj []]) by now transitivity h.
    destruct (put_prefix h0 _ _ _ _ _ _ E2 Hpa (proj1 Hcur)) as [Hp2 Hlen2].
    pose proof (put_fresh _ _ _ _ _ _ _ E2 Ia Va) as Hinv2.
    rewrite length_app in Hlen2. cbn in Hlen2.
    destruct c2; injection E as <- <-; (split; [now split |]); (split; [lia |]); try discriminate.
    intros child [= <-]. eapply val_fresh_mono; [| exact Va].
    rewrite length_app. cbn. lia.
Qed.

Lemma descend_walking (h0 : heap) segs : forall current h h' c,
  descend segs current h = (h', c) ->
  walking h0 h -> val_fresh (length h0) h current ->
  walking h0 h' /\ length h <= length h'
  /\ forall last, c = Normal last -> val_fresh (length h0) h' last.
Proof.
  induction segs as [|seg segs IH]; intros current h h' c E Hw Hcur.
  - cbn in E. injection E as <- <-. split; [exact Hw |]. split; [lia |].
    now intros last [= <-].
  - cbn in E. unfold bind in E.
    destruct (step current seg h) as [h1 c1] eqn:E1.
    destruct (step_walking h0 _ _ _ _ _ E1 Hw Hcur) as (Hw1 & Hl1 & Hc1).
    destruct c1 as [child| e |];
      [| injection E as <- <-; split; [exact Hw1 | split; [lia | discriminate]] ..].
    destruct (IH _ _ _ _ E Hw1 (Hc1 _ eq_refl)) as (Hw2 & Hl2 & Hc2).
    split; [exact Hw2 |]. split; [lia | exact Hc2].
Qed.

Lemma clone_walking v (h h' : heap) c :
  clone v h = (h', c) ->
  walking h h' /\ forall r, c = Normal r -> val_fresh (length h) h' r.
Proof.
  unfold clone, bind, stringify, parse, throw. intros E.
  assert (Hw : walking h h) by (split; [reflexivity | apply fresh_inv_start]).
  destruct (to_json (length h) h v) as [[j|]| e |];
    try (injection E as <- <-; split; [exact Hw | discriminate]).
  destruct (from_json j h) as [h1 v1] eqn:E1. injection E as <- <-.
  destruct (from_json_ok j (length h) h h1 v1 E1 (le_n _) (fresh_inv_start h))
    as (P1 & I1 & V1).
  split; [now split |]. intros r [= <-]. now inversion V1.
Qed.

Lemma walking_patched (h0 h : heap) newValue : walking h0 h -> patched h0 h newValue.
Proof.
  intros [Hp Hinv]. split; [exact Hp |]. intros l o Hl Ho.
  eapply List.Forall_impl; [| eapply Hinv; eauto]. intros u Hu. now left.
Qed.

Lemma assign_patched (h0 : heap) current seg newValue h h' c :
  assign current seg newValue h = (h', c) ->
  walking h0 h -> val_fresh (length h0) h current ->
  patched h0 h' newValue /\ length h' = length h.
Proof.
  intros E Hw Hcur. unfold assign, set_property, on_object in E.
  destruct current as [| | b | z | s | l].
  1-2: injection E as <- <-; split; [now apply walking_patched | reflexivity].
  1-3: destruct (String.eqb (property_key seg) proto_key);
       injection E as <- <-; (split; [now apply walking_patched | reflexivity]).
  destruct Hw as [Hp Hinv]. cbn in Hcur.
  destruct (put_prefix h0 _ _ _ _ _ _ E Hp (proj1 Hcur)) as [Hp' Hlen].
  split; [| exact Hlen].
  split; [exact Hp' |]. intros l1 o1 Hl1 Ho1. eapply put_cells; eauto.
Qed.

Lemma updateJsonAtPath_patched jsonObj path newValue (h h' : heap) c :
  updateJsonAtPath jsonObj path newValue h = (h', c) ->
  path <> EmptyString ->
  patched h h' newValue /\ forall r, c = Normal r -> val_fresh (length h) h' r.
Proof.
  intros E Hpath. unfold updateJsonAtPath in E.
  destruct (String.eqb_spec path EmptyString) as [->|_]; [congruence |].
  assert (Hw0 : walking h h) by (split; [reflexivity | apply fresh_inv_start]).
  destruct (pathSegments path) as [segs|];
    [| injection E as <- <-; split; [now apply walking_patched | discriminate]].
  unfold bind at 1 in E.
  destruct (clone jsonObj h) as [h1 c1] eqn:E1.
  destruct (clone_walking _ _ _ _ E1) as [Hw1 Hc1].
  destruct c1 as [clonedJson| e |];
    [| injection E as <- <-; split; [now apply walking_patched | discriminate] ..].
  specialize (Hc1 _ eq_refl).
  unfold bind at 1 in E.
  destruct (descend (removelast segs) clonedJson h1) as [h2 c2] eqn:E2.
  destruct (descend_walking h _ _ _ _ _ E2 Hw1 Hc1) as (Hw2 & Hl2 & Hc2).
  destruct c2 as [current| e |];
    [| injection E as <- <-; split; [now apply walking_patched | discriminate] ..].
  specialize (Hc2 _ eq_refl).
  unfold bind in E.
  destruct (assign current (last_segment segs) newValue h2) as [h3 c3] eqn:E3.
  destruct (assign_patched h _ _ _ _ _ _ E3 Hw2 Hc2) as [Hp3 Hl3].
  destruct c3; injection E as <- <-; (split; [exact Hp3 |]); try discriminate.
  intros r [= <-]. eapply val_fresh_mono; [| exact Hc1]. lia.
Qed.

Lemma patched_unchanged (h h' : heap) newValue l o :
  patched h h' newValue -> h !! l = Some o -> h' !! l = Some o.
Proof. intros [Hp _] Ho. eapply prefix_lookup_Some; eauto. Qed.

Lemma reachable_in_heap (h : heap) v l : reachable h v l -> l < length h.
Proof.
  induction 1 as [l o Ho | l o v l' Ho _ _ IH]; [| exact IH].
  eapply lookup_lt_Some, Ho.
Qed.

Lemma reachable_root (h : heap) v l :
  reachable h v l -> exists l0, v = VObject l0 /\ l0 < length h.
Proof.
  destruct 1 as [l o Ho | l o v l' Ho _ _]; exists l; split; try reflexivity;
    eapply lookup_lt_Some, Ho.
Qed.

(** What a value reaches after the patch is a later object, or was reached
    before by the new value or by the value itself. *)
Lemma reachable_patched (h h' : heap) newValue v l :
  patched h h' newValue -> reachable h' v l ->
  length h <= l \/ reachable h newValue l \/ reachable h v l.
Proof.
  intros [Hp Hcells].
  induction 1 as [l o Ho | l o v l' Ho Hin Hr IH].
  - destruct (decide (l < length h)) as [Hlt|]; [| left; lia].
    right. right. apply lookup_lt_is_Some_2 in Hlt as [o0 Ho0].
    eapply reach_here, Ho0.
  - destruct IH as [IH | [IH | IH]]; [now left | now right; left |].
    destruct (decide (l < length h)) as [Hlt|Hge].
    + right. right. apply lookup_lt_is_Some_2 in Hlt as [o0 Ho0].
      pose proof (prefix_lookup_Some _ _ _ _ Ho0 Hp) as Ho'.
      assert (o0 = o) as -> by congruence.
      eapply reach_step; eauto.
    + assert (Hl : length h <= l) by lia.
      specialize (Hcells _ _ Hl Ho). rewrite List.Forall_forall in Hcells.
      destruct (Hcells _ Hin) as [Hf | ->]; [| now right; left].
      destruct (reachable_root _ _ _ IH) as (l0 & -> & Hl0).
      cbn in Hf. lia.
Qed.

End HeapFacts.

(** ** Reading a parsed text back *)

Section ReadBack.

Lemma reads_as_prefix j v (h h' : heap) :
  reads_as j v h -> h `prefix_of` h' -> reads_as j v h'.
Proof.
  intros Hr Hp h'' fuel Hp' Hf. apply Hr; [now transitivity h' | exact Hf].
Qed.

Lemma thread_reads {A B} (f : A -> heap -> heap * B) (d : A -> nat)
      (R : A -> B -> heap -> Prop) l :
  (forall x y (g g' : heap), R x y g -> g `prefix_of` g' -> R x y g') ->
  Forall (fun x => forall (g g' : heap) y, f x g = (g', y) ->
            g `prefix_of` g' /\ length g + d x <= length g' /\ R x y g') l ->
  forall (h h' : heap) ys, thread f l h = (h', ys) ->
    h `prefix_of` h' /\ length h + list_max (map d l) <= length h'
    /\ Forall2 (fun x y => R x y h') l ys.
Proof.
  intros Hmono. induction 1 as [|x l Hx Hl IH]; intros h h' ys E.
  - cbn in E. injection E as <- <-. repeat split; [reflexivity | cbn; lia | constructor].
  - cbn in E. destruct (f x h) as [h1 y] eqn:E1.
    destruct (thread f l h1) as [h2 ys'] eqn:E2. injection E as <- <-.
    destruct (Hx _ _ _ E1) as (P1 & L1 & R1).
    destruct (IH _ _ _ E2) as (P2 & L2 & R2).
    pose proof (prefix_length _ _ P2) as L12.
    repeat split; [now transitivity h1 | |].
    + change (list_max (map d (x :: l))) with (Nat.max (d x) (list_max (map d l))).
      lia.
    + constructor; [eapply Hmono; eauto | exact R2].
Qed.

Lemma cmapM_Forall2 {A B C} (F : B -> completion C) (G : A -> C) l ys :
  Forall2 (fun x y => F y = Normal (G x)) l ys -> cmapM F ys = Normal (map G l).
Proof.
  induction 1 as [|x y l ys Hxy _ IH]; [reflexivity |].
  cbn. rewrite Hxy. cbn. rewrite IH. reflexivity.
Qed.

Lemma omap_id_Some {A} (l : list A) : omap id (map Some l) = l.
Proof. induction l as [|x l IH]; [reflexivity |]. cbn. now rewrite IH. Qed.

Lemma lookup_prop_same_keys {V W} (R : V -> W -> Prop) k ps qs :
  Forall2 (same_keys R) ps qs ->
  is_Some_bool (lookup_prop k ps) = is_Some_bool (lookup_prop k qs).
Proof.
  induction 1 as [|[k1 v] [k2 w] ps qs [Hk _] _ IH]; [reflexivity |].
  cbn in Hk. subst. cbn. destruct (String.eqb k2 k); [reflexivity | exact IH].
Qed.

Lemma replace_prop_same_keys {V W} (R : V -> W -> Prop) k v w ps qs :
  R v w -> Forall2 (same_keys R) ps qs ->
  Forall2 (same_keys R) (replace_prop k v ps) (replace_prop k w qs).
Proof.
  intros Hvw. induction 1 as [|[k1 v1] [k2 w1] ps qs [Hk HR] Hrest IH]; [constructor |].
  cbn in Hk. subst. cbn. destruct (String.eqb k2 k).
  - constructor; [split; [reflexivity | exact Hvw] | exact Hrest].
  - constructor; [split; [reflexivity | exact HR] | exact IH].
Qed.

Lemma insert_index_same_keys {V W} (R : V -> W -> Prop) n k v w ps qs :
  R v w -> Forall2 (same_keys R) ps qs ->
  Forall2 (same_keys R) (insert_index n k v ps) (insert_index n k w qs).
Proof.
  intros Hvw. induction 1 as [|[k1 v1] [k2 w1] ps qs [Hk HR] Hrest IH].
  - cbn. constructor; [split; [reflexivity | exact Hvw] | constructor].
  - cbn in Hk. subst. cbn.
    assert (Hhead : same_keys R (k2, v1) (k2, w1)) by (split; [reflexivity | exact HR]).
    assert (Hnew : same_keys R (k, v) (k, w)) by (split; [reflexivity | exact Hvw]).
    destruct (array_index k2) as [n'|]; [destruct (n' <? n)%N |];
      repeat (constructor; try assumption).
Qed.

Lemma define_prop_same_keys {V W} (R : V -> W -> Prop) k v w ps qs :
  R v w -> Forall2 (same_keys R) ps qs ->
  Forall2 (same_keys R) (define_prop k v ps) (define_prop k w qs).
Proof.
  intros Hvw Hps. unfold define_prop.
  pose proof (lookup_prop_same_keys R k ps qs Hps) as Hl.
  destruct (lookup_prop k ps), (lookup_prop k qs); try discriminate.
  - now apply replace_prop_same_keys.
  - destruct (array_index k); [now apply insert_index_same_keys |].
    apply Forall2_app; [exact Hps |].
    constructor; [split; [reflexivity | exact Hvw] | constructor].
Qed.

Lemma build_props_same_keys {V W} (R : V -> W -> Prop) kvs kws :
  Forall2 (same_keys R) kvs kws ->
  Forall2 (same_keys R) (build_props kvs) (build_props kws).
Proof.
  unfold build_props. intros H.
  assert (G : forall acc acc', Forall2 (same_keys R) acc acc' ->
    Forall2 (same_keys R)
      (fold_left (fun ps (kv : string * V) => define_prop kv.1 kv.2 ps) kvs acc)
      (fold_left (fun ps (kv : string * W) => define_prop kv.1 kv.2 ps) kws acc')).
  { induction H as [|[k1 v] [k2 w] kvs kws [Hk HR] _ IH]; intros acc acc' Hacc;
      [exact Hacc |].
    cbn in Hk. subst. cbn. apply IH. now apply define_prop_same_keys. }
  apply G. constructor.
Qed.

(** What [JSON.parse] allocates is written out again as the normal form of
    the text, and a text of depth [d] takes at least [d] objects. *)
Lemma from_json_reads j : forall (h h' : heap) v,
  from_json j h = (h', v) ->
  h `prefix_of` h' /\ length h + depth j <= length h' /\ reads_as j v h'.
Proof.
  induction j as [| b | z | s | items IH | members IH] using json_nested_ind;
    intros h h' v E.
  1-4: cbn in E; injection E as <- <-;
       (repeat split; [reflexivity | cbn; lia |]);
       intros h'' [|fuel] _ _; reflexivity.
  - cbn in E. destruct (thread from_json items h) as [h1 vs] eqn:E1.
    injection E as <- <-.
    destruct (thread_reads from_json depth reads_as items reads_as_prefix IH _ _ _ E1)
      as (P1 & L1 & R1).
    repeat split.
    + now apply prefix_app_r.
    + rewrite length_app. cbn. lia.
    + intros h'' fuel Hp Hf. cbn in Hf. destruct fuel as [|fuel]; [lia |].
      cbn.
      assert (Hl : h'' !! length h1 = Some (Arr vs [])).
      { eapply prefix_lookup_Some; [| exact Hp]. apply list_lookup_middle. reflexivity. }
      rewrite Hl.
      rewrite (cmapM_Forall2 _ normal items vs); [reflexivity |].
      assert (Hp1 : h1 `prefix_of` h'').
      { transitivity (h1 ++ [Arr vs []]); [now apply prefix_app_r | exact Hp]. }
      clear -R1 Hp1 Hf. revert Hf.
      induction R1 as [|j' v' items' vs' Hr _ IHR]; intros Hf; [constructor |].
      change (list_max (map depth (j' :: items')))
        with (Nat.max (depth j') (list_max (map depth items'))) in Hf.
      constructor; [| apply IHR; lia].
      rewrite (Hr h'' fuel); [reflexivity | exact Hp1 | lia].
  - cbn in E.
    set (f := fun (kj : string * json) (h : heap) =>
                let '(h1, v) := from_json kj.2 h in (h1, (kj.1, v))) in *.
    destruct (thread f members h) as [h1 kvs] eqn:E1.
    injection E as <- <-.
    assert (Hf : Forall (fun x : string * json =>
              forall (g g' : heap) (y : string * value), f x g = (g', y) ->
                g `prefix_of` g' /\ length g + depth x.2 <= length g'
                /\ (y.1 = x.1 /\ reads_as x.2 y.2 g')) members).
    { eapply List.Forall_impl; [| exact IH].
      intros [k j'] Hj g g' [k' v'] Eg. unfold f in Eg. cbn in Eg.
      destruct (from_json j' g) as [g1 v1] eqn:Eg1. injection Eg as <- <- <-.
      destruct (Hj _ _ _ Eg1) as (Pg & Lg & Rg). cbn. auto. }
    destruct (thread_reads f (fun kj => depth kj.2)
                (fun x y g => y.1 = x.1 /\ reads_as x.2 y.2 g) members) with
      (h := h) (h' := h1) (ys := kvs) as (P1 & L1 & R1); [| exact Hf | exact E1 |].
    { intros x y g g' [Hk Hr] Hp. split; [exact Hk | eapply reads_as_prefix; eauto]. }
    repeat split.
    + now apply prefix_app_r.
    + rewrite length_app. cbn. lia.
    + intros h'' fuel Hp Hfuel. cbn in Hfuel. destruct fuel as [|fuel]; [lia |].
      cbn.
      assert (Hl : h'' !! length h1 = Some (Obj (build_props kvs))).
      { eapply prefix_lookup_Some; [| exact Hp]. apply list_lookup_middle. reflexivity. }
      rewrite Hl.
      set (R := fun (v' : value) (j' : json) => to_json fuel h'' v' = Normal (Some j')).
      assert (HR : Forall2 (same_keys R) kvs
                     (map (fun kj : string * json => (kj.1, normal kj.2)) members)).
      { assert (Hp1 : h1 `prefix_of` h'').
        { transitivity (h1 ++ [Obj (build_props kvs)]);
            [now apply prefix_app_r | exact Hp]. }
        clear -R1 Hp1 Hfuel. revert Hfuel.
        induction R1 as [|[k j'] [k' v'] ms kvs' [Hk Hr] _ IHR]; intros Hfuel;
          [constructor |].
        change (list_max (map (fun kj : string * json => depth kj.2) ((k, j') :: ms)))
          with (Nat.max (depth j')
                  (list_max (map (fun kj : string * json => depth kj.2) ms))) in Hfuel.
        cbn in Hk, Hr. subst. cbn. constructor.
        - split; [reflexivity |]. cbn. unfold R. apply Hr; [exact Hp1 | lia].
        - apply IHR. lia. }
      apply build_props_same_keys in HR.
      rewrite (cmapM_Forall2 _ Some
                 (build_props (map (fun kj : string * json => (kj.1, normal kj.2)) members))
                 (build_props kvs)).
      * cbn. now rewrite omap_id_Some.
      * apply Forall2_flip. eapply Forall2_impl; [exact HR |].
        intros [k v'] [k' j'] [Hk Hv]. cbn in Hk, Hv. subst. unfold R in Hv.
        cbn. rewrite Hv. reflexivity.
Qed.

End ReadBack.

(** ** The patcher on parsed texts *)

Section PatchFacts.

Lemma jsonPathToString_nonempty p : String.eqb (jsonPathToString p) EmptyString = false.
Proof. destruct p as [[|seg p]|]; reflexivity. Qed.

Lemma get_prop (h : heap) l ps k v :
  h !! l = Some (Obj ps) -> lookup_prop k ps = Some v -> get l k h = (h, Normal v).
Proof. intros Hl Hk. unfold get, get_own. now rewrite Hl, Hk. Qed.

Lemma get_absent (h : heap) l ps k :
  h !! l = Some (Obj ps) -> lookup_prop k ps = None ->
  mem_string k object_prototype_names = false ->
  get l k h = (h, Normal VUndefined).
Proof. intros Hl Hk Hn. unfold get, get_own, inherited. now rewrite Hl, Hk, Hn. Qed.

Lemma put_prop (h : heap) l ps k v :
  h !! l = Some (Obj ps) ->
  String.eqb k proto_key && negb (is_Some_bool (lookup_prop k ps)) = false ->
  put l k v h = (<[l := Obj (define_prop k v ps)]> h, Normal tt).
Proof. intros Hl Hk. unfold put. now rewrite Hl, Hk. Qed.

Lemma define_prop_nil {V} k (v : V) : define_prop k v [] = [(k, v)].
Proof. unfold define_prop. cbn [lookup_prop insert_index app]. now destruct (array_index k). Qed.

Lemma define_prop_same {V} k (v w : V) : define_prop k v [(k, w)] = [(k, v)].
Proof.
  unfold define_prop. cbn [lookup_prop]. rewrite String.eqb_refl.
  cbn [replace_prop]. now rewrite String.eqb_refl.
Qed.

Lemma not_prototype_not_proto k :
  mem_string k object_prototype_names = false -> String.eqb k proto_key = false.
Proof.
  unfold mem_string, object_prototype_names. cbn [existsb].
  intros H. repeat (apply orb_false_iff in H as [? H]). assumption.
Qed.

(** Writing out an ordinary object whose properties are written out. *)
Lemma to_json_object (h : heap) l ps ms fuel :
  h !! l = Some (Obj ps) ->
  Forall2 (same_keys (fun v j => to_json fuel h v = Normal (Some j))) ps ms ->
  to_json (S fuel) h (VObject l) = Normal (Some (JObject ms)).
Proof.
  intros Hl HR. cbn. rewrite Hl.
  rewrite (cmapM_Forall2 _ Some ms ps).
  - cbn. now rewrite omap_id_Some.
  - apply Forall2_flip. eapply Forall2_impl; [exact HR |].
    intros [k v] [k' j] [Hk Hv]. cbn in Hk, Hv. subst. cbn. now rewrite Hv.
Qed.

(** The object that [JSON.parse] makes of the text of an object. *)
Lemma from_json_object members (h h' : heap) v :
  from_json (JObject members) h = (h', v) ->
  exists (g : heap) kvs,
    h' = g ++ [Obj (build_props kvs)] /\ v = VObject (length g)
    /\ h `prefix_of` g
    /\ length h + list_max (map (fun kj : string * json => depth kj.2) members) <= length g
    /\ Forall2 (fun (kj : string * json) (kv : string * value) =>
                  kv.1 = kj.1 /\ reads_as kj.2 kv.2 g) members kvs.
Proof.
  intros E. cbn in E.
  set (f := fun (kj : string * json) (h : heap) =>
              let '(h1, v) := from_json kj.2 h in (h1, (kj.1, v))) in *.
  destruct (thread f members h) as [g kvs] eqn:E1. injection E as <- <-.
  exists g, kvs. split; [reflexivity |]. split; [reflexivity |].
  apply (thread_reads f (fun kj => depth kj.2)
           (fun x y g => y.1 = x.1 /\ reads_as x.2 y.2 g) members); [| | exact E1].
  - intros x y g0 g' [Hk Hr] Hp. split; [exact Hk | eapply reads_as_prefix; eauto].
  - apply List.Forall_forall. intros [k j] _ g0 g' [k' v'] Eg. unfold f in Eg. cbn in Eg.
    destruct (from_json j g0) as [g1 v1] eqn:Eg1. injection Eg as <- <- <-.
    destruct (from_json_reads _ _ _ _ Eg1) as (Pg & Lg & Rg). cbn. auto.
Qed.

(** [patch] on a path string that is read as [segs]: the document is
    cloned as it was parsed, and the walk is made on the clone. *)
Lemma patch_run doc path new segs (h1 h2 h3 : heap) d v c :
  String.eqb path EmptyString = false -> pathSegments path = Some segs ->
  from_json doc [] = (h1, d) -> from_json new h1 = (h2, v) ->
  from_json (normal doc) h2 = (h3, c) ->
  patch doc path new
  = ((current <- descend (removelast segs) c ;;
      assign current (last_segment segs) v ;;; stringify c)%js h3).2.
Proof.
  intros Hpath Hsegs E1 E2 E3.
  destruct (from_json_reads _ _ _ _ E1) as (P1 & L1 & R1).
  destruct (from_json_reads _ _ _ _ E2) as (P2 & L2 & _).
  unfold patch, bind at 1, parse. rewrite E1. unfold bind at 1. rewrite E2.
  unfold bind at 1, updateJsonAtPath. rewrite Hpath, Hsegs.
  unfold bind at 1, clone. unfold bind at 1, stringify at 1.
  rewrite (R1 h2 (length h2) P2) by (cbn in L1; lia).
  unfold parse. rewrite E3. unfold bind.
  destruct (descend (removelast segs) c h3) as [h4 [current| e |]]; try reflexivity.
  destruct (assign current (last_segment segs) v h4) as [h5 [[]| e |]]; reflexivity.
Qed.


Lemma lookup_prop_related {V W} (R : V -> W -> Prop) k ps qs :
  Forall2 (same_keys R) ps qs ->
  match lookup_prop k ps, lookup_prop k qs with
  | Some v, Some w => R v w
  | None, None => True
  | _, _ => False
  end.
Proof.
  induction 1 as [|[k1 v] [k2 w] ps qs [Hk HR] _ IH]; [exact I |].
  cbn in Hk, HR. subst. cbn. destruct (String.eqb k2 k); [exact HR | exact IH].
Qed.

Lemma to_json_falsy fuel (h : heap) v j :
  to_json fuel h v = Normal (Some j) -> falsy_scalar j = true -> truthy v = false.
Proof.
  intros E F.
  destruct v as [| | b | z | s | l]; destruct fuel as [|fuel]; cbn in E;
    try discriminate E;
    try (injection E as <-; cbn in F |- *;
         first [reflexivity | now rewrite F | now destruct b]).
  destruct (h !! l) as [[ps|es ps]|]; [| | discriminate E].
  - destruct (cmapM _ ps); cbn in E; [injection E as <- | discriminate E ..].
    discriminate F.
  - destruct (cmapM _ es); cbn in E; [injection E as <- | discriminate E ..].
    discriminate F.
Qed.

(** One turn of the loop on a property that is absent or falsy: a new empty
    object is stored and entered. *)
Lemma step_vivify (h : heap) l ps k v0 :
  h !! l = Some (Obj ps) ->
  get l k h = (h, Normal v0) -> truthy v0 = false ->
  String.eqb k proto_key && negb (is_Some_bool (lookup_prop k ps)) = false ->
  step (VObject l) (Key k) h
  = (<[l := Obj (define_prop k (VObject (length h)) ps)]> (h ++ [Obj []]),
     Normal (VObject (length h))).
Proof.
  intros Hl Hget Hfalse Hproto. unfold step, on_object. cbn [property_key].
  unfold bind at 1. rewrite Hget. rewrite Hfalse.
  unfold bind at 1, alloc. unfold bind.
  rewrite (put_prop (h ++ [Obj []]) l ps k _); [reflexivity | | exact Hproto].
  rewrite lookup_app_l; [exact Hl | eapply lookup_lt_Some, Hl].
Qed.


Lemma parsed_members_written members (g : heap) kvs :
  normal (JObject members) = JObject members ->
  list_max (map (fun kj : string * json => depth kj.2) members) <= length g ->
  Forall2 (fun (kj : string * json) (kv : string * value) =>
             kv.1 = kj.1 /\ reads_as kj.2 kv.2 g) members kvs ->
  Forall2 (same_keys (written g)) (build_props kvs) members.
Proof.
  intros Hn Hd HF. cbn in Hn. injection Hn as Hn. rewrite <- Hn.
  apply build_props_same_keys. clear Hn. revert Hd.
  induction HF as [|[k j] [k' v] ms kvs' [Hk Hr] _ IH]; intros Hd; [constructor |].
  change (list_max (map (fun kj : string * json => depth kj.2) ((k, j) :: ms)))
    with (Nat.max (depth j) (list_max (map (fun kj : string * json => depth kj.2) ms)))
    in Hd.
  cbn in Hk, Hr. subst. cbn. constructor; [| apply IH; lia].
  split; [reflexivity |]. cbn. intros h' fuel Hp Hf. apply Hr; [exact Hp | lia].
Qed.



End PatchFacts.

(** ** The tree patcher *)

(** C5, as the code has it.  For every document, path string and new
    value, and however the call ends, no object that the document reaches is
    changed: the document is afterwards what it was.  When the path string
    is not empty and the new value shares no object with the document, what
    the call returns reaches no object of the document.  The heap holds the
    objects of the caller, not the built-in prototypes: a walk that reads a
    property that objects inherit ends [Unsupported], and has no result of
    which the second part would speak. *)
Theorem updateJsonAtPath_frame jsonObj path newValue (h h' : heap) c :
  updateJsonAtPath jsonObj path newValue h = (h', c) ->
  (forall l, reachable h jsonObj l -> h' !! l = h !! l)
  /\ (path <> EmptyString ->
      (forall l, reachable h jsonObj l -> ~ reachable h newValue l) ->
      forall r l, c = Normal r -> reachable h' r l -> ~ reachable h jsonObj l).
Proof.
  intros E. split.
  - intros l Hl.
    assert (Hp : h `prefix_of` h').
    { destruct (String.eqb_spec path EmptyString) as [-> | Hpath].
      - cbn in E. injection E as <- _. reflexivity.
      - now destruct (updateJsonAtPath_patched _ _ _ _ _ _ E Hpath) as [[Hp _] _]. }
    apply reachable_in_heap, lookup_lt_is_Some_2 in Hl as [o Ho].
    rewrite Ho. eapply prefix_lookup_Some; eauto.
  - intros Hpath Hsep r l -> Hreach Hdoc.
    destruct (updateJsonAtPath_patched _ _ _ _ _ _ E Hpath) as [Hp Hr].
    specialize (Hr r eq_refl).
    destruct (reachable_patched _ _ _ _ _ Hp Hreach) as [Hl | [Hnew | Hold]].
    + apply reachable_in_heap in Hdoc. lia.
    + exact (Hsep l Hdoc Hnew).
    + destruct (reachable_root _ _ _ Hold) as (l0 & -> & Hl0). cbn in Hr. lia.
Qed.

Lemma updateJsonAtPath_frame_witness :
  let h := [Obj [("b", VNumber 1)]; Obj [("a", VObject 0)]; Obj [("n", VNumber 2)]] in
  let path := jsonPathToString (Some [Key "a"; Key "b"]) in
  let out := updateJsonAtPath (VObject 1) path (VObject 2) h in
  out.2 = Normal (VObject 4)
  /\ path <> EmptyString
  /\ (forall l, reachable h (VObject 1) l -> ~ reachable h (VObject 2) l)
  /\ (forall l, reachable h (VObject 1) l -> out.1 !! l = h !! l)
  /\ (forall r l, out.2 = Normal r -> reachable out.1 r l -> ~ reachable h (VObject 1) l).
Proof.
  intros h path out.
  assert (Hpath : path <> EmptyString) by discriminate.
  assert (Hsep : forall l, reachable h (VObject 1) l -> ~ reachable h (VObject 2) l).
  { intros l Hdoc Hnew.
    assert (l = 2) as ->.
    { inversion Hnew as [? o Ho | ? o v l' Ho Hin Hr]; subst; [reflexivity |].
      cbn in Ho. injection Ho as <-. cbn in Hin. destruct Hin as [<- | []].
      inversion Hr. }
    inversion Hdoc as [? o Ho | ? o v l' Ho Hin Hr]; subst.
    cbn in Ho. injection Ho as <-. cbn in Hin. destruct Hin as [<- | []].
    inversion Hr as [? o Ho | ? o v l' Ho Hin Hr']; subst.
    cbn in Ho. injection Ho as <-. cbn in Hin. destruct Hin as [<- | []].
    inversion Hr'. }
  split; [reflexivity |]. split; [exact Hpath |]. split; [exact Hsep |].
  destruct (updateJsonAtPath_frame (VObject 1) path (VObject 2) h out.1 out.2
              (surjective_pairing out)) as [Hkeep Hfresh].
  split; [exact Hkeep | exact (Hfresh Hpath Hsep)].
Defined.

(** C5 as stated fails.  With the empty path string the patcher returns the
    document itself; and a new value that is an object of the document is
    stored as it is, so that the result reaches it. *)
Lemma updateJsonAtPath_shares :
  (let h := [Obj [("a", VNumber 1)]] in
   updateJsonAtPath (VObject 0) EmptyString (VNumber 2) h = (h, Normal (VObject 0))
   /\ reachable h (VObject 0) 0)
  /\ (let h := [Obj [("a", VNumber 1)]] in
      let h' := [Obj [("a", VNumber 1)]; Obj [("a", VObject 0)]] in
      updateJsonAtPath (VObject 0) (jsonPathToString (Some [Key "a"])) (VObject 0) h
      = (h', Normal (VObject 1))
      /\ reachable h' (VObject 1) 0 /\ reachable h (VObject 0) 0).
Proof.
  split; [split; [reflexivity | now eapply reach_here] |].
  split; [reflexivity |]. split.
  - eapply reach_step; [reflexivity | now left |]. now eapply reach_here.
  - now eapply reach_here.
Qed.



(** C2 fails on the code: the path string of the root is not empty, it is
    read as the key [$], and the patch stores the new value under that key.
    On an empty document and the new value 1 the result has one member. *)
Theorem root_path_stores_under_dollar members new :
  normal (JObject members) = JObject members ->
  patch (JObject members) (jsonPathToString (Some [])) new
  = Normal (Some (JObject (define_prop "$" (normal new) members))).
Proof.
  intros Hn. change (jsonPathToString (Some [])) with "$".
  destruct (from_json (JObject members) []) as [h1 d] eqn:E1.
  destruct (from_json new h1) as [h2 v] eqn:E2.
  destruct (from_json (normal (JObject members)) h2) as [h3 c] eqn:E3.
  rewrite (patch_run _ "$" _ [Key "$"] _ _ _ _ _ _ eq_refl eq_refl E1 E2 E3).
  destruct (from_json_reads _ _ _ _ E2) as (P2 & L2 & R2).
  rewrite Hn in E3.
  destruct (from_json_object _ _ _ _ E3) as (g & kvs & -> & -> & Pg & Lg & HF).
  pose proof (prefix_length _ _ Pg) as Lg2.
  set (ps := build_props kvs) in *.
  assert (HW : Forall2 (same_keys (written g)) ps members).
  { apply parsed_members_written; [exact Hn | lia | exact HF]. }
  assert (Hroot : (g ++ [Obj ps]) !! length g = Some (Obj ps)).
  { now apply list_lookup_middle. }
  cbn [removelast last_segment List.last descend].
  unfold bind at 1, ret at 1.
  unfold bind at 1, assign, set_property, on_object. cbn [property_key].
  rewrite (put_prop _ _ _ "$" v Hroot) by reflexivity.
  set (h5 := <[length g := Obj (define_prop "$" v ps)]> (g ++ [Obj ps])).
  unfold stringify. cbn [snd].
  assert (Hlen5 : length h5 = S (length g)).
  { unfold h5. rewrite length_insert, length_app. cbn. lia. }
  assert (P5 : g `prefix_of` h5).
  { unfold h5. apply prefix_insert; [| lia]. now apply prefix_app_r. }
  assert (Hroot5 : h5 !! length g = Some (Obj (define_prop "$" v ps))).
  { unfold h5. apply list_lookup_insert_eq. rewrite length_app. cbn. lia. }
  rewrite Hlen5.
  apply (to_json_object h5 _ _ _ (length g) Hroot5).
  apply define_prop_same_keys.
  - apply (R2 h5 (length g)); [now transitivity g | lia].
  - eapply Forall2_impl; [exact HW |].
    intros [k x] [k' j] [Hk Hx]. split; [exact Hk |]. cbn in Hx |- *.
    apply (Hx h5 (length g)); [exact P5 | lia].
Qed.

Lemma root_path_stores_under_dollar_witness :
  normal (JObject []) = JObject []
  /\ jsonPathToString (Some []) = "$"
  /\ patch (JObject []) "$" (JNumber 1) = Normal (Some (JObject [("$", JNumber 1)]))
  /\ patch (JObject []) "$" (JNumber 1) <> Normal (Some (JObject [])).
Proof.
  assert (H : patch (JObject []) "$" (JNumber 1)
              = Normal (Some (JObject [("$", JNumber 1)]))).
  { exact (root_path_stores_under_dollar [] (JNumber 1) eq_refl). }
  split; [reflexivity |]. split; [reflexivity |]. split; [exact H |].
  rewrite H. discriminate.
Defined.

(** ** The node normaliser *)

Section NormalizerFacts.

Lemma key_truthy_without_empty_key row :
  key_truthy (without_empty_key row) = key_truthy row.
Proof.
  unfold without_empty_key, key_truthy. destruct (row_key row) as [k|] eqn:E; cbn.
  - destruct (String.eqb k EmptyString) eqn:Ek; cbn; rewrite ?E; cbn; now rewrite ?Ek.
  - now rewrite E.
Qed.

Lemma row_value_without_empty_key row :
  row_value (without_empty_key row) = row_value row.
Proof.
  unfold without_empty_key. destruct (row_key row) as [k|]; [| reflexivity].
  now destruct (String.eqb k EmptyString).
Qed.

Lemma without_empty_key_truthy row :
  key_truthy row = true -> without_empty_key row = row.
Proof.
  unfold without_empty_key, key_truthy. destruct (row_key row) as [k|]; [| discriminate].
  cbn. now destruct (String.eqb k EmptyString).
Qed.

Lemma reduce_map {A B} (F : B -> A -> JS B) (g : A -> A) l :
  (forall acc x, F acc (g x) = F acc x) ->
  forall acc h, reduce F (map g l) acc h = reduce F l acc h.
Proof.
  intros HF. induction l as [|x l IH]; intros acc h; [reflexivity |].
  cbn. unfold bind. rewrite HF.
  destruct (F acc x h) as [h' [acc'| e |]]; [apply IH | reflexivity ..].
Qed.

(** The normaliser takes a row with an empty key as it takes the row
    without its key. *)
Lemma normalize_without_empty_key rows h :
  normalizeNodeData rows h = normalizeNodeData (map without_empty_key rows) h.
Proof.
  destruct rows as [|row rest]; [reflexivity |].
  unfold normalizeNodeData. cbn [map length].
  rewrite length_map, key_truthy_without_empty_key, row_value_without_empty_key.
  destruct ((S (length rest) =? 1)%nat && negb (key_truthy row)); [reflexivity |].
  unfold bind at 1 3. unfold alloc at 1 2.
  change (without_empty_key row :: map without_empty_key rest)
    with (map without_empty_key (row :: rest)).
  unfold bind. rewrite reduce_map; [reflexivity |].
  intros acc x. rewrite key_truthy_without_empty_key, row_value_without_empty_key.
  destruct (key_truthy x) eqn:Ex; [| reflexivity].
  now rewrite (without_empty_key_truthy _ Ex).
Qed.

Lemma to_json_scalar fuel (h : heap) v :
  typeof_object v = false -> to_json fuel h v = Normal (scalar_json v).
Proof. destruct v, fuel; cbn; intros H; try reflexivity; discriminate. Qed.

Lemma omap_id_map {A B} (f : A -> option B) (l : list A) : omap id (map f l) = omap f l.
Proof.
  induction l as [|x l IH]; [reflexivity |]. cbn. rewrite IH. reflexivity.
Qed.

Lemma cmapM_total {A B} (F : A -> completion B) (G : A -> B) (Q : A -> Prop) l :
  (forall x, Q x -> F x = Normal (G x)) -> Forall Q l -> cmapM F l = Normal (map G l).
Proof.
  intros HF. induction 1 as [|x l Hx _ IH]; [reflexivity |].
  cbn. rewrite (HF _ Hx). cbn. now rewrite IH.
Qed.

(** Writing out an object all of whose values are not objects. *)
Lemma to_json_compact (h : heap) l ps fuel :
  h !! l = Some (Obj ps) ->
  Forall (fun v => typeof_object v = false) (map snd ps) ->
  to_json (S fuel) h (VObject l) = Normal (Some (JObject (members_of ps))).
Proof.
  intros Hl Hps. cbn. rewrite Hl.
  rewrite (cmapM_total _ (fun kv : string * value => pair kv.1 <$> scalar_json kv.2)
             (fun kv => typeof_object kv.2 = false)).
  - cbn. unfold members_of. now rewrite omap_id_map.
  - intros [k v] Hv. cbn in Hv |- *. now rewrite (to_json_scalar _ _ _ Hv).
  - rewrite List.Forall_map in Hps. exact Hps.
Qed.

Lemma lookup_replace_other {V} k k' (v : V) ps :
  k <> k' -> lookup_prop k' (replace_prop k v ps) = lookup_prop k' ps.
Proof.
  intros Hne. induction ps as [|[k0 v0] ps IH]; [reflexivity |]. cbn.
  destruct (String.eqb_spec k0 k) as [->|]; cbn.
  - destruct (String.eqb_spec k k'); [contradiction | reflexivity].
  - destruct (String.eqb k0 k'); [reflexivity | exact IH].
Qed.

Lemma lookup_insert_index_other {V} n k k' (v : V) ps :
  k <> k' -> lookup_prop k' (insert_index n k v ps) = lookup_prop k' ps.
Proof.
  intros Hne. assert (Hk : String.eqb k k' = false) by now apply String.eqb_neq.
  induction ps as [|[k0 v0] ps IH]; cbn; [now rewrite Hk |].
  destruct (array_index k0) as [n0|]; [destruct (n0 <? n)%N |]; cbn; rewrite ?Hk;
    try reflexivity.
  destruct (String.eqb k0 k'); [reflexivity | exact IH].
Qed.

Lemma lookup_app_other {V} k k' (v : V) ps :
  k <> k' -> lookup_prop k' (ps ++ [(k, v)]) = lookup_prop k' ps.
Proof.
  intros Hne. assert (Hk : String.eqb k k' = false) by now apply String.eqb_neq.
  induction ps as [|[k0 v0] ps IH]; cbn; [now rewrite Hk |].
  destruct (String.eqb k0 k'); [reflexivity | exact IH].
Qed.

(** Writing the key [k] leaves every other key as it was. *)
Lemma lookup_define_other {V} k k' (v : V) ps :
  k <> k' -> lookup_prop k' (define_prop k v ps) = lookup_prop k' ps.
Proof.
  intros Hne. unfold define_prop. destruct (lookup_prop k ps).
  - now apply lookup_replace_other.
  - destruct (array_index k);
      [now apply lookup_insert_index_other | now apply lookup_app_other].
Qed.

Lemma kept_key_nonempty row : kept row = true -> key_string row <> EmptyString.
Proof.
  unfold kept, key_truthy, key_string. destruct (row_key row) as [k|]; [| discriminate].
  cbn. intros H. apply andb_true_iff in H as [H _]. apply negb_true_iff in H.
  now apply String.eqb_neq.
Qed.

(** The object that the reduction builds has no property of the empty key,
    none of the key [__proto__], and no value that is an object. *)
Lemma compact_invariant rows :
  lookup_prop EmptyString (compact rows) = None
  /\ lookup_prop proto_key (compact rows) = None
  /\ Forall (fun v => typeof_object v = false) (map snd (compact rows)).
Proof.
  unfold compact.
  assert (G : forall acc,
    lookup_prop EmptyString acc = None /\ lookup_prop proto_key acc = None
    /\ Forall (fun v => typeof_object v = false) (map snd acc) ->
    let r := fold_left (fun acc row =>
               if kept row && negb (String.eqb (key_string row) proto_key)
               then define_prop (key_string row) (row_value row) acc else acc) rows acc in
    lookup_prop EmptyString r = None /\ lookup_prop proto_key r = None
    /\ Forall (fun v => typeof_object v = false) (map snd r)).
  { induction rows as [|row rows IH]; intros acc Hacc; [exact Hacc |].
    cbn. apply IH. destruct Hacc as (He & Hp & Hv).
    destruct (kept row) eqn:Hk; [| now repeat split].
    destruct (String.eqb_spec (key_string row) proto_key) as [|Hne]; cbn;
      [now repeat split |].
    repeat split.
    - rewrite lookup_define_other; [exact He | now apply kept_key_nonempty].
    - rewrite lookup_define_other; [exact Hp | exact Hne].
    - apply define_prop_values; [| exact Hv].
      unfold kept in Hk. apply andb_true_iff in Hk as [_ Hk]. now apply negb_true_iff. }
  apply (G []). repeat split; constructor.
Qed.


Lemma proto_setter_scalar v : typeof_object v = false -> proto_setter v = Normal tt.
Proof. destruct v; cbn; intros H; try reflexivity; discriminate. Qed.

Lemma insert_last (h0 : heap) o o' : <[length h0 := o']> (h0 ++ [o]) = h0 ++ [o'].
Proof. rewrite insert_app_r_alt by lia. now rewrite Nat.sub_diag. Qed.

(** The reduction of the normaliser, on the object it was given: the
    properties of that object become those that [compact] computes. *)
Lemma reduce_compact rows : forall ps (h0 : heap),
  lookup_prop proto_key ps = None ->
  reduce (fun acc row =>
            if key_truthy row && negb (typeof_object (row_value row))
            then (set_property acc (key_string row) (row_value row) ;;; ret acc)%js
            else ret acc)
         rows (VObject (length h0)) (h0 ++ [Obj ps])
  = (h0 ++ [Obj (fold_left
                   (fun acc row =>
                      if kept row && negb (String.eqb (key_string row) proto_key)
                      then define_prop (key_string row) (row_value row) acc
                      else acc) rows ps)],
     Normal (VObject (length h0))).
Proof.
  induction rows as [|row rows IH]; intros ps h0 Hp; [reflexivity |].
  cbn [reduce fold_left]. unfold bind at 1. fold (kept row).
  assert (Hcell : (h0 ++ [Obj ps]) !! length h0 = Some (Obj ps))
    by now apply list_lookup_middle.
  destruct (kept row) eqn:Hk; cbn [andb].
  - unfold bind at 1, set_property, on_object, put. rewrite Hcell.
    destruct (String.eqb_spec (key_string row) proto_key) as [Heq|Hne]; cbn [andb negb].
    + rewrite Heq, Hp. cbn [is_Some_bool negb].
      rewrite proto_setter_scalar.
      * unfold ret at 1. apply IH, Hp.
      * unfold kept in Hk. apply andb_true_iff in Hk as [_ Hk]. now apply negb_true_iff.
    + rewrite insert_last. unfold ret at 1. apply IH.
      now rewrite lookup_define_other.
  - unfold ret at 1. apply IH, Hp.
Qed.

(** What the normaliser returns when it builds an object. *)
Lemma normalize_compact row rest (h : heap) :
  (length (row :: rest) =? 1)%nat && negb (key_truthy row) = false ->
  (normalizeNodeData (row :: rest) h).2
  = Normal (Some (Text.pretty EmptyString (JObject (members_of (compact (row :: rest)))))).
Proof.
  intros Hbare. unfold normalizeNodeData. rewrite Hbare.
  unfold bind at 1, alloc. unfold bind at 1.
  rewrite (reduce_compact (row :: rest) [] h eq_refl).
  fold (compact (row :: rest)).
  unfold stringify_pretty, bind, stringify.
  rewrite length_app. cbn [length]. rewrite Nat.add_1_r.
  rewrite (to_json_compact _ (length h) (compact (row :: rest))).
  - reflexivity.
  - now apply list_lookup_middle.
  - apply compact_invariant.
Qed.

Lemma lookup_members_of k ps :
  lookup_prop k ps = None -> lookup_prop k (members_of ps) = None.
Proof.
  unfold members_of. induction ps as [|[k0 v0] ps IH]; [reflexivity |]. cbn.
  destruct (String.eqb k0 k) eqn:E; [discriminate |]. intros H.
  destruct (scalar_json v0); cbn; [rewrite E |]; auto.
Qed.

End NormalizerFacts.

(** C10: the normaliser takes an empty key as an absent one.  A row with
    the empty key is treated as the same row without a key; alone, it gives
    the text of its value; among two rows or more, the object that is
    written out has no member of the empty key. *)
Theorem normalize_empty_key :
  (forall rows h,
     normalizeNodeData rows h = normalizeNodeData (map without_empty_key rows) h)
  /\ (forall v t h,
        normalizeNodeData
          [{| row_key := Some EmptyString; row_value := v; row_type := t |}] h
        = stringify_pretty v h)
  /\ (forall r1 r2 rows h,
        (normalizeNodeData (r1 :: r2 :: rows) h).2
        = Normal (Some (Text.pretty EmptyString
                          (JObject (members_of (compact (r1 :: r2 :: rows))))))
        /\ lookup_prop EmptyString (members_of (compact (r1 :: r2 :: rows))) = None).
Proof.
  split; [exact normalize_without_empty_key |]. split; [reflexivity |].
  intros r1 r2 rows h. split.
  - now apply normalize_compact.
  - apply lookup_members_of, compact_invariant.
Qed.

(** C4 fails on the code: a row whose value is [null] is left out, because
    [typeof null] is [object].  Two rows, the first with the value [null],
    give the object of the second row alone; one keyed row with the value
    [null] gives the empty object.  The example of the specification, where
    the second value is an object, gives the first row alone. *)
Theorem normalize_skips_null :
  let row k v := {| row_key := Some k; row_value := v; row_type := "default" |} in
  (normalizeNodeData [row "a" VNull; row "b" (VNumber 1)] []).2
  = Normal (Some (Text.pretty EmptyString (JObject [("b", JNumber 1)])))
  /\ (normalizeNodeData [row "a" VNull] []).2 = Normal (Some "{}")
  /\ (normalizeNodeData [row "a" (VNumber 1); row "b" (VObject 0)]
        [Obj [("nested", VBool true)]]).2
     = Normal (Some (Text.pretty EmptyString (JObject [("a", JNumber 1)])))
  /\ Text.pretty EmptyString (JObject [("a", JNumber 1)])
     = "{" +:+ Text.nl +:+ "  " +:+ quoted "a" +:+ ": 1" +:+ Text.nl +:+ "}".
Proof. repeat split; reflexivity. Qed.

(** ** The Save handler *)

Section SaveFacts.

(** A branch of the handler that ends with the report of a failure, or
    outside of the model, is not a Save that ended well. *)
Ltac not_a_success E Hlast :=
  first
    [ discriminate E
    | unfold toast_error in E; injection E as <-;
      cbn [calls call with_heap] in Hlast; rewrite last_snoc in Hlast;
      discriminate Hlast ].

(** A Save that ends well went through every step of the handler. *)
Lemma handleSave_success w w' m :
  handleSave w = (w', Normal tt) ->
  last (calls w') = Some (ToastSuccess m) ->
  exists j (h1 : heap) P doc (h2 : heap) D (h3 : heap) U text selected,
    Parser.text (editedContent w) = Normal j
    /\ from_json j (w_heap w) = (h1, P)
    /\ Parser.text (fullJson w) = Normal doc
    /\ from_json doc h1 = (h2, D)
    /\ updateJsonAtPath D (jsonPathToString (selectedNode w ≫= node_path)) P h2
       = (h3, Normal U)
    /\ stringify_pretty U h3 = (h3, Normal text)
    /\ update_selected P (selectedNode w) h3 = (h3, Normal selected)
    /\ w' = {| w_heap := h3; isEditing := false; editedContent := editedContent w;
               selectedNode := selected; fullJson := fullJson w; contents := text;
               calls := calls w ++ [SetContents text; SetGraphState;
                                    ToastSuccess updated_json] |}.
Proof.
  intros E Hlast. unfold handleSave, try_catch in E.
  unfold ui_bind at 1 in E. unfold lift at 1, JSON_parse at 1 in E.
  destruct (Parser.text (editedContent w)) as [j| e |] eqn:Ej; cbn [w_heap with_heap] in E.
  2, 3: not_a_success E Hlast.
  unfold parse at 1 in E.
  destruct (from_json j (w_heap w)) as [h1 P] eqn:E1.
  unfold ui_bind at 1 in E. unfold lift at 1, JSON_parse at 1 in E.
  cbn [w_heap with_heap fullJson] in E.
  destruct (Parser.text (fullJson w)) as [doc| e |] eqn:Ed.
  2, 3: not_a_success E Hlast.
  unfold parse at 1 in E.
  destruct (from_json doc h1) as [h2 D] eqn:E2.
  unfold ui_bind at 1 in E. unfold lift at 1 in E. cbn [w_heap with_heap] in E.
  destruct (updateJsonAtPath D (jsonPathToString (selectedNode w ≫= node_path)) P h2)
    as [h3 [U| e |]] eqn:E3.
  2, 3: not_a_success E Hlast.
  unfold ui_bind at 1 in E. unfold lift at 1 in E. cbn [w_heap with_heap] in E.
  destruct (stringify_pretty U h3) as [h4 [text| e |]] eqn:E4.
  2, 3: not_a_success E Hlast.
  assert (h4 = h3) as ->.
  { unfold stringify_pretty, bind, stringify in E4.
    destruct (to_json (length h3) h3 U); now injection E4. }
  unfold ui_bind at 1 in E. unfold setContents at 1 in E.
  unfold ui_bind at 1 in E. unfold setState at 1 in E.
  cbn [w_heap with_heap call selectedNode] in E.
  destruct (update_selected P (selectedNode w) h3) as [h5 [selected| e |]] eqn:E5.
  2, 3: not_a_success E Hlast.
  assert (h5 = h3) as ->.
  { unfold update_selected in E5. destruct (selectedNode w) as [node|];
      [| now injection E5].
    unfold bind, Object_entries in E5.
    destruct P as [| | b | z | s | l]; try (now injection E5).
    destruct (h3 !! l) as [[ps|es ps]|]; try (now injection E5).
    destruct (existsb is_undefined es); now injection E5. }
  unfold ui_bind, toast_success, setIsEditing in E.
  cbn [w_heap with_heap call isEditing editedContent selectedNode fullJson contents calls] in E.
  injection E as <-.
  exists j, h1, P, doc, h2, D, h3, U, text, selected.
  repeat split; try assumption.
  unfold updated_json. now rewrite <- !app_assoc.
Qed.


(** A buffer that is no JSON text: one call, the report of the failure; the
    component state and the stores are as they were. *)
Lemma handleSave_malformed w e :
  Parser.text (editedContent w) = Throw e ->
  handleSave w = (call (ToastError invalid_json) (with_heap (w_heap w) w), Normal tt).
Proof.
  intros H. unfold handleSave, try_catch, ui_bind, lift, JSON_parse. now rewrite H.
Qed.


End SaveFacts.

(** C8: after a Save that ends well, with a node selected, the rows of the
    node are the entries of the parsed value, one row for each entry and in
    their order, each with the type [default].  When the buffer is the text
    of an object, in normal form, the rows are the members of that text:
    the keys are the same and the value of each row is written out as the
    value of the member, be it a scalar or structured. *)
Theorem save_rebuilds_rows w w' node m :
  selectedNode w = Some node ->
  handleSave w = (w', Normal tt) ->
  last (calls w') = Some (ToastSuccess m) ->
  exists j (h1 : heap) P entries,
    Parser.text (editedContent w) = Normal j
    /\ from_json j (w_heap w) = (h1, P)
    /\ Object_entries P (w_heap w') = (w_heap w', Normal entries)
    /\ node_text <$> selectedNode w' = Some (map entry_row entries)
    /\ (forall members, j = JObject members -> normal j = j ->
          Forall2 (fun row (kj : string * json) =>
                     row_key row = Some kj.1 /\ row_type row = "default"
                     /\ to_json (length (w_heap w')) (w_heap w') (row_value row)
                        = Normal (Some kj.2))
                  (map entry_row entries) members).
Proof.
  intros Hsel E Hlast.
  destruct (handleSave_success _ _ _ E Hlast)
    as (j & h1 & P & doc & h2 & D & h3 & U & text & selected
        & Ej & E1 & Ed & E2 & E3 & E4 & E5 & ->).
  rewrite Hsel in E5. unfold update_selected, bind in E5.
  destruct (Object_entries P h3) as [h' [entries| e |]] eqn:E6; try discriminate.
  unfold ret in E5. injection E5 as -> <-.
  exists j, h1, P, entries. cbn [w_heap selectedNode fmap option_fmap option_map node_text].
  repeat split; try assumption.
  intros members -> Hn.
  destruct (from_json_object _ _ _ _ E1) as (g & kvs & -> & -> & Pg & Lg & HF).
  destruct (from_json_reads _ _ _ _ E2) as (P2 & _ & _).
  assert (Hpath : jsonPathToString (selectedNode w ≫= node_path) <> EmptyString).
  { intros H. pose proof (jsonPathToString_nonempty (selectedNode w ≫= node_path)) as H'.
    rewrite H in H'. discriminate. }
  destruct (updateJsonAtPath_patched _ _ _ _ _ _ E3 Hpath) as [[P3 _] _].
  assert (Pall : g `prefix_of` h3).
  { transitivity (g ++ [Obj (build_props kvs)]); [now apply prefix_app_r |].
    now transitivity h2. }
  assert (Hcell : h3 !! length g = Some (Obj (build_props kvs))).
  { eapply prefix_lookup_Some; [| transitivity h2; eassumption].
    now apply list_lookup_middle. }
  unfold Object_entries in E6. rewrite Hcell in E6. injection E6 as <-.
  assert (HW : Forall2 (same_keys (written g)) (build_props kvs) members).
  { apply parsed_members_written; [exact Hn | lia | exact HF]. }
  apply Forall2_fmap_l. eapply Forall2_impl; [exact HW |].
  intros [k v] [k' j] [Hk Hv]. cbn in Hk, Hv |- *. subst.
  repeat split. apply (Hv h3 (length h3)); [exact Pall | now apply prefix_length].
Qed.

Lemma save_rebuilds_rows_witness :
  let buffer :=
    Text.pretty EmptyString
      (JObject [("a", JNumber 1); ("b", JObject [("nested", JBool true)])]) in
  let w := example_world buffer in
  let w' := (handleSave w).1 in
  (exists node, selectedNode w = Some node)
  /\ handleSave w = (w', Normal tt)
  /\ last (calls w') = Some (ToastSuccess updated_json)
  /\ node_text <$> selectedNode w'
     = Some [ {| row_key := Some "a"; row_value := VNumber 1; row_type := "default" |};
              {| row_key := Some "b"; row_value := VObject 0; row_type := "default" |} ]
  /\ exists j (h1 : heap) P entries,
       Parser.text (editedContent w) = Normal j
       /\ from_json j (w_heap w) = (h1, P)
       /\ Object_entries P (w_heap w') = (w_heap w', Normal entries)
       /\ node_text <$> selectedNode w' = Some (map entry_row entries)
       /\ (forall members, j = JObject members -> normal j = j ->
             Forall2 (fun row (kj : string * json) =>
                        row_key row = Some kj.1 /\ row_type row = "default"
                        /\ to_json (length (w_heap w')) (w_heap w') (row_value row)
                           = Normal (Some kj.2))
                     (map entry_row entries) members).
Proof.
  intros buffer w w'.
  split; [eexists; reflexivity |]. split; [reflexivity |].
  split; [reflexivity |]. split; [reflexivity |].
  eapply (save_rebuilds_rows w w' _ updated_json); reflexivity.
Defined.

(** C3 fails on the code.  With the buffer [null], a JSON text, and a node
    selected, Save writes the patched document with [setContents] and then
    throws in [Object.entries]; the handler reports the failure, the graph
    store is not written, and the state remains Editing.  With a buffer that
    is no JSON text, the report is the only call. *)
Theorem save_null_writes_and_fails :
  let w' := (handleSave (example_world "null")).1 in
  let text := Text.pretty EmptyString (JArray [JNull; JNumber 2]) in
  Parser.text "null" = Normal JNull
  /\ calls w' = [SetContents (Some text); ToastError invalid_json]
  /\ contents w' = Some text
  /\ isEditing w' = true
  /\ selectedNode w' = selectedNode (example_world "null")
  /\ calls (handleSave (example_world "{invalid")).1 = [ToastError invalid_json].
Proof. repeat split; reflexivity. Qed.

(** * Further properties *)

Section CodecExtras.
Import Str.

Lemma split2_nonempty a b s : split2 a b s <> [].
Proof.
  induction s as [|c s IH]; [discriminate |].
  cbn [split2]. destruct s as [|c' s'].
  - discriminate.
  - destruct (Ascii.eqb c a && Ascii.eqb c' b); [discriminate |].
    destruct (split2 a b (String c' s')); discriminate.
Qed.

Lemma pathSegments_nonempty path segs : pathSegments path = Some segs -> segs <> [].
Proof.
  unfold pathSegments. intros H ->.
  apply length_mapM in H.
  pose proof (split2_nonempty "]" "[" (strip_brackets path)) as Hne.
  destruct (split2 "]" "[" (strip_brackets path)); [congruence | discriminate].
Qed.

Lemma ltrim_blank s : all_chars is_space s = true -> ltrim s = EmptyString.
Proof.
  induction s as [|c s IH]; [reflexivity |]. cbn.
  intros [Hc Hs]%andb_prop. rewrite Hc. now apply IH.
Qed.

Lemma blank_no_separator a b s :
  is_space a = false -> all_chars is_space s = true -> contains2 a b s = false.
Proof.
  intros Ha. induction s as [|c s IH]; [reflexivity |].
  intros [Hc Hs]%andb_prop. cbn [contains2]. destruct s as [|c' s']; [reflexivity |].
  rewrite (IH Hs), orb_false_r.
  destruct (Ascii.eqb_spec c a) as [->|]; [congruence | reflexivity].
Qed.

Lemma descend_keys p q : map property_key p = map property_key q ->
  forall current h, descend p current h = descend q current h.
Proof.
  revert q. induction p as [|s p IH]; intros [|t q] E; try discriminate; [reflexivity |].
  cbn in E. injection E as E1 E2. intros current h.
  cbn [descend]. unfold bind, step. rewrite E1.
  destruct (on_object current (property_key t) _ h) as [h' [child| e |]]; try reflexivity.
  now apply IH.
Qed.

Lemma map_removelast {A B} (f : A -> B) l : map f (removelast l) = removelast (map f l).
Proof.
  induction l as [|x [|y l] IH]; [reflexivity | reflexivity |].
  change (f x :: map f (removelast (y :: l)) = f x :: removelast (map f (y :: l))).
  now rewrite IH.
Qed.

Lemma last_segment_key p q :
  p <> [] -> map property_key p = map property_key q ->
  property_key (last_segment p) = property_key (last_segment q).
Proof.
  unfold last_segment. revert q.
  induction p as [|s [|s' p] IH]; intros [|t [|t' q]] Hne E; try discriminate;
    try congruence.
  - now injection E.
  - cbn [map] in E. injection E as _ E1 E2.
    assert (E : map property_key (s' :: p) = map property_key (t' :: q))
      by (cbn [map]; congruence).
    change (List.last (s :: s' :: p) (Key "undefined"))
      with (List.last (s' :: p) (Key "undefined")).
    change (List.last (t :: t' :: q) (Key "undefined"))
      with (List.last (t' :: q) (Key "undefined")).
    apply IH; [discriminate | exact E].
Qed.

End CodecExtras.

(** X1: the path string tells the safe paths apart.  Two paths whose
    segments the bracket notation carries unharmed, the empty path included,
    have the same string only when they are the same path. *)
Theorem jsonPathToString_injective (p q : JSONPath) :
  forallb segment_safe p = true -> forallb segment_safe q = true ->
  jsonPathToString (Some p) = jsonPathToString (Some q) -> p = q.
Proof.
  intros Hp Hq E.
  destruct p as [|s p], q as [|t q];
    [reflexivity | cbn in E; discriminate E | cbn in E; discriminate E |].
  assert (H : Some (s :: p) = Some (t :: q)); [| congruence].
  rewrite <- (pathSegments_rendered (s :: p)), <- (pathSegments_rendered (t :: q));
    [now rewrite E | discriminate | exact Hq | discriminate | exact Hp].
Qed.

Lemma jsonPathToString_injective_witness :
  let p := [Key "a"; Index 1] in
  forallb segment_safe p = true
  /\ jsonPathToString (Some p) = jsonPathToString (Some [Key "a"; Index 1])
  /\ p = [Key "a"; Index 1].
Proof.
  intros p. split; [reflexivity |]. split; [reflexivity |].
  exact (jsonPathToString_injective p [Key "a"; Index 1] eq_refl eq_refl eq_refl).
Defined.

(** X2: the path parser never yields an empty list of segments.  Whatever
    the string, there is a final segment, so the patcher always assigns to a
    property and the fallback key of an empty list is never used. *)
Theorem pathSegments_has_last path segs :
  pathSegments path = Some segs ->
  segs = removelast segs ++ [last_segment segs] /\ In (last_segment segs) segs.
Proof.
  intros H. apply pathSegments_nonempty in H.
  unfold last_segment. split.
  - now apply app_removelast_last.
  - rewrite (app_removelast_last (Key "undefined") H) at 2.
    apply in_or_app. right. now left.
Qed.

Lemma pathSegments_has_last_witness :
  pathSegments "$" = Some [Key "$"]
  /\ [Key "$"] = removelast [Key "$"] ++ [last_segment [Key "$"]]
  /\ In (last_segment [Key "$"]) [Key "$"].
Proof.
  split; [reflexivity |].
  exact (pathSegments_has_last "$" [Key "$"] eq_refl).
Defined.

(** X3: a piece between brackets that is empty or blank is the index 0,
    as [Number] reads it: the path string made of one such piece addresses
    the first element. *)
Theorem blank_segment_is_index_zero s :
  Str.all_chars Str.is_space s = true ->
  read_segment s = Some (Index 0)
  /\ pathSegments ("$[" +:+ s +:+ "]") = Some [Index 0].
Proof.
  intros H.
  assert (R : read_segment s = Some (Index 0)).
  { unfold read_segment, Numeral.Number_, Str.trim. now rewrite (ltrim_blank s H). }
  split; [exact R |].
  unfold pathSegments.
  change (strip_brackets ("$[" +:+ s +:+ "]")) with (strip_trailing_bracket (s +:+ "]")).
  rewrite strip_trailing_bracket_snoc.
  rewrite split2_single by (now apply blank_no_separator).
  cbn [mapM]. now rewrite R.
Qed.

Lemma blank_segment_is_index_zero_witness :
  Str.all_chars Str.is_space " " = true
  /\ read_segment " " = Some (Index 0)
  /\ pathSegments "$[ ]" = Some [Index 0].
Proof.
  split; [reflexivity |].
  exact (blank_segment_is_index_zero " " eq_refl).
Defined.

(** X4: the patcher tells an index from a key by nothing but its property
    key.  Two paths whose segments have the same property keys, such as the
    index 0 and the key [0], give the same patch on every document and
    heap. *)
Theorem patcher_reads_property_keys p q jsonObj newValue (h : heap) :
  p <> [] -> forallb segment_safe p = true -> forallb segment_safe q = true ->
  map property_key p = map property_key q ->
  updateJsonAtPath jsonObj (jsonPathToString (Some p)) newValue h
  = updateJsonAtPath jsonObj (jsonPathToString (Some q)) newValue h.
Proof.
  intros Hne Hp Hq E.
  assert (Hne' : q <> []) by (intros ->; destruct p; [congruence | discriminate E]).
  unfold updateJsonAtPath. rewrite !jsonPathToString_nonempty.
  rewrite (pathSegments_rendered p Hne Hp), (pathSegments_rendered q Hne' Hq).
  unfold bind. destruct (clone jsonObj h) as [h1 [c| e |]]; try reflexivity.
  rewrite (descend_keys (removelast p) (removelast q))
    by (rewrite !map_removelast; congruence).
  destruct (descend (removelast q) c h1) as [h2 [current| e |]]; try reflexivity.
  unfold assign. now rewrite (last_segment_key p q Hne E).
Qed.

Lemma patcher_reads_property_keys_witness :
  let p := [Key "items"; Index 0] in
  let q := [Key "items"; Key "0"] in
  let h := [Arr [VNumber 1] []; Obj [("items", VObject 0)]] in
  p <> [] /\ forallb segment_safe p = true /\ forallb segment_safe q = true
  /\ map property_key p = map property_key q
  /\ updateJsonAtPath (VObject 1) (jsonPathToString (Some p)) (VNumber 2) h
     = updateJsonAtPath (VObject 1) (jsonPathToString (Some q)) (VNumber 2) h.
Proof.
  intros p q h. split; [discriminate |]. split; [reflexivity |].
  split; [reflexivity |]. split; [reflexivity |].
  exact (patcher_reads_property_keys p q (VObject 1) (VNumber 2) h
           ltac:(discriminate) eq_refl eq_refl eq_refl).
Defined.

Section PatchExtras.


Lemma array_index_of_N n :
  (n <? 4294967295)%N = true -> array_index (Str.of_N n) = Some n.
Proof.
  intros H. unfold array_index. rewrite decimal_value_of_N, String.eqb_refl, H.
  reflexivity.
Qed.

Lemma lookup_replace_same {V} k (v : V) ps :
  is_Some_bool (lookup_prop k ps) = true -> lookup_prop k (replace_prop k v ps) = Some v.
Proof.
  induction ps as [|[k1 v1] ps IH]; [discriminate |]. cbn.
  destruct (String.eqb_spec k1 k) as [->|Hne]; cbn.
  - now rewrite String.eqb_refl.
  - intros H. destruct (String.eqb_spec k1 k); [contradiction | now apply IH].
Qed.

Lemma lookup_insert_index_same {V} n k (v : V) ps :
  lookup_prop k ps = None -> lookup_prop k (insert_index n k v ps) = Some v.
Proof.
  induction ps as [|[k1 v1] ps IH]; cbn; [now rewrite String.eqb_refl |].
  destruct (String.eqb k1 k) eqn:E1; [discriminate |]. intros H.
  destruct (array_index k1) as [n'|]; [destruct (n' <? n)%N |]; cbn;
    rewrite ?String.eqb_refl, ?E1; auto.
Qed.

Lemma lookup_app_same {V} k (v : V) ps :
  lookup_prop k ps = None -> lookup_prop k (ps ++ [(k, v)]) = Some v.
Proof.
  induction ps as [|[k1 v1] ps IH]; cbn; [now rewrite String.eqb_refl |].
  destruct (String.eqb k1 k); [discriminate | exact IH].
Qed.

Lemma lookup_define_same {V} k (v : V) ps : lookup_prop k (define_prop k v ps) = Some v.
Proof.
  unfold define_prop. destruct (lookup_prop k ps) eqn:E.
  - apply lookup_replace_same. now rewrite E.
  - destruct (array_index k); [now apply lookup_insert_index_same | now apply lookup_app_same].
Qed.

Lemma replace_prop_keys {V} k (v : V) ps :
  is_Some_bool (lookup_prop k ps) = true -> map fst (replace_prop k v ps) = map fst ps.
Proof.
  induction ps as [|[k1 v1] ps IH]; [reflexivity |]. cbn.
  destruct (String.eqb_spec k1 k) as [->|Hne]; cbn; [reflexivity |].
  intros H. now rewrite IH.
Qed.


(** The array that [JSON.parse] makes of the text of an array. *)
Lemma from_json_array items (h h' : heap) v :
  from_json (JArray items) h = (h', v) ->
  exists (g : heap) vs,
    h' = g ++ [Arr vs []] /\ v = VObject (length g)
    /\ h `prefix_of` g
    /\ length h + list_max (map depth items) <= length g
    /\ Forall2 (fun j v => reads_as j v g) items vs.
Proof.
  intros E. cbn in E.
  destruct (thread from_json items h) as [g vs] eqn:E1. injection E as <- <-.
  exists g, vs. split; [reflexivity |]. split; [reflexivity |].
  apply (thread_reads from_json depth reads_as items reads_as_prefix); [| exact E1].
  apply List.Forall_forall. intros j _ g0 g' v' Eg. now apply from_json_reads.
Qed.

Lemma parsed_items_written items (g : heap) vs :
  normal (JArray items) = JArray items ->
  list_max (map depth items) <= length g ->
  Forall2 (fun j v => reads_as j v g) items vs ->
  Forall2 (written g) vs items.
Proof.
  intros Hn Hd HF. cbn in Hn. injection Hn as Hn. rewrite <- Hn.
  clear Hn. revert Hd.
  induction HF as [|j v js vs' Hr _ IH]; intros Hd; [constructor |].
  change (list_max (map depth (j :: js)))
    with (Nat.max (depth j) (list_max (map depth js))) in Hd.
  cbn. constructor; [| apply IH; lia].
  intros h' fuel Hp Hf. apply Hr; [exact Hp | lia].
Qed.

(** Writing out an array whose elements are written out, a hole as [null]. *)
Lemma to_json_array (h : heap) l es ps items fuel :
  h !! l = Some (Arr es ps) ->
  Forall2 (fun v j => cbind (to_json fuel h v) (fun oj => Normal (default JNull oj))
                      = Normal j) es items ->
  to_json (S fuel) h (VObject l) = Normal (Some (JArray items)).
Proof.
  intros Hl HR. cbn. rewrite Hl.
  rewrite (cmapM_Forall2 _ id items es).
  - cbn. now rewrite map_id.
  - now apply Forall2_flip.
Qed.

Lemma set_elem_related (R : value -> json -> Prop) n v j es items :
  Forall2 R es items -> R v j -> R VUndefined JNull ->
  Forall2 R (set_elem n v es) (set_item n j items).
Proof.
  intros HF Hv Hu. unfold set_elem, set_item.
  rewrite <- (Forall2_length _ _ _ HF).
  destruct (n <? length es)%nat.
  - now apply Forall2_insert.
  - apply Forall2_app; [exact HF |]. apply Forall2_app.
    + now apply Forall2_replicate.
    + now constructor.
Qed.

End PatchExtras.

(** X5: a document that is a scalar cannot be patched.  For a document
    that is [null], a number, a string or a boolean, and a path string that
    is not empty, the patch throws a TypeError, whatever the new value; for
    the scalars other than [null], the first segment is not the inherited
    accessor. *)
Theorem patch_scalar_document doc path segs new :
  scalar doc = true ->
  String.eqb path EmptyString = false -> pathSegments path = Some segs ->
  doc = JNull
  \/ String.eqb (property_key (hd (Key EmptyString) segs)) proto_key = false ->
  patch doc path new = Throw TypeError.
Proof.
  intros Hs Hpath Hsegs Hkey.
  destruct (from_json new []) as [h2 v] eqn:E2.
  pose proof (pathSegments_nonempty _ _ Hsegs) as Hne.
  assert (Hrun : exists c, patch doc path new
            = ((current <- descend (removelast segs) c ;;
                assign current (last_segment segs) v ;;; stringify c)%js h2).2
            /\ forall A (f : loc -> JS A) g,
                 on_object c (property_key (hd (Key EmptyString) segs)) f g
                 = (g, Throw TypeError)).
  { destruct doc as [| b | z | s | |]; try discriminate Hs.
    - exists VNull. split; [| reflexivity].
      exact (patch_run JNull path new segs [] h2 h2 VNull v VNull Hpath Hsegs eq_refl E2 eq_refl).
    - exists (VBool b). split.
      + exact (patch_run (JBool b) path new segs [] h2 h2 (VBool b) v (VBool b) Hpath Hsegs eq_refl E2 eq_refl).
      + intros A f g. destruct Hkey as [Hd | Hk]; [discriminate Hd |].
        unfold on_object. now rewrite Hk.
    - exists (VNumber z). split.
      + exact (patch_run (JNumber z) path new segs [] h2 h2 (VNumber z) v (VNumber z) Hpath Hsegs eq_refl E2 eq_refl).
      + intros A f g. destruct Hkey as [Hd | Hk]; [discriminate Hd |].
        unfold on_object. now rewrite Hk.
    - exists (VString s). split.
      + exact (patch_run (JString s) path new segs [] h2 h2 (VString s) v (VString s) Hpath Hsegs eq_refl E2 eq_refl).
      + intros A f g. destruct Hkey as [Hd | Hk]; [discriminate Hd |].
        unfold on_object. now rewrite Hk. }
  destruct Hrun as (c & -> & Hthrow).
  destruct segs as [|s [|s' rest]]; [congruence | |].
  - cbn [removelast descend last_segment List.last].
    unfold bind at 1, ret at 1. unfold bind, assign, set_property.
    cbn [hd] in Hthrow. now rewrite Hthrow.
  - change (removelast (s :: s' :: rest)) with (s :: removelast (s' :: rest)).
    cbn [descend]. unfold bind at 1. unfold bind at 1, step.
    cbn [hd] in Hthrow. now rewrite Hthrow.
Qed.

Lemma patch_scalar_document_witness :
  scalar JNull = true
  /\ String.eqb "$" EmptyString = false /\ pathSegments "$" = Some [Key "$"]
  /\ patch JNull "$" (JNumber 1) = Throw TypeError.
Proof.
  split; [reflexivity |]. split; [reflexivity |]. split; [reflexivity |].
  exact (patch_scalar_document JNull "$" [Key "$"] (JNumber 1)
           eq_refl eq_refl eq_refl (or_introl eq_refl)).
Defined.



Section PatchMember.


End PatchMember.





(** X9: a path of one index sets that element of an array document.  An
    index within the array replaces the element; an index past the end makes
    the array longer, and the elements between the old end and the new
    element are written [null]. *)
Theorem patch_sets_array_element items n new :
  normal (JArray items) = JArray items ->
  (n <? 4294967295)%N = true ->
  patch (JArray items) (jsonPathToString (Some [Index n])) new
  = Normal (Some (JArray (set_item (N.to_nat n) (normal new) items))).
Proof.
  intros Hn Hidx.
  destruct (from_json (JArray items) []) as [h1 d] eqn:E1.
  destruct (from_json new h1) as [h2 v] eqn:E2.
  destruct (from_json (normal (JArray items)) h2) as [h3 c] eqn:E3.
  assert (Hsafe : segment_safe (Index n) = true).
  { cbn. apply N.ltb_lt. apply N.ltb_lt in Hidx. unfold Numeral.exact_bound. lia. }
  assert (Hsegs : pathSegments (jsonPathToString (Some [Index n])) = Some [Index n]).
  { apply pathSegments_rendered; [discriminate | cbn [forallb]; now rewrite Hsafe]. }
  rewrite (patch_run _ _ _ _ _ _ _ _ _ _ (jsonPathToString_nonempty _) Hsegs E1 E2 E3).
  destruct (from_json_reads _ _ _ _ E2) as (P2 & L2 & R2).
  rewrite Hn in E3.
  destruct (from_json_array _ _ _ _ E3) as (g & vs & -> & -> & Pg & Lg & HF).
  pose proof (prefix_length _ _ Pg) as Lg2.
  assert (HW : Forall2 (written g) vs items).
  { apply parsed_items_written; [exact Hn | lia | exact HF]. }
  assert (Hroot : (g ++ [Arr vs []]) !! length g = Some (Arr vs [])).
  { now apply list_lookup_middle. }
  cbn [removelast last_segment List.last descend].
  unfold bind at 1, ret at 1.
  unfold bind at 1, assign, set_property, on_object. cbn [property_key].
  unfold put. rewrite Hroot, (array_index_of_N n Hidx).
  set (h5 := <[length g := Arr (set_elem (N.to_nat n) v vs) []]> (g ++ [Arr vs []])).
  unfold stringify. cbn [snd].
  assert (Hlen5 : length h5 = S (length g)).
  { unfold h5. rewrite length_insert, length_app. cbn. lia. }
  assert (P5 : g `prefix_of` h5).
  { unfold h5. apply prefix_insert; [| lia]. now apply prefix_app_r. }
  assert (Hroot5 : h5 !! length g = Some (Arr (set_elem (N.to_nat n) v vs) [])).
  { unfold h5. apply list_lookup_insert_eq. rewrite length_app. cbn. lia. }
  rewrite Hlen5.
  apply (to_json_array h5 _ _ _ _ (length g) Hroot5).
  apply set_elem_related.
  - eapply Forall2_impl; [exact HW |].
    intros x j Hx. now rewrite (Hx h5 (length g) P5) by lia.
  - now rewrite (R2 h5 (length g)) by (try (now transitivity g); lia).
  - destruct (length g); reflexivity.
Qed.

Lemma patch_sets_array_element_witness :
  let items := [JNumber 1; JNumber 2] in
  normal (JArray items) = JArray items
  /\ (1 <? 4294967295)%N = true /\ (4 <? 4294967295)%N = true
  /\ patch (JArray items) (jsonPathToString (Some [Index 1])) (JString "x")
     = Normal (Some (JArray [JNumber 1; JString "x"]))
  /\ patch (JArray items) (jsonPathToString (Some [Index 4])) (JString "x")
     = Normal (Some (JArray [JNumber 1; JNumber 2; JNull; JNull; JString "x"])).
Proof.
  intros items. do 3 (split; [reflexivity |]). split.
  - exact (patch_sets_array_element items 1 (JString "x") eq_refl eq_refl).
  - exact (patch_sets_array_element items 4 (JString "x") eq_refl eq_refl).
Defined.

Section NormalizerExtras.

Lemma normalize_object rows (h : heap) :
  match rows with
  | [] => False
  | row :: rest => (length rows =? 1)%nat && negb (key_truthy row) = false
  end ->
  normalizeNodeData rows h
  = (h ++ [Obj (compact rows)],
     Normal (Some (Text.pretty EmptyString (JObject (members_of (compact rows)))))).
Proof.
  destruct rows as [|row rest]; [contradiction |].
  intros Hbare. unfold normalizeNodeData. rewrite Hbare.
  unfold bind at 1, alloc. unfold bind at 1.
  rewrite (reduce_compact (row :: rest) [] h eq_refl).
  fold (compact (row :: rest)).
  unfold stringify_pretty, bind, stringify.
  rewrite length_app. cbn [length]. rewrite Nat.add_1_r.
  rewrite (to_json_compact _ (length h) (compact (row :: rest))).
  - reflexivity.
  - now apply list_lookup_middle.
  - apply compact_invariant.
Qed.

Lemma compact_snoc rows row :
  compact (rows ++ [row])
  = if kept row && negb (String.eqb (key_string row) proto_key)
    then define_prop (key_string row) (row_value row) (compact rows)
    else compact rows.
Proof. unfold compact. now rewrite fold_left_app. Qed.

Lemma lookup_prop_None_keys {V} k (ps : list (string * V)) :
  lookup_prop k ps = None <-> ~ In k (map fst ps).
Proof.
  induction ps as [|[k1 v1] ps IH]; cbn; [tauto |].
  destruct (String.eqb_spec k1 k) as [->|Hne].
  - split; [discriminate | intros H; exfalso; apply H; now left].
  - rewrite IH. tauto.
Qed.

Lemma insert_index_perm {V} n k (v : V) ps : Permutation (insert_index n k v ps) ((k, v) :: ps).
Proof.
  induction ps as [|[k1 v1] ps IH]; cbn; [reflexivity |].
  destruct (array_index k1) as [n'|]; [destruct (n' <? n)%N |]; try reflexivity.
  rewrite IH. apply perm_swap.
Qed.

Lemma define_prop_NoDup {V} k (v : V) ps :
  NoDup (map fst ps) -> NoDup (map fst (define_prop k v ps)).
Proof.
  intros H. unfold define_prop. destruct (lookup_prop k ps) eqn:E.
  - rewrite replace_prop_keys; [exact H | now rewrite E].
  - apply lookup_prop_None_keys in E.
    assert (N : NoDup (k :: map fst ps)).
    { apply NoDup_cons. split; [now rewrite list_elem_of_In | exact H]. }
    destruct (array_index k).
    + now rewrite (insert_index_perm _ k v ps).
    + rewrite map_app. cbn. eapply NoDup_Permutation_proper; [| exact N].
      symmetry. apply Permutation_cons_append.
Qed.

Lemma compact_NoDup rows : NoDup (map fst (compact rows)).
Proof.
  induction rows as [|row rows IH] using rev_ind; [constructor |].
  rewrite compact_snoc.
  destruct (kept row && negb (String.eqb (key_string row) proto_key)); [| exact IH].
  now apply define_prop_NoDup.
Qed.

Lemma members_of_keys ps k : In k (map fst (members_of ps)) -> In k (map fst ps).
Proof.
  unfold members_of. induction ps as [|[k1 v1] ps IH]; [tauto |]. cbn.
  destruct (scalar_json v1); cbn; tauto.
Qed.

Lemma members_of_NoDup ps : NoDup (map fst ps) -> NoDup (map fst (members_of ps)).
Proof.
  unfold members_of. induction ps as [|[k1 v1] ps IH]; [constructor |]. cbn.
  intros [Hin Hnd]%NoDup_cons. specialize (IH Hnd).
  destruct (scalar_json v1); cbn; [| exact IH].
  apply NoDup_cons. split; [| exact IH].
  rewrite list_elem_of_In in *. intros H. apply Hin. now apply members_of_keys.
Qed.

Lemma lookup_members_of_NoDup k ps :
  NoDup (map fst ps) ->
  lookup_prop k (members_of ps) = lookup_prop k ps ≫= scalar_json.
Proof.
  induction ps as [|[k1 v1] ps IH]; [reflexivity |]. cbn.
  intros [Hin Hnd]%NoDup_cons. specialize (IH Hnd).
  destruct (String.eqb_spec k1 k) as [->|Hne].
  - cbn. destruct (scalar_json v1) eqn:Ev; cbn; [now rewrite String.eqb_refl |].
    apply (lookup_members_of k ps), lookup_prop_None_keys.
    now rewrite <- list_elem_of_In.
  - destruct (scalar_json v1); cbn; [| exact IH].
    destruct (String.eqb_spec k1 k); [contradiction | exact IH].
Qed.

Lemma compact_lookup rows k :
  String.eqb k proto_key = false ->
  lookup_prop k (compact rows) = row_value <$> last (List.filter (writes_key k) rows).
Proof.
  intros Hk. induction rows as [|row rows IH] using rev_ind; [reflexivity |].
  rewrite compact_snoc, List.filter_app. cbn [List.filter]. unfold writes_key at 2.
  destruct (kept row) eqn:Hkept; cbn [andb].
  - destruct (String.eqb_spec (key_string row) k) as [->|Hne].
    + rewrite Hk. cbn [negb]. rewrite last_snoc. apply lookup_define_same.
    + rewrite app_nil_r.
      destruct (negb (String.eqb (key_string row) proto_key)); [| exact IH].
      now rewrite lookup_define_other.
  - now rewrite app_nil_r.
Qed.

Lemma members_of_plain ps :
  Forall (fun kj : string * json => plain_scalar kj.2 = true)
         (members_of (List.filter (fun kv : string * value => negb (typeof_object kv.2)) ps)).
Proof.
  unfold members_of. induction ps as [|[k v] ps IH]; [constructor |]. cbn.
  destruct v; cbn; try exact IH; now constructor.
Qed.

Lemma filter_all {A} (f : A -> bool) l : Forall (fun x => f x = true) l -> List.filter f l = l.
Proof.
  induction 1 as [|x l Hx _ IH]; [reflexivity |]. cbn. now rewrite Hx, IH.
Qed.

Lemma compact_members_plain rows :
  Forall (fun kj : string * json => plain_scalar kj.2 = true) (members_of (compact rows)).
Proof.
  rewrite <- (filter_all (fun kv : string * value => negb (typeof_object kv.2))
                (compact rows)).
  - apply members_of_plain.
  - destruct (compact_invariant rows) as (_ & _ & H).
    apply List.Forall_map in H. eapply List.Forall_impl; [| exact H].
    cbn. intros kv ->. reflexivity.
Qed.

End NormalizerExtras.

(** X10: with two rows or more, or one row that has a key, the normaliser
    always returns a text.  Whatever the rows hold and whatever the heap,
    the call does not throw and does not return [undefined]; it allocates
    one object, changes no other, and returns the text of an object that
    is computed from the rows alone. *)
Theorem normalize_object_total row rest (h : heap) :
  (length (row :: rest) =? 1)%nat && negb (key_truthy row) = false ->
  normalizeNodeData (row :: rest) h
  = (h ++ [Obj (compact (row :: rest))],
     Normal (Some (Text.pretty EmptyString
                     (JObject (members_of (compact (row :: rest))))))).
Proof. intros H. now apply normalize_object. Qed.

Lemma normalize_object_total_witness :
  let row k v := {| row_key := Some k; row_value := v; row_type := "default" |} in
  let rows := [row "a" (VNumber 1); row "b" (VObject 0); row "a" (VString "x")] in
  (length rows =? 1)%nat && negb (key_truthy (row "a" (VNumber 1))) = false
  /\ normalizeNodeData rows []
     = ([Obj [("a", VString "x")]],
        Normal (Some (Text.pretty EmptyString (JObject [("a", JString "x")])))).
Proof.
  intros row rows. split; [reflexivity |].
  exact (normalize_object_total (row "a" (VNumber 1))
           [row "b" (VObject 0); row "a" (VString "x")] [] eq_refl).
Defined.

(** X11: the object that the normaliser writes out holds plain scalars under
    distinct keys.  With two rows or more, every member of the text is a
    boolean, a number or a string, no key occurs twice, and neither the empty
    key nor the key [__proto__] occurs. *)
Theorem normalize_members_plain r1 r2 rows (h : heap) :
  exists ms,
    (normalizeNodeData (r1 :: r2 :: rows) h).2
    = Normal (Some (Text.pretty EmptyString (JObject ms)))
    /\ Forall (fun kj : string * json => plain_scalar kj.2 = true) ms
    /\ NoDup (map fst ms)
    /\ lookup_prop EmptyString ms = None /\ lookup_prop proto_key ms = None.
Proof.
  exists (members_of (compact (r1 :: r2 :: rows))).
  split; [now rewrite normalize_object |].
  split; [apply compact_members_plain |].
  split; [apply members_of_NoDup, compact_NoDup |].
  split; apply lookup_members_of, compact_invariant.
Qed.

(** X12: for each key, the last row that writes it decides.  With two rows
    or more, the member of a key in the text that the normaliser returns is
    the value of the last row with that key and a value that is not of type
    [object]; a key without such a row has no member. *)
Theorem normalize_last_row_wins r1 r2 rows (h : heap) k :
  String.eqb k proto_key = false ->
  exists ms,
    (normalizeNodeData (r1 :: r2 :: rows) h).2
    = Normal (Some (Text.pretty EmptyString (JObject ms)))
    /\ lookup_prop k ms
       = last (List.filter (writes_key k) (r1 :: r2 :: rows))
         ≫= (fun row => scalar_json (row_value row)).
Proof.
  intros Hk. exists (members_of (compact (r1 :: r2 :: rows))).
  split; [now rewrite normalize_object |].
  rewrite lookup_members_of_NoDup by apply compact_NoDup.
  rewrite (compact_lookup _ k Hk).
  now destruct (last (List.filter (writes_key k) (r1 :: r2 :: rows))).
Qed.

Lemma normalize_last_row_wins_witness :
  let row k v := {| row_key := Some k; row_value := v; row_type := "default" |} in
  let rows := [row "b" (VNumber 3)] in
  String.eqb "a" proto_key = false
  /\ exists ms,
       (normalizeNodeData (row "a" (VNumber 1) :: row "a" (VNumber 2) :: rows) []).2
       = Normal (Some (Text.pretty EmptyString (JObject ms)))
       /\ lookup_prop "a" ms
          = last (List.filter (writes_key "a")
                    (row "a" (VNumber 1) :: row "a" (VNumber 2) :: rows))
            ≫= (fun row => scalar_json (row_value row)).
Proof.
  intros row rows. split; [reflexivity |].
  exact (normalize_last_row_wins (row "a" (VNumber 1)) (row "a" (VNumber 2)) rows []
           "a" eq_refl).
Defined.

(** X13: the normaliser reads the key and the value of a row and nothing
    else.  Two lists of rows that agree on keys and values, whatever their
    type tags, give the same result on every heap. *)
Theorem normalize_ignores_type rows rows' (h : heap) :
  Forall2 (fun r r' => row_key r = row_key r' /\ row_value r = row_value r') rows rows' ->
  normalizeNodeData rows h = normalizeNodeData rows' h.
Proof.
  intros HF.
  assert (Hred : forall F : value -> NodeRow -> JS value,
             (forall acc r r', row_key r = row_key r' -> row_value r = row_value r' ->
                               F acc r = F acc r') ->
             forall acc g, reduce F rows acc g = reduce F rows' acc g).
  { intros F HFx. induction HF as [|r r' l l' [Hk Hv] _ IH]; intros acc g; [reflexivity |].
    cbn [reduce]. unfold bind. rewrite (HFx acc r r' Hk Hv).
    destruct (F acc r' g) as [g' [acc'| e |]]; [apply IH | reflexivity ..]. }
  pose proof (Forall2_length _ _ _ HF) as Hlen.
  destruct HF as [|r r' l l' [Hk Hv] HF']; [reflexivity |].
  unfold normalizeNodeData. rewrite Hlen.
  assert (Hkt : key_truthy r = key_truthy r') by (unfold key_truthy; now rewrite Hk).
  rewrite Hkt, Hv.
  destruct ((length (r' :: l') =? 1)%nat && negb (key_truthy r')); [reflexivity |].
  unfold bind at 1 3. unfold alloc at 1 2. unfold bind.
  rewrite Hred; [reflexivity |].
  intros acc x x' Hxk Hxv. unfold key_truthy, key_string. now rewrite Hxk, Hxv.
Qed.

Lemma normalize_ignores_type_witness :
  let r := {| row_key := Some "a"; row_value := VNumber 1; row_type := "number" |} in
  let r' := {| row_key := Some "a"; row_value := VNumber 1; row_type := "default" |} in
  Forall2 (fun r r' => row_key r = row_key r' /\ row_value r = row_value r') [r] [r']
  /\ normalizeNodeData [r] [] = normalizeNodeData [r'] [].
Proof.
  intros r r'.
  assert (H : Forall2 (fun r r' => row_key r = row_key r' /\ row_value r = row_value r')
                [r] [r']) by (repeat constructor).
  split; [exact H |].
  exact (normalize_ignores_type [r] [r'] [] H).
Defined.

(** X14: a single row without a key gives the text of its value.  For a
    value that is not an object, a number being an integer below 2^53 in
    absolute value, the result is the text of that scalar, with [null]
    written as such, and it is [undefined], not a string, when the value is
    [undefined]; the heap is not changed. *)
Theorem normalize_bare_scalar row (h : heap) :
  key_truthy row = false ->
  (forall l, row_value row <> VObject l) ->
  exact_value (row_value row) = true ->
  normalizeNodeData [row] h
  = (h, Normal (Text.pretty EmptyString <$> scalar_json (row_value row))).
Proof.
  intros Hk Hv _. unfold normalizeNodeData. cbn [length Nat.eqb]. rewrite Hk. cbn [negb andb].
  unfold stringify_pretty, bind, stringify, ret.
  destruct (row_value row) as [| | b | z | s | l];
    try (destruct (length h); reflexivity).
  now destruct (Hv l).
Qed.

Lemma normalize_bare_scalar_witness :
  let row v := {| row_key := None; row_value := v; row_type := "default" |} in
  key_truthy (row VNull) = false
  /\ (forall l, row_value (row VNull) <> VObject l)
  /\ exact_value (row_value (row (VNumber (-12)))) = true
  /\ normalizeNodeData [row VNull] [] = ([], Normal (Some "null"))
  /\ normalizeNodeData [row (VNumber (-12))] [] = ([], Normal (Some "-12"))
  /\ normalizeNodeData [row VUndefined] [] = ([], Normal None).
Proof.
  intros row. split; [reflexivity |]. split; [discriminate |].
  split; [reflexivity |]. split; [| split].
  - exact (normalize_bare_scalar (row VNull) [] eq_refl ltac:(discriminate) eq_refl).
  - exact (normalize_bare_scalar (row (VNumber (-12))) [] eq_refl ltac:(discriminate) eq_refl).
  - exact (normalize_bare_scalar (row VUndefined) [] eq_refl ltac:(discriminate) eq_refl).
Defined.

Section SaveExtras.

Lemma with_heap_same w : with_heap (w_heap w) w = w.
Proof. now destruct w. Qed.

Lemma skip_ws_blank s : Str.all_chars Parser.is_ws s = true -> Parser.skip_ws s = EmptyString.
Proof.
  induction s as [|c s IH]; [reflexivity |]. cbn.
  intros [Hc Hs]%andb_prop. rewrite Hc. now apply IH.
Qed.

Lemma text_blank s : Str.all_chars Parser.is_ws s = true -> Parser.text s = Throw SyntaxError.
Proof.
  intros H. unfold Parser.text.
  destruct (2 * String.length s + 2) as [|fuel] eqn:E; [lia |].
  cbn [Parser.value]. now rewrite (skip_ws_blank s H).
Qed.

End SaveExtras.

(** A branch of the handler that was caught, or is outside of the model. *)
Ltac caught E :=
  first
    [ discriminate E
    | unfold toast_error in E; injection E as <-;
      cbn [calls call with_heap editedContent fullJson contents isEditing selectedNode];
      split; [reflexivity |]; split; [reflexivity |] ].

(** X15: a Save that returns made one notification, and it is the last
    call.  The calls of the handler are, in this order, the report of a
    failure alone, or a write of the document and the report of a failure,
    or a write of the document, a write of the graph store and the report of
    a success.  Only in the last case does the modal leave the editing
    state; the edit buffer is never changed, and a failure leaves the
    selected node as it was. *)
Theorem handleSave_outcomes w w' :
  handleSave w = (w', Normal tt) ->
  editedContent w' = editedContent w /\ fullJson w' = fullJson w
  /\ ((calls w' = calls w ++ [ToastError invalid_json]
       /\ contents w' = contents w /\ isEditing w' = isEditing w
       /\ selectedNode w' = selectedNode w)
      \/ (exists text,
            calls w' = calls w ++ [SetContents text; ToastError invalid_json]
            /\ contents w' = text /\ isEditing w' = isEditing w
            /\ selectedNode w' = selectedNode w)
      \/ (exists text,
            calls w' = calls w ++ [SetContents text; SetGraphState;
                                   ToastSuccess updated_json]
            /\ contents w' = text /\ isEditing w' = false)).
Proof.
  intros E. unfold handleSave, try_catch in E.
  unfold ui_bind at 1 in E. unfold lift at 1, JSON_parse at 1 in E.
  destruct (Parser.text (editedContent w)) as [j| e |] eqn:Ej; cbn [w_heap with_heap] in E.
  2, 3: caught E; left; now repeat split.
  unfold parse at 1 in E.
  destruct (from_json j (w_heap w)) as [h1 P] eqn:E1.
  unfold ui_bind at 1 in E. unfold lift at 1, JSON_parse at 1 in E.
  cbn [w_heap with_heap fullJson] in E.
  destruct (Parser.text (fullJson w)) as [doc| e |] eqn:Ed.
  2, 3: caught E; left; now repeat split.
  unfold parse at 1 in E.
  destruct (from_json doc h1) as [h2 D] eqn:E2.
  unfold ui_bind at 1 in E. unfold lift at 1 in E. cbn [w_heap with_heap] in E.
  destruct (updateJsonAtPath D (jsonPathToString (selectedNode w ≫= node_path)) P h2)
    as [h3 [U| e |]] eqn:E3.
  2, 3: caught E; left; now repeat split.
  unfold ui_bind at 1 in E. unfold lift at 1 in E. cbn [w_heap with_heap] in E.
  destruct (stringify_pretty U h3) as [h4 [text| e |]] eqn:E4.
  2, 3: caught E; left; now repeat split.
  unfold ui_bind at 1 in E. unfold setContents at 1 in E.
  unfold ui_bind at 1 in E. unfold setState at 1 in E.
  cbn [w_heap with_heap call selectedNode] in E.
  destruct (update_selected P (selectedNode w) h4) as [h5 [selected| e |]] eqn:E5.
  2, 3: caught E; right; left; exists text; repeat split;
        now rewrite <- app_assoc.
  unfold ui_bind, toast_success, setIsEditing in E.
  cbn [w_heap with_heap call isEditing editedContent selectedNode fullJson contents calls] in E.
  injection E as <-.
  cbn [calls call with_heap editedContent fullJson contents isEditing selectedNode].
  split; [reflexivity |]. split; [reflexivity |].
  right; right. exists text. repeat split. unfold updated_json. now rewrite <- !app_assoc.
Qed.

Lemma handleSave_outcomes_witness :
  let w := example_world "7" in
  let w' := (handleSave w).1 in
  handleSave w = (w', Normal tt)
  /\ calls w' = [SetContents (Some (Text.pretty EmptyString (JArray [JNumber 7; JNumber 2])));
                 SetGraphState; ToastSuccess updated_json]
  /\ editedContent w' = editedContent w /\ fullJson w' = fullJson w
  /\ ((calls w' = calls w ++ [ToastError invalid_json]
       /\ contents w' = contents w /\ isEditing w' = isEditing w
       /\ selectedNode w' = selectedNode w)
      \/ (exists text,
            calls w' = calls w ++ [SetContents text; ToastError invalid_json]
            /\ contents w' = text /\ isEditing w' = isEditing w
            /\ selectedNode w' = selectedNode w)
      \/ (exists text,
            calls w' = calls w ++ [SetContents text; SetGraphState;
                                   ToastSuccess updated_json]
            /\ contents w' = text /\ isEditing w' = false)).
Proof.
  intros w w'. split; [reflexivity |]. split; [reflexivity |].
  exact (handleSave_outcomes w w' eq_refl).
Defined.

(** X16: no exception leaves the Save handler.  Whatever the state, the
    handler returns; what is thrown inside of it is caught and reported. *)
Theorem handleSave_never_throws w e : (handleSave w).2 <> Throw e.
Proof.
  unfold handleSave, try_catch.
  match goal with
  | |- context [match ?b with _ => _ end] => destruct b as [w1 [[]| e' |]]
  end; discriminate.
Qed.

(** X17: a buffer that is no JSON text changes nothing.  The handler makes
    one call, the report of the failure; the document, the selected node,
    the editing state and the buffer are as they were. *)
Theorem save_rejects_malformed w e :
  Parser.text (editedContent w) = Throw e ->
  handleSave w = (call (ToastError invalid_json) w, Normal tt).
Proof.
  intros H. rewrite <- (with_heap_same w) at 2.
  unfold handleSave, try_catch, ui_bind, lift, JSON_parse. now rewrite H.
Qed.

Lemma save_rejects_malformed_witness :
  let w := example_world "{invalid" in
  Parser.text (editedContent w) = Throw SyntaxError
  /\ handleSave w = (call (ToastError invalid_json) w, Normal tt).
Proof.
  intros w. split; [reflexivity |].
  exact (save_rejects_malformed w SyntaxError eq_refl).
Defined.

(** X18: an empty or blank buffer is no JSON text.  A Save on a buffer
    of white space only, the empty buffer included, reports the failure and
    changes nothing else. *)
Theorem save_rejects_blank w :
  Str.all_chars Parser.is_ws (editedContent w) = true ->
  handleSave w = (call (ToastError invalid_json) w, Normal tt).
Proof.
  intros H. rewrite <- (with_heap_same w) at 2.
  unfold handleSave, try_catch, ui_bind, lift, JSON_parse.
  now rewrite (text_blank _ H).
Qed.

Lemma save_rejects_blank_witness :
  let w := example_world "  " in
  Str.all_chars Parser.is_ws (editedContent w) = true
  /\ handleSave w = (call (ToastError invalid_json) w, Normal tt).
Proof.
  intros w. split; [reflexivity |].
  exact (save_rejects_blank w eq_refl).
Defined.

(** X19: Edit and Cancel are local to the modal.  Whatever text they are
    given, the two handlers make no call to a store or to the notifications
    and leave the document, the selected node and the heap as they were. *)
Theorem edit_cancel_leave_stores data w :
  let unchanged w' :=
    calls w' = calls w /\ contents w' = contents w /\ fullJson w' = fullJson w
    /\ selectedNode w' = selectedNode w /\ w_heap w' = w_heap w in
  unchanged (handleEditToggle data w).1 /\ unchanged (handleCancel data w).1.
Proof.
  unfold handleEditToggle, handleCancel, ui_bind, setEditedContent, setIsEditing, ui_ret.
  destruct data as [text|], (isEditing w); cbn; now repeat split.
Qed.

Section ModalFacts.

(** What the component computes for a node that has no row, two rows or
    more, or one row with a key. *)
Lemma normalizedData_object w :
  let rows := default [] (node_text <$> selectedNode w) in
  match rows with [row] => key_truthy row | _ => true end = true ->
  exists h,
    normalizedData w
    = (with_heap h w,
       Normal (Some (Text.pretty EmptyString (JObject (members_of (compact rows)))))).
Proof.
  intros rows Hrows. unfold normalizedData, lift. fold rows.
  destruct rows as [|row rest] eqn:Erows.
  - exists (w_heap w). reflexivity.
  - rewrite normalize_object.
    + eexists. reflexivity.
    + destruct rest as [|r2 rest]; [| reflexivity].
      cbn [length Nat.eqb andb]. now rewrite Hrows.
Qed.

(** A click on Edit in the viewing state. *)
Lemma click_edit w :
  let rows := default [] (node_text <$> selectedNode w) in
  isEditing w = false ->
  match rows with [row] => key_truthy row | _ => true end = true ->
  exists h,
    click handleEditToggle w
    = ({| w_heap := h; isEditing := true;
          editedContent := Text.pretty EmptyString (JObject (members_of (compact rows)));
          selectedNode := selectedNode w; fullJson := fullJson w;
          contents := contents w; calls := calls w |},
       Normal tt).
Proof.
  intros rows Hview Hrows.
  destruct (normalizedData_object w Hrows) as [h Hn]. fold rows in Hn.
  exists h. unfold click, ui_bind. rewrite Hn.
  unfold handleEditToggle, ui_bind, setEditedContent, setIsEditing.
  cbn [isEditing with_heap]. rewrite Hview. reflexivity.
Qed.

End ModalFacts.

(** X20: Cancel throws the edits away.  From the viewing state, a click on
    Edit, any change of the buffer and a click on Cancel end in the viewing
    state; the buffer is again the normalised text of the rows, computed
    anew when the component renders, and no store or notification was
    called. *)
Theorem cancel_discards_edits w typed :
  let rows := default [] (node_text <$> selectedNode w) in
  isEditing w = false ->
  match rows with [row] => key_truthy row | _ => true end = true ->
  exists h,
    (click handleEditToggle ;;; setEditedContent (Some typed) ;;;
     click handleCancel)%ui w
    = ({| w_heap := h; isEditing := false;
          editedContent := Text.pretty EmptyString (JObject (members_of (compact rows)));
          selectedNode := selectedNode w; fullJson := fullJson w;
          contents := contents w; calls := calls w |},
       Normal tt).
Proof.
  intros rows Hview Hrows.
  destruct (click_edit w Hview Hrows) as [h1 Hedit]. fold rows in Hedit.
  unfold ui_bind at 1. rewrite Hedit.
  unfold ui_bind at 1, setEditedContent at 1.
  cbn [w_heap isEditing editedContent selectedNode fullJson contents calls].
  match goal with
  | |- context [click handleCancel ?w2] =>
      destruct (normalizedData_object w2) as [h2 Hn];
        [exact Hrows | exists h2; unfold click, ui_bind; rewrite Hn]
  end.
  reflexivity.
Qed.

Lemma cancel_discards_edits_witness :
  let row k v := {| row_key := Some k; row_value := v; row_type := "default" |} in
  let node := {| node_id := "1"; node_text := [row "a" (VNumber 1); row "b" VNull];
                 node_path := Some [Key "n"] |} in
  let w := {| w_heap := []; isEditing := false; editedContent := EmptyString;
              selectedNode := Some node; fullJson := "{}"; contents := Some "{}";
              calls := [] |} in
  isEditing w = false
  /\ exists h,
       (click handleEditToggle ;;; setEditedContent (Some "{oops") ;;;
        click handleCancel)%ui w
       = ({| w_heap := h; isEditing := false;
             editedContent :=
               Text.pretty EmptyString
                 (JObject (members_of (compact (default [] (node_text <$> selectedNode w)))));
             selectedNode := selectedNode w; fullJson := fullJson w;
             contents := contents w; calls := calls w |},
          Normal tt).
Proof.
  intros row node w. split; [reflexivity |].
  exact (cancel_discards_edits w "{oops" eq_refl eq_refl).
Defined.

(** X21: Edit puts the normalised text of the node in the buffer.  In the
    viewing state, with no node selected, or a node with no row, with two
    rows or more, or with one row that has a key, a click on Edit ends in
    the editing state, and the buffer is the text of the object of the rows
    that the normaliser keeps. *)
Theorem click_edit_fills_buffer w :
  let rows := default [] (node_text <$> selectedNode w) in
  isEditing w = false ->
  match rows with [row] => key_truthy row | _ => true end = true ->
  exists h,
    click handleEditToggle w
    = ({| w_heap := h; isEditing := true;
          editedContent := Text.pretty EmptyString (JObject (members_of (compact rows)));
          selectedNode := selectedNode w; fullJson := fullJson w;
          contents := contents w; calls := calls w |},
       Normal tt).
Proof. exact (click_edit w). Qed.

Lemma click_edit_fills_buffer_witness :
  let row k v := {| row_key := Some k; row_value := v; row_type := "default" |} in
  let node := {| node_id := "1"; node_text := [row "a" (VNumber 1); row "b" VNull];
                 node_path := Some [Key "n"] |} in
  let w := {| w_heap := []; isEditing := false; editedContent := EmptyString;
              selectedNode := Some node; fullJson := "{}"; contents := Some "{}";
              calls := [] |} in
  isEditing w = false
  /\ editedContent (click handleEditToggle w).1
     = Text.pretty EmptyString (JObject [("a", JNumber 1)])
  /\ exists h,
       click handleEditToggle w
       = ({| w_heap := h; isEditing := true;
             editedContent :=
               Text.pretty EmptyString
                 (JObject (members_of (compact (default [] (node_text <$> selectedNode w)))));
             selectedNode := selectedNode w; fullJson := fullJson w;
             contents := contents w; calls := calls w |},
          Normal tt).
Proof.
  intros row node w. split; [reflexivity |]. split; [reflexivity |].
  exact (click_edit_fills_buffer w eq_refl eq_refl).
Defined.

(** X22: a Save of a number, a boolean or a string rebuilds the rows from a
    value that is no object.  After a Save that ends well with a node
    selected, a number or a boolean leaves the node without rows, so that
    the modal shows the empty object; a string gives one row for each of its
    code units, keyed by its position. *)
Theorem save_of_plain_scalar w w' node m j :
  selectedNode w = Some node ->
  Parser.text (editedContent w) = Normal j -> plain_scalar j = true ->
  handleSave w = (w', Normal tt) ->
  last (calls w') = Some (ToastSuccess m) ->
  match j with
  | JString s =>
      node_text <$> selectedNode w'
      = Some (map entry_row
                (indexed (map (fun c => VString (String c EmptyString))
                              (list_ascii_of_string s))))
  | _ =>
      node_text <$> selectedNode w' = Some []
      /\ (normalizedData w').2 = Normal (Some "{}")
  end.
Proof.
  intros Hsel Hj Hplain E Hlast.
  destruct (handleSave_success _ _ _ E Hlast)
    as (j' & h1 & P & doc & h2 & D & h3 & U & text & selected
        & Ej & E1 & Ed & E2 & E3 & E4 & E5 & ->).
  rewrite Hj in Ej. injection Ej as <-.
  rewrite Hsel in E5. unfold update_selected, bind in E5.
  destruct j as [| b | z | s | |]; try discriminate Hplain;
    cbn in E1; injection E1 as <- <-; cbn in E5; injection E5 as <-.
  - split; reflexivity.
  - split; reflexivity.
  - reflexivity.
Qed.

Lemma save_of_plain_scalar_witness :
  let w := example_world "7" in
  let w' := (handleSave w).1 in
  (exists node, selectedNode w = Some node)
  /\ Parser.text (editedContent w) = Normal (JNumber 7)
  /\ plain_scalar (JNumber 7) = true
  /\ handleSave w = (w', Normal tt)
  /\ last (calls w') = Some (ToastSuccess updated_json)
  /\ node_text <$> selectedNode w' = Some []
  /\ (normalizedData w').2 = Normal (Some "{}").
Proof.
  intros w w'. split; [eexists; reflexivity |]. do 4 (split; [reflexivity |]).
  exact (save_of_plain_scalar w w' _ updated_json (JNumber 7)
           eq_refl eq_refl eq_refl eq_refl eq_refl).
Defined.

Section RoundTrip.
Import Str.

Lemma append_nil_r s : s +:+ EmptyString = s.
Proof. induction s as [|c s IH]; cbn; [reflexivity | now rewrite IH]. Qed.

Lemma length_append a b : String.length (a +:+ b) = String.length a + String.length b.
Proof. induction a as [|c a IH]; cbn; [reflexivity | now rewrite IH]. Qed.

Lemma substring_all s : String.substring 0 (String.length s) s = s.
Proof. induction s as [|c s IH]; cbn; [reflexivity | now rewrite IH]. Qed.

Lemma prefix_append word rest : String.prefix word (word +:+ rest) = true.
Proof.
  induction word as [|c w IH]; cbn; [now destruct rest |].
  destruct (ascii_dec c c); [exact IH | contradiction].
Qed.

Lemma literal_here word j rest : Parser.literal word j (word +:+ rest) = Normal (j, rest).
Proof.
  unfold Parser.literal. rewrite prefix_append. do 2 f_equal.
  rewrite length_append.
  replace (String.length word + String.length rest - String.length word)
    with (String.length rest) by lia.
  induction word as [|c w IH]; cbn; [apply substring_all | exact IH].
Qed.

Lemma skip_ws_spaces ws s :
  all_chars Parser.is_ws ws = true -> Parser.skip_ws (ws +:+ s) = Parser.skip_ws s.
Proof.
  induction ws as [|c ws IH]; [reflexivity |]. cbn.
  intros [Hc Hs]%andb_prop. rewrite Hc. now apply IH.
Qed.

Lemma skip_ws_head c s : Parser.is_ws c = false -> Parser.skip_ws (String c s) = String c s.
Proof. intros H. cbn. now rewrite H. Qed.

Lemma value_skip f ws s :
  all_chars Parser.is_ws ws = true -> Parser.value f (ws +:+ s) = Parser.value f s.
Proof. intros H. destruct f; [reflexivity |]. cbn [Parser.value]. now rewrite skip_ws_spaces. Qed.

Lemma value_space f s : Parser.value f (String " " s) = Parser.value f s.
Proof. exact (value_skip f " " s eq_refl). Qed.

Lemma elements_skip f ws s :
  all_chars Parser.is_ws ws = true -> Parser.elements f (ws +:+ s) = Parser.elements f s.
Proof. intros H. destruct f; [reflexivity |]. cbn [Parser.elements]. now rewrite value_skip. Qed.

Lemma string_body_char c Y :
  Parser.string_body (Text.escape_char c +:+ Y)
  = cbind (Parser.string_body Y) (fun '(b, r) => Normal (String c b, r)).
Proof. destruct c as [[] [] [] [] [] [] [] []]; reflexivity. Qed.

Lemma string_body_escape s rest :
  Parser.string_body (Text.escape s +:+ String quote rest) = Normal (s, rest).
Proof.
  induction s as [|c s IH]; [reflexivity |].
  cbn [Text.escape]. rewrite append_assoc, string_body_char, IH. reflexivity.
Qed.

Lemma take_digits_app d rest :
  all_chars is_digit d = true ->
  match rest with String c _ => is_digit c = false | EmptyString => True end ->
  Parser.take_digits (d +:+ rest) = (d, rest).
Proof.
  intros Hd Hr. induction d as [|c d IH].
  - destruct rest as [|c r]; [reflexivity |]. cbn. now rewrite Hr.
  - apply andb_prop in Hd as [Hc Hd]. cbn. rewrite Hc, (IH Hd). reflexivity.
Qed.

Lemma delimited_no_digit rest :
  delimited rest = true ->
  match rest with String c _ => is_digit c = false | EmptyString => True end.
Proof.
  destruct rest as [|c r]; [easy |]. cbn.
  intros H%negb_true_iff. now destruct (is_digit c).
Qed.

Lemma after_int_delimited z rest :
  delimited rest = true -> Parser.after_int z rest = Normal (JNumber z, rest).
Proof.
  destruct rest as [|c r]; [reflexivity |]. cbn.
  intros H%negb_true_iff.
  destruct (is_digit c); [discriminate |].
  destruct (Ascii.eqb c "."); [discriminate |].
  destruct (Ascii.eqb c "e"); [discriminate |].
  destruct (Ascii.eqb c "E"); [discriminate | reflexivity].
Qed.

(** The numeral of a positive number starts with a digit that is not 0. *)
Lemma uint_head d :
  d <> Nil -> (forall u, d <> D0 u) ->
  exists c s, NilEmpty.string_of_uint d = String c s
              /\ is_digit c = true /\ Ascii.eqb c "0" = false.
Proof.
  intros Hn H0. destruct d; try congruence; cbn; eauto.
Qed.

Lemma to_uint_no_leading_zero p u : Pos.to_uint p <> D0 u.
Proof.
  intros E.
  pose proof (DecimalN.Unsigned.to_of (N.to_uint (Npos p))) as Hnorm.
  rewrite DecimalN.Unsigned.of_to in Hnorm.
  change (N.to_uint (N.pos p)) with (Pos.to_uint p) in Hnorm.
  rewrite E, DecimalFacts.unorm_D0 in Hnorm.
  destruct u as [| u' | u' | u' | u' | u' | u' | u' | u' | u' | u'].
  1: now apply (DecimalPos.Unsigned.to_uint_nonzero p).
  all: match type of Hnorm with
       | _ = unorm ?u =>
           assert (Hnb : nb_digits (unorm u) <= nb_digits u)
             by (apply DecimalFacts.nb_digits_unorm; discriminate)
       end;
       rewrite <- Hnorm in Hnb; cbn in Hnb; lia.
Qed.

Lemma of_N_pos_head p :
  exists c s, of_N (Npos p) = String c s
              /\ is_digit c = true /\ Ascii.eqb c "0" = false.
Proof.
  unfold of_N, NilZero.string_of_uint. change (N.to_uint (N.pos p)) with (Pos.to_uint p).
  pose proof (DecimalPos.Unsigned.to_uint_nonnil p) as Hn.
  destruct (uint_head (Pos.to_uint p) Hn (to_uint_no_leading_zero p)) as (c & s & E & H).
  exists c, s. split; [| exact H].
  destruct (Pos.to_uint p); [contradiction | exact E ..].
Qed.

Lemma digit_dispatch c s f :
  is_digit c = true ->
  Parser.value (S f) (String c s) = Parser.unsigned_number false (String c s).
Proof.
  intros H. destruct c as [[] [] [] [] [] [] [] []]; try discriminate H; reflexivity.
Qed.

Lemma digit_not_ws c : is_digit c = true -> Parser.is_ws c = false.
Proof.
  intros H. destruct c as [[] [] [] [] [] [] [] []]; try discriminate H; reflexivity.
Qed.

Lemma unsigned_number_of_N neg p rest :
  (Npos p <? Numeral.exact_bound)%N = true -> delimited rest = true ->
  Parser.unsigned_number neg (of_N (Npos p) +:+ rest)
  = Normal (JNumber (if neg then (- Z.of_N (Npos p))%Z else Z.of_N (Npos p)), rest).
Proof.
  intros Hb Hr.
  destruct (of_N_pos_head p) as (c & s & E & Hd & H0).
  unfold Parser.unsigned_number. rewrite E at 1. cbn [String.append].
  rewrite H0, Hd.
  rewrite take_digits_app;
    [| apply digits_of_N | now apply delimited_no_digit].
  rewrite decimal_value_of_N, after_int_delimited by exact Hr.
  now rewrite Hb.
Qed.

Lemma value_number z rest f :
  (Z.abs_N z <? Numeral.exact_bound)%N = true -> delimited rest = true ->
  Parser.value (S f) (of_Z z +:+ rest) = Normal (JNumber z, rest).
Proof.
  intros Hb Hr. destruct z as [|p|p].
  - change (of_Z 0 +:+ rest) with (String "0" rest).
    rewrite digit_dispatch by reflexivity.
    unfold Parser.unsigned_number. cbn [Ascii.eqb Bool.eqb]. cbv iota.
    now apply after_int_delimited.
  - change (of_Z (Z.pos p)) with (of_N (Npos p)).
    destruct (of_N_pos_head p) as (c & s & E & Hd & H0).
    rewrite E at 1. cbn [String.append]. rewrite digit_dispatch by exact Hd.
    change (String c (s +:+ rest)) with (String c s +:+ rest). rewrite <- E.
    now rewrite unsigned_number_of_N.
  - change (of_Z (Z.neg p) +:+ rest) with (String "-" (of_N (Npos p) +:+ rest)).
    cbn [Parser.value Parser.skip_ws].
    change (Parser.is_ws "-") with false. cbv iota.
    cbn [Ascii.eqb Bool.eqb]. cbv iota.
    change (Ascii.eqb "-" quote) with false. cbv iota.
    now rewrite unsigned_number_of_N.
Qed.

Lemma pretty_head indent j X :
  exists c r, Text.pretty indent j +:+ X = String c r
              /\ Parser.is_ws c = false /\ Ascii.eqb c "]" = false.
Proof.
  destruct j as [| b | z | s | items | members].
  - eexists _, _. cbn. repeat split.
  - destruct b; eexists _, _; cbn; repeat split.
  - destruct z as [|p|p].
    + eexists _, _. cbn. repeat split.
    + cbn [Text.pretty]. change (of_Z (Z.pos p)) with (of_N (Npos p)).
      destruct (of_N_pos_head p) as (c & s & E & Hd & H0). rewrite E.
      exists c, (s +:+ X). split; [reflexivity |].
      split; [now apply digit_not_ws | now apply digit_not_bracket].
    + eexists _, _. cbn. repeat split.
  - eexists _, _. cbn. repeat split.
  - destruct items; eexists _, _; cbn; repeat split.
  - destruct members; eexists _, _; cbn; repeat split.
Qed.

Lemma join_cons2 sep x y l : join sep (x :: y :: l) = x +:+ sep +:+ join sep (y :: l).
Proof. reflexivity. Qed.

Lemma elements_pretty inner indent rest :
  all_chars Parser.is_ws inner = true -> all_chars Parser.is_ws indent = true ->
  forall items x f,
    Forall (fun j => ints_exact j = true -> reads_back j) (x :: items) ->
    forallb ints_exact (x :: items) = true ->
    list_sum (map (fun j => S (size j)) (x :: items)) <= f ->
    Parser.elements f
      (join ("," +:+ Text.nl +:+ inner) (map (Text.pretty inner) (x :: items))
       +:+ Text.nl +:+ indent +:+ "]" +:+ rest)
    = Normal (x :: items, rest).
Proof.
  intros Hinner Hindent.
  induction items as [|y items IH]; intros x f HF Hex Hf.
  - apply Forall_cons in HF as [Hx _]. cbn in Hex. rewrite andb_true_r in Hex.
    cbn [map join]. cbn in Hf.
    destruct f as [|f]; [lia |]. cbn [Parser.elements].
    rewrite (Hx Hex inner _ f Hinner); [| reflexivity | lia].
    cbn [cbind]. unfold Text.nl at 1. cbn [String.append Parser.skip_ws].
    change (Parser.is_ws (ascii_of_nat 10)) with true. cbv iota.
    rewrite (skip_ws_spaces indent _ Hindent). reflexivity.
  - apply Forall_cons in HF as [Hx HF].
    cbn [forallb] in Hex. apply andb_prop in Hex as [Hex Hex'].
    change (map (Text.pretty inner) (x :: y :: items))
      with (Text.pretty inner x :: Text.pretty inner y :: map (Text.pretty inner) items).
    rewrite join_cons2.
    change (Text.pretty inner y :: map (Text.pretty inner) items)
      with (map (Text.pretty inner) (y :: items)).
    change (list_sum (map (fun j => S (size j)) (x :: y :: items)))
      with (S (size x) + list_sum (map (fun j => S (size j)) (y :: items))) in Hf.
    destruct f as [|f]; [lia |]. cbn [Parser.elements].
    rewrite !append_assoc.
    rewrite (Hx Hex inner _ f Hinner); [| reflexivity | lia].
    cbn [cbind String.append Parser.skip_ws].
    change (Parser.is_ws ",") with false. cbv iota.
    cbn [Ascii.eqb Bool.eqb]. cbv iota.
    rewrite (elements_skip f Text.nl) by reflexivity.
    rewrite (elements_skip f inner) by exact Hinner.
    pose proof (IH y f HF Hex' ltac:(lia)) as IHy.
    cbn [String.append] in IHy. rewrite IHy. reflexivity.
Qed.

Lemma members_pretty inner indent rest :
  all_chars Parser.is_ws inner = true -> all_chars Parser.is_ws indent = true ->
  forall ms m f,
    Forall (fun kj : string * json => ints_exact kj.2 = true -> reads_back kj.2) (m :: ms) ->
    forallb (fun kj : string * json => ints_exact kj.2) (m :: ms) = true ->
    list_sum (map (fun kj : string * json => S (size kj.2)) (m :: ms)) <= f ->
    Parser.members f
      (join ("," +:+ Text.nl +:+ inner)
         (map (fun kj : string * json =>
                 Text.quote_string kj.1 +:+ ": " +:+ Text.pretty inner kj.2) (m :: ms))
       +:+ Text.nl +:+ indent +:+ "}" +:+ rest)
    = Normal (m :: ms, rest).
Proof.
  intros Hinner Hindent.
  induction ms as [|m2 ms IH]; intros [k v] f HF Hex Hf.
  - apply Forall_cons in HF as [Hx _]. cbn in Hex. rewrite andb_true_r in Hex.
    cbn [map join fst snd] in *. cbn in Hf.
    destruct f as [|f]; [lia |].
    unfold Text.quote_string. cbn [String.append]. rewrite !append_assoc.
    cbn [String.append Parser.members]. rewrite Ascii.eqb_refl.
    rewrite string_body_escape. cbn [cbind].
    rewrite skip_ws_head by reflexivity. cbn [Ascii.eqb Bool.eqb]. cbv iota.
    rewrite value_space.
    rewrite (Hx Hex inner _ f Hinner); [| reflexivity | lia].
    cbn [cbind]. unfold Text.nl at 1. cbn [String.append Parser.skip_ws].
    change (Parser.is_ws (ascii_of_nat 10)) with true. cbv iota.
    rewrite (skip_ws_spaces indent _ Hindent). reflexivity.
  - apply Forall_cons in HF as [Hx HF].
    cbn [forallb] in Hex. apply andb_prop in Hex as [Hex Hex'].
    set (g := fun kj : string * json =>
                Text.quote_string kj.1 +:+ ": " +:+ Text.pretty inner kj.2) in *.
    change (map g ((k, v) :: m2 :: ms)) with (g (k, v) :: g m2 :: map g ms).
    rewrite join_cons2.
    change (g m2 :: map g ms) with (map g (m2 :: ms)).
    change (list_sum (map (fun kj : string * json => S (size kj.2)) ((k, v) :: m2 :: ms)))
      with (S (size v)
            + list_sum (map (fun kj : string * json => S (size kj.2)) (m2 :: ms))) in Hf.
    destruct f as [|f]; [lia |].
    pose proof (IH m2 f HF Hex' ltac:(lia)) as IHm. clear IH.
    cbn [fst snd] in *.
    unfold g at 1. cbn [fst snd]. unfold Text.quote_string at 1.
    cbn [String.append]. rewrite !append_assoc.
    cbn [String.append Parser.members]. rewrite Ascii.eqb_refl.
    rewrite string_body_escape. cbn [cbind].
    rewrite skip_ws_head by reflexivity. cbn [Ascii.eqb Bool.eqb]. cbv iota.
    rewrite value_space.
    rewrite (Hx Hex inner _ f Hinner); [| reflexivity | lia].
    cbn [cbind]. rewrite skip_ws_head by reflexivity.
    cbn [Ascii.eqb Bool.eqb]. cbv iota.
    rewrite !append_assoc.
    rewrite (skip_ws_spaces Text.nl) by reflexivity.
    rewrite (skip_ws_spaces inner) by exact Hinner.
    cbn [String.append] in IHm.
    assert (Hhead : exists r,
              join (String "," (Text.nl +:+ inner)) (map g (m2 :: ms))
              +:+ Text.nl +:+ indent +:+ String "}" rest = String quote r).
    { destruct m2 as [k2 v2]. destruct ms as [|m3 ms].
      - cbn [map join]. unfold g, Text.quote_string. cbn [String.append]. eauto.
      - change (map g ((k2, v2) :: m3 :: ms)) with (g (k2, v2) :: map g (m3 :: ms)).
        change (join ?sep (?a :: map g (m3 :: ms)))
          with (a +:+ sep +:+ join sep (map g (m3 :: ms))).
        unfold g at 1, Text.quote_string. cbn [String.append]. eauto. }
    destruct Hhead as [r Hr]. rewrite Hr at 1.
    rewrite skip_ws_head by reflexivity. rewrite <- Hr.
    rewrite IHm. reflexivity.
Qed.

Lemma size_pos j : 1 <= size j.
Proof. destruct j; cbn; lia. Qed.

Lemma reads_back_all j : ints_exact j = true -> reads_back j.
Proof.
  induction j as [| b | z | s | items IH | members IH] using json_nested_ind;
    intros Hex indent rest fuel Hindent Hrest Hfuel;
    (destruct fuel as [|fuel];
     [match type of Hfuel with size ?x <= _ => pose proof (size_pos x) end; lia |]).
  - change (Text.pretty indent JNull +:+ rest) with (String "n" ("ull" +:+ rest)).
    cbn [Parser.value]. rewrite skip_ws_head by reflexivity.
    cbn [Ascii.eqb Bool.eqb]. change (Ascii.eqb "n" quote) with false. cbv iota.
    change (is_digit "n") with false. cbv iota.
    exact (literal_here "null" JNull rest).
  - destruct b.
    + change (Text.pretty indent (JBool true) +:+ rest) with (String "t" ("rue" +:+ rest)).
      cbn [Parser.value]. rewrite skip_ws_head by reflexivity.
      cbn [Ascii.eqb Bool.eqb]. change (Ascii.eqb "t" quote) with false. cbv iota.
      change (is_digit "t") with false. cbv iota.
      exact (literal_here "true" (JBool true) rest).
    + change (Text.pretty indent (JBool false) +:+ rest)
        with (String "f" ("alse" +:+ rest)).
      cbn [Parser.value]. rewrite skip_ws_head by reflexivity.
      cbn [Ascii.eqb Bool.eqb]. change (Ascii.eqb "f" quote) with false. cbv iota.
      change (is_digit "f") with false. cbv iota.
      exact (literal_here "false" (JBool false) rest).
  - cbn [Text.pretty]. now apply value_number.
  - cbn [Text.pretty]. unfold Text.quote_string. cbn [String.append].
    rewrite append_assoc. cbn [String.append Parser.value].
    rewrite skip_ws_head by reflexivity.
    change (Ascii.eqb quote "{") with false. change (Ascii.eqb quote "[") with false.
    cbv iota. rewrite Ascii.eqb_refl.
    now rewrite string_body_escape.
  - destruct items as [|x items]; [reflexivity |].
    cbn [ints_exact] in Hex. cbn [size] in Hfuel.
    change (Text.pretty indent (JArray (x :: items)))
      with ("[" +:+ Text.nl +:+ (indent +:+ "  ")
            +:+ join ("," +:+ Text.nl +:+ (indent +:+ "  "))
                  (map (Text.pretty (indent +:+ "  ")) (x :: items))
            +:+ Text.nl +:+ indent +:+ "]").
    set (inner := indent +:+ "  ") in *.
    assert (Hinner : all_chars Parser.is_ws inner = true).
    { unfold inner. clear -Hindent. induction indent as [|c i IHi]; [reflexivity |].
      cbn in Hindent |- *. apply andb_prop in Hindent as [-> Hi]. now apply IHi. }
    rewrite !append_assoc. cbn [String.append Parser.value].
    rewrite skip_ws_head by reflexivity. cbn [Ascii.eqb Bool.eqb]. cbv iota.
    rewrite (skip_ws_spaces Text.nl) by reflexivity.
    rewrite (skip_ws_spaces inner) by exact Hinner.
    pose proof (elements_pretty inner indent rest Hinner Hindent items x fuel IH Hex
                  ltac:(lia)) as He.
    cbn [String.append] in He.
    change (map (Text.pretty inner) (x :: items))
      with (Text.pretty inner x :: map (Text.pretty inner) items) in *.
    assert (Hhead : exists c r,
              join (String "," (Text.nl +:+ inner))
                (Text.pretty inner x :: map (Text.pretty inner) items)
              +:+ Text.nl +:+ indent +:+ String "]" rest = String c r
              /\ Parser.is_ws c = false /\ Ascii.eqb c "]" = false).
    { destruct items as [|y items].
      - cbn [map join]. apply pretty_head.
      - change (map (Text.pretty inner) (y :: items))
          with (Text.pretty inner y :: map (Text.pretty inner) items).
        rewrite join_cons2, append_assoc. apply pretty_head. }
    destruct Hhead as (c & r & Hr & Hws & Hc).
    rewrite Hr in He |- *. rewrite skip_ws_head by exact Hws.
    rewrite Hc, He. reflexivity.
  - destruct members as [|[k v] members]; [reflexivity |].
    cbn [ints_exact] in Hex. cbn [size] in Hfuel.
    change (Text.pretty indent (JObject ((k, v) :: members)))
      with ("{" +:+ Text.nl +:+ (indent +:+ "  ")
            +:+ join ("," +:+ Text.nl +:+ (indent +:+ "  "))
                  (map (fun kj : string * json =>
                          Text.quote_string kj.1 +:+ ": "
                          +:+ Text.pretty (indent +:+ "  ") kj.2) ((k, v) :: members))
            +:+ Text.nl +:+ indent +:+ "}").
    set (inner := indent +:+ "  ") in *.
    assert (Hinner : all_chars Parser.is_ws inner = true).
    { unfold inner. clear -Hindent. induction indent as [|c i IHi]; [reflexivity |].
      cbn in Hindent |- *. apply andb_prop in Hindent as [-> Hi]. now apply IHi. }
    rewrite !append_assoc. cbn [String.append Parser.value].
    rewrite skip_ws_head by reflexivity. cbn [Ascii.eqb Bool.eqb]. cbv iota.
    rewrite (skip_ws_spaces Text.nl) by reflexivity.
    rewrite (skip_ws_spaces inner) by exact Hinner.
    pose proof (members_pretty inner indent rest Hinner Hindent members (k, v) fuel IH Hex
                  ltac:(lia)) as He.
    cbn [String.append] in He.
    match type of He with
    | Parser.members _ ?S = _ => assert (Hhead : exists r, S = String quote r)
    end.
    { destruct members as [|m3 ms].
      - cbn [map join]. unfold Text.quote_string. cbn [String.append fst]. eauto.
      - cbn [map]. rewrite join_cons2.
        unfold Text.quote_string at 1. cbn [String.append fst]. eauto. }
    destruct Hhead as (r & Hr).
    rewrite Hr in He |- *. rewrite skip_ws_head by reflexivity.
    change (Ascii.eqb quote "}") with false. cbv iota.
    rewrite He. reflexivity.
Qed.

Lemma length_join_items (sep : string) (f : json -> string) items :
  1 <= String.length sep ->
  Forall (fun j => size j <= String.length (f j)) items ->
  list_sum (map (fun j => S (size j)) items) <= String.length (join sep (map f items)) + 1.
Proof.
  intros Hsep. induction 1 as [|x items Hx HF IH]; [cbn; lia |].
  destruct items as [|y items].
  - cbn. lia.
  - change (map f (x :: y :: items)) with (f x :: f y :: map f items).
    rewrite join_cons2, !length_append.
    change (f y :: map f items) with (map f (y :: items)).
    change (list_sum (map (fun j => S (size j)) (x :: y :: items)))
      with (S (size x) + list_sum (map (fun j => S (size j)) (y :: items))).
    lia.
Qed.

Lemma length_join_members (sep : string) (f : string * json -> string) members :
  1 <= String.length sep ->
  Forall (fun kj : string * json => size kj.2 <= String.length (f kj)) members ->
  list_sum (map (fun kj : string * json => S (size kj.2)) members)
  <= String.length (join sep (map f members)) + 1.
Proof.
  intros Hsep. induction 1 as [|x items Hx HF IH]; [cbn; lia |].
  destruct items as [|y items].
  - cbn. lia.
  - change (map f (x :: y :: items)) with (f x :: f y :: map f items).
    rewrite join_cons2, !length_append.
    change (f y :: map f items) with (map f (y :: items)).
    change (list_sum (map (fun kj : string * json => S (size kj.2)) (x :: y :: items)))
      with (S (size x.2)
            + list_sum (map (fun kj : string * json => S (size kj.2)) (y :: items))).
    lia.
Qed.

Lemma size_le_length j : forall indent, size j <= String.length (Text.pretty indent j).
Proof.
  induction j as [| b | z | s | items IH | members IH] using json_nested_ind;
    intros indent.
  - cbn. lia.
  - destruct b; cbn; lia.
  - cbn [size Text.pretty]. destruct z as [|p|p]; [cbn; lia | | cbn; lia].
    change (of_Z (Z.pos p)) with (of_N (Npos p)).
    destruct (of_N_pos_head p) as (c & r & -> & _). cbn. lia.
  - cbn. lia.
  - destruct items as [|x items]; [cbn; lia |].
    cbn [size].
    change (Text.pretty indent (JArray (x :: items)))
      with ("[" +:+ Text.nl +:+ (indent +:+ "  ")
            +:+ join ("," +:+ Text.nl +:+ (indent +:+ "  "))
                  (map (Text.pretty (indent +:+ "  ")) (x :: items))
            +:+ Text.nl +:+ indent +:+ "]").
    rewrite !length_append.
    pose proof (length_join_items ("," +:+ Text.nl +:+ (indent +:+ "  "))
                  (Text.pretty (indent +:+ "  ")) (x :: items)) as H.
    rewrite !length_append in H. cbn [String.length] in *.
    specialize (H ltac:(lia)).
    assert (HF : Forall (fun j => size j <= String.length (Text.pretty (indent +:+ "  ") j))
                   (x :: items)).
    { eapply List.Forall_impl; [| exact IH]. intros j Hj. apply Hj. }
    specialize (H HF). lia.
  - destruct members as [|m members]; [cbn; lia |].
    cbn [size].
    change (Text.pretty indent (JObject (m :: members)))
      with ("{" +:+ Text.nl +:+ (indent +:+ "  ")
            +:+ join ("," +:+ Text.nl +:+ (indent +:+ "  "))
                  (map (fun kj : string * json =>
                          Text.quote_string kj.1 +:+ ": "
                          +:+ Text.pretty (indent +:+ "  ") kj.2) (m :: members))
            +:+ Text.nl +:+ indent +:+ "}").
    rewrite !length_append.
    pose proof (length_join_members ("," +:+ Text.nl +:+ (indent +:+ "  "))
                  (fun kj : string * json =>
                     Text.quote_string kj.1 +:+ ": "
                     +:+ Text.pretty (indent +:+ "  ") kj.2) (m :: members)) as H.
    rewrite !length_append in H. cbn [String.length] in *.
    specialize (H ltac:(lia)).
    assert (HF : Forall (fun kj : string * json =>
                   size kj.2 <= String.length (Text.quote_string kj.1 +:+ ": "
                                  +:+ Text.pretty (indent +:+ "  ") kj.2))
                   (m :: members)).
    { eapply List.Forall_impl; [| exact IH]. intros kj Hj.
      rewrite !length_append. specialize (Hj (indent +:+ "  ")). lia. }
    specialize (H HF). lia.
Qed.

Lemma text_pretty j : ints_exact j = true -> Parser.text (Text.pretty EmptyString j) = Normal j.
Proof.
  intros Hex. unfold Parser.text.
  rewrite <- (append_nil_r (Text.pretty EmptyString j)) at 2.
  rewrite (reads_back_all j Hex EmptyString EmptyString); try reflexivity.
  pose proof (size_le_length j EmptyString). lia.
Qed.

End RoundTrip.

(** X23: the reader reads back the text that the writer wrote.  For every
    text whose numbers are integers below 2^53 in absolute value, the
    indented text of [JSON.stringify] is read by [JSON.parse] as the same
    tree: keys, strings with their escapes, nesting and order. *)
Theorem parse_reads_pretty_text j :
  ints_exact j = true -> Parser.text (Text.pretty EmptyString j) = Normal j.
Proof. exact (text_pretty j). Qed.

Lemma parse_reads_pretty_text_witness :
  let j := JObject [("a b", JArray [JNumber (-12); JNull; JString (String Str.quote "x")]);
                    (EmptyString, JObject [("t", JBool true); ("e", JArray [])])] in
  ints_exact j = true /\ Parser.text (Text.pretty EmptyString j) = Normal j.
Proof.
  intros j. split; [reflexivity |].
  exact (parse_reads_pretty_text j eq_refl).
Defined.

Section EditSave.

Lemma compact_exact rows :
  forallb (fun row => exact_value (row_value row)) rows = true ->
  Forall (fun v => exact_value v = true) (map snd (compact rows)).
Proof.
  induction rows as [|row rows IH] using rev_ind; intros H; [constructor |].
  rewrite forallb_app in H. apply andb_prop in H as [Hrows Hrow].
  cbn in Hrow. rewrite andb_true_r in Hrow.
  rewrite compact_snoc.
  destruct (kept row && negb (String.eqb (key_string row) proto_key)); [| now apply IH].
  apply define_prop_values; [exact Hrow | now apply IH].
Qed.

Lemma members_of_exact ps :
  Forall (fun v => exact_value v = true) (map snd ps) ->
  forallb (fun kj : string * json => ints_exact kj.2) (members_of ps) = true.
Proof.
  unfold members_of. induction ps as [|[k v] ps IH]; [reflexivity |].
  cbn [map snd]. intros [Hv Hps]%Forall_cons. cbn.
  destruct v; cbn; rewrite ?IH by exact Hps; try reflexivity.
  cbn in Hv. now rewrite Hv.
Qed.

End EditSave.

(** X24: the buffer that Edit fills is read by Save as the object of the
    kept rows.  After a click on Edit in the viewing state, on a node with
    two rows or more, or one row with a key, or on no node, [JSON.parse] of
    the buffer is the object whose members are the rows with a key and a
    value that is a boolean, a number or a string: a Save without a change
    replaces the node by that object, without the rows that hold an object,
    an array or [null]. *)
Theorem edit_buffer_parses_to_kept_rows w :
  let rows := default [] (node_text <$> selectedNode w) in
  isEditing w = false ->
  match rows with [row] => key_truthy row | _ => true end = true ->
  forallb (fun row => exact_value (row_value row)) rows = true ->
  Parser.text (editedContent (click handleEditToggle w).1)
  = Normal (JObject (members_of (compact rows))).
Proof.
  intros rows Hview Hrows Hexact.
  destruct (click_edit w Hview Hrows) as [h E]. fold rows in E.
  rewrite E. cbn [fst editedContent].
  apply text_pretty. cbn [ints_exact].
  now apply members_of_exact, compact_exact.
Qed.

Lemma edit_buffer_parses_to_kept_rows_witness :
  let row k v := {| row_key := Some k; row_value := v; row_type := "default" |} in
  let node := {| node_id := "1";
                 node_text := [row "a" (VNumber 1); row "b" VNull; row "c" (VObject 0)];
                 node_path := Some [Key "n"] |} in
  let w := {| w_heap := [Obj []]; isEditing := false; editedContent := EmptyString;
              selectedNode := Some node; fullJson := "{}"; contents := Some "{}";
              calls := [] |} in
  isEditing w = false
  /\ forallb (fun row => exact_value (row_value row)) (node_text node) = true
  /\ Parser.text (editedContent (click handleEditToggle w).1)
     = Normal (JObject [("a", JNumber 1)])
  /\ Parser.text (editedContent (click handleEditToggle w).1)
     = Normal (JObject (members_of (compact (default [] (node_text <$> selectedNode w))))).
Proof.
  intros row node w. do 3 (split; [reflexivity |]).
  exact (edit_buffer_parses_to_kept_rows w eq_refl eq_refl eq_refl).
Defined.

(** X25: the text of a single row without a key is read back as its value.
    For a value that is [null], a boolean, a string or an integer below 2^53
    in absolute value, [JSON.parse] of what the normaliser returns is that
    value. *)
Theorem normalize_bare_row_reads_back row (h : heap) :
  key_truthy row = false ->
  (forall l, row_value row <> VObject l) -> row_value row <> VUndefined ->
  exact_value (row_value row) = true ->
  exists text,
    normalizeNodeData [row] h = (h, Normal (Some text))
    /\ JSON_parse text h = (h, Normal (row_value row)).
Proof.
  intros Hk Hobj Hundef Hexact.
  assert (N : normalizeNodeData [row] h
              = (h, Normal (Text.pretty EmptyString <$> scalar_json (row_value row)))).
  { unfold normalizeNodeData. cbn [length Nat.eqb]. rewrite Hk. cbn [negb andb].
    unfold stringify_pretty, bind, stringify, ret.
    destruct (row_value row) as [| | b | z | s | l];
      try (destruct (length h); reflexivity).
    now destruct (Hobj l). }
  rewrite N. clear N.
  destruct (row_value row) as [| | b | z | s | l] eqn:Ev;
    [congruence | | | | | now destruct (Hobj l)].
  all: eexists; (split; [reflexivity |]); unfold JSON_parse;
       rewrite text_pretty by exact Hexact; reflexivity.
Qed.

Lemma normalize_bare_row_reads_back_witness :
  let row := {| row_key := None; row_value := VString "a\b"; row_type := "default" |} in
  key_truthy row = false
  /\ exists text,
       normalizeNodeData [row] [] = ([], Normal (Some text))
       /\ JSON_parse text [] = ([], Normal (row_value row)).
Proof.
  intros row. split; [reflexivity |].
  exact (normalize_bare_row_reads_back row [] eq_refl
           ltac:(discriminate) ltac:(discriminate) eq_refl).
Defined.

Section TreeFacts.

Lemma agree_sub a b a' b' (g g' h : heap) :
  agree a' b' g' h -> a' <= a -> b <= b' -> b <= length g -> g `prefix_of` g' ->
  agree a b g h.
Proof.
  intros H Ha Hb Hl Hp l Hlt. rewrite (H l) by lia.
  destruct (lookup_lt_is_Some_2 g l ltac:(lia)) as [o Ho].
  rewrite Ho. eapply prefix_lookup_Some; eauto.
Qed.

Lemma reads_in_mono j v a a' (g g' : heap) :
  reads_in j v a g -> a' <= a -> g `prefix_of` g' -> reads_in j v a' g'.
Proof.
  intros Hr Ha Hp h fuel Hag Hf. apply Hr; [| exact Hf].
  eapply agree_sub; eauto. now apply prefix_length.
Qed.

Lemma thread_app {A B} (f : A -> heap -> heap * B) l1 l2 (h : heap) :
  thread f (l1 ++ l2) h
  = let '(g, ys1) := thread f l1 h in
    let '(h', ys2) := thread f l2 g in (h', ys1 ++ ys2).
Proof.
  revert h. induction l1 as [|x l1 IH]; intros h.
  - cbn. now destruct (thread f l2 h).
  - cbn. destruct (f x h) as [h1 y]. rewrite IH.
    destruct (thread f l1 h1) as [g ys1]. now destruct (thread f l2 g).
Qed.

Lemma thread_reads_in {A B} (f : A -> heap -> heap * B) (d : A -> nat)
      (R : A -> B -> nat -> heap -> Prop) l :
  (forall x y a a' (g g' : heap), R x y a g -> a' <= a -> g `prefix_of` g' -> R x y a' g') ->
  Forall (fun x => forall (g g' : heap) y, f x g = (g', y) ->
            g `prefix_of` g' /\ length g + d x <= length g' /\ R x y (length g) g') l ->
  forall (h h' : heap) ys, thread f l h = (h', ys) ->
    h `prefix_of` h' /\ length h + list_max (map d l) <= length h'
    /\ Forall2 (fun x y => R x y (length h) h') l ys.
Proof.
  intros Hmono. induction 1 as [|x l Hx Hl IH]; intros h h' ys E.
  - cbn in E. injection E as <- <-. repeat split; [reflexivity | cbn; lia | constructor].
  - cbn in E. destruct (f x h) as [h1 y] eqn:E1.
    destruct (thread f l h1) as [h2 ys'] eqn:E2. injection E as <- <-.
    destruct (Hx _ _ _ E1) as (P1 & L1 & R1).
    destruct (IH _ _ _ E2) as (P2 & L2 & R2).
    pose proof (prefix_length _ _ P1) as L01.
    pose proof (prefix_length _ _ P2) as L12.
    repeat split; [now transitivity h1 | |].
    + change (list_max (map d (x :: l))) with (Nat.max (d x) (list_max (map d l))).
      lia.
    + constructor; [eapply Hmono; eauto |].
      eapply Forall2_impl; [exact R2 |]. intros x' y' Hxy.
      eapply Hmono; [exact Hxy | lia | reflexivity].
Qed.

Lemma from_json_reads_in j : forall (h h' : heap) v,
  from_json j h = (h', v) -> reads_in j v (length h) h'.
Proof.
  induction j as [| b | z | s | items IH | members IH] using json_nested_ind;
    intros h h' v E.
  1-4: cbn in E; injection E as <- <-; intros h'' [|fuel] _ _; reflexivity.
  - cbn in E. destruct (thread from_json items h) as [h1 vs] eqn:E1.
    injection E as <- <-.
    destruct (thread_reads_in from_json depth reads_in items reads_in_mono) with
      (h := h) (h' := h1) (ys := vs) as (P1 & L1 & R1); [| exact E1 |].
    { eapply List.Forall_impl; [| exact IH]. intros j Hj g g' y Eg.
      destruct (from_json_reads _ _ _ _ Eg) as (Pg & Lg & _). eauto. }
    intros h'' fuel Hag Hf. cbn in Hf. destruct fuel as [|fuel]; [lia |].
    cbn.
    assert (Hl : h'' !! length h1 = Some (Arr vs [])).
    { rewrite (Hag (length h1)).
      - now apply list_lookup_middle.
      - rewrite length_app. cbn. pose proof (prefix_length _ _ P1). lia. }
    rewrite Hl.
    rewrite (cmapM_Forall2 _ normal items vs); [reflexivity |].
    assert (Hag1 : agree (length h) (length h1) h1 h'').
    { eapply agree_sub; [exact Hag | lia | rewrite length_app; lia | lia |].
      now apply prefix_app_r. }
    clear -R1 Hag1 Hf. revert Hf.
    induction R1 as [|j' v' items' vs' Hr _ IHR]; intros Hf; [constructor |].
    change (list_max (map depth (j' :: items')))
      with (Nat.max (depth j') (list_max (map depth items'))) in Hf.
    constructor; [| apply IHR; lia].
    rewrite (Hr h'' fuel); [reflexivity | exact Hag1 | lia].
  - cbn in E.
    set (f := fun (kj : string * json) (h : heap) =>
                let '(h1, v) := from_json kj.2 h in (h1, (kj.1, v))) in *.
    destruct (thread f members h) as [h1 kvs] eqn:E1.
    injection E as <- <-.
    destruct (thread_reads_in f (fun kj => depth kj.2)
                (fun x y a g => y.1 = x.1 /\ reads_in x.2 y.2 a g) members) with
      (h := h) (h' := h1) (ys := kvs) as (P1 & L1 & R1); [| | exact E1 |].
    { intros x y a a' g g' [Hk Hr] Ha Hp. split; [exact Hk | eapply reads_in_mono; eauto]. }
    { eapply List.Forall_impl; [| exact IH].
      intros [k j'] Hj g g' [k' v'] Eg. unfold f in Eg. cbn in Eg.
      destruct (from_json j' g) as [g1 v1] eqn:Eg1. injection Eg as <- <- <-.
      destruct (from_json_reads _ _ _ _ Eg1) as (Pg & Lg & _). cbn. eauto. }
    intros h'' fuel Hag Hfuel. cbn in Hfuel. destruct fuel as [|fuel]; [lia |].
    cbn.
    assert (Hl : h'' !! length h1 = Some (Obj (build_props kvs))).
    { rewrite (Hag (length h1)).
      - now apply list_lookup_middle.
      - rewrite length_app. cbn. pose proof (prefix_length _ _ P1). lia. }
    rewrite Hl.
    assert (Hag1 : agree (length h) (length h1) h1 h'').
    { eapply agree_sub; [exact Hag | lia | rewrite length_app; lia | lia |].
      now apply prefix_app_r. }
    set (R := fun (v' : value) (j' : json) => to_json fuel h'' v' = Normal (Some j')).
    assert (HR : Forall2 (same_keys R) kvs
                   (map (fun kj : string * json => (kj.1, normal kj.2)) members)).
    { clear -R1 Hag1 Hfuel. revert Hfuel.
      induction R1 as [|[k j'] [k' v'] ms kvs' [Hk Hr] _ IHR]; intros Hfuel;
        [constructor |].
      change (list_max (map (fun kj : string * json => depth kj.2) ((k, j') :: ms)))
        with (Nat.max (depth j')
                (list_max (map (fun kj : string * json => depth kj.2) ms))) in Hfuel.
      cbn in Hk, Hr. subst. cbn. constructor.
      - split; [reflexivity |]. cbn. unfold R. apply Hr; [exact Hag1 | lia].
      - apply IHR. lia. }
    apply build_props_same_keys in HR.
    rewrite (cmapM_Forall2 _ Some
               (build_props (map (fun kj : string * json => (kj.1, normal kj.2)) members))
               (build_props kvs)).
    + cbn. now rewrite omap_id_Some.
    + apply Forall2_flip. eapply Forall2_impl; [exact HR |].
      intros [k v'] [k' j'] [Hk Hv]. cbn in Hk, Hv. subst. unfold R in Hv.
      cbn. rewrite Hv. reflexivity.
Qed.

Lemma build_props_snoc {V} (l : list (string * V)) kv :
  build_props (l ++ [kv]) = define_prop kv.1 kv.2 (build_props l).
Proof. unfold build_props. now rewrite fold_left_app. Qed.

Lemma build_props_NoDup {V} (l : list (string * V)) : NoDup (map fst (build_props l)).
Proof.
  induction l as [|kv l IH] using rev_ind; [constructor |].
  rewrite build_props_snoc. now apply define_prop_NoDup.
Qed.

Lemma lookup_prop_app {V} k (l1 l2 : list (string * V)) :
  lookup_prop k (l1 ++ l2)
  = match lookup_prop k l1 with Some v => Some v | None => lookup_prop k l2 end.
Proof.
  induction l1 as [|[k1 v1] l1 IH]; [reflexivity |]. cbn.
  now destruct (String.eqb k1 k).
Qed.

Lemma build_props_lookup {V} (l : list (string * V)) k :
  NoDup (map fst l) -> lookup_prop k (build_props l) = lookup_prop k l.
Proof.
  induction l as [|[k1 v1] l IH] using rev_ind; intros Hnd; [reflexivity |].
  rewrite map_app in Hnd. apply NoDup_app in Hnd as (Hl & Hdisj & _).
  rewrite build_props_snoc, lookup_prop_app. cbn [fst snd lookup_prop].
  destruct (String.eqb_spec k1 k) as [->|Hne].
  - rewrite lookup_define_same.
    assert (Hnone : lookup_prop k l = None).
    { apply lookup_prop_None_keys. rewrite <- list_elem_of_In. intros Hin.
      apply (Hdisj k Hin). cbn. now left. }
    now rewrite Hnone.
  - rewrite lookup_define_other by exact Hne. rewrite (IH Hl).
    now destruct (lookup_prop k l).
Qed.

Lemma same_keys_of_keys {V W} (l : list (string * V)) (l' : list (string * W)) :
  map fst l = map fst l' -> Forall2 (same_keys (fun _ _ => True)) l l'.
Proof.
  revert l'. induction l as [|[k v] l IH]; intros [|[k' v'] l'] E; try discriminate;
    [constructor |].
  cbn in E. injection E as -> E. constructor; [now split | now apply IH].
Qed.

Lemma keys_of_same_keys {V W} (R : V -> W -> Prop) (l : list (string * V))
      (l' : list (string * W)) :
  Forall2 (same_keys R) l l' -> map fst l = map fst l'.
Proof.
  induction 1 as [|[k v] [k' v'] l l' [Hk _] _ IH]; [reflexivity |].
  cbn in Hk |- *. now rewrite Hk, IH.
Qed.

Lemma build_props_keys {V W} (l : list (string * V)) (l' : list (string * W)) :
  map fst l = map fst l' -> map fst (build_props l) = map fst (build_props l').
Proof.
  intros E. eapply keys_of_same_keys, build_props_same_keys, same_keys_of_keys, E.
Qed.

Lemma props_eq_by_lookup {V} (A B : list (string * V)) :
  map fst A = map fst B -> NoDup (map fst B) ->
  (forall k, lookup_prop k A = lookup_prop k B) -> A = B.
Proof.
  revert B. induction A as [|[k a] A IH]; intros [|[k' b] B] E Hnd Hl;
    try discriminate; [reflexivity |].
  cbn in E. injection E as <- E. cbn in Hnd. apply NoDup_cons in Hnd as [Hin Hnd].
  pose proof (Hl k) as Hk. cbn in Hk. rewrite String.eqb_refl in Hk.
  injection Hk as <-. f_equal. apply IH; [exact E | exact Hnd |].
  intros q. specialize (Hl q). cbn in Hl.
  destruct (String.eqb_spec k q) as [Eq|Hne]; [subst q | exact Hl].
  assert (HB : lookup_prop k B = None).
  { apply lookup_prop_None_keys. now rewrite <- list_elem_of_In. }
  assert (HA : lookup_prop k A = None).
  { apply lookup_prop_None_keys. rewrite E. now rewrite <- list_elem_of_In. }
  now rewrite HA, HB.
Qed.

(** A list that [build_props] leaves as it is stays so whatever its
    values. *)
Lemma build_props_fixed {V W} (l : list (string * V)) (l' : list (string * W)) :
  build_props l = l -> map fst l' = map fst l -> build_props l' = l'.
Proof.
  intros Hfix E.
  assert (Hnd : NoDup (map fst l')).
  { rewrite E, <- Hfix. apply build_props_NoDup. }
  apply props_eq_by_lookup; [| exact Hnd |].
  - rewrite (build_props_keys l' l E), Hfix. now symmetry.
  - intros k. now apply build_props_lookup.
Qed.

Lemma lookup_prop_fmap {V W} (f : V -> W) k (l : list (string * V)) :
  lookup_prop k (map (fun kv : string * V => (kv.1, f kv.2)) l) = f <$> lookup_prop k l.
Proof.
  induction l as [|[k1 v1] l IH]; [reflexivity |]. cbn.
  now destruct (String.eqb k1 k).
Qed.

Lemma lookup_prop_In_pair {V} k (v : V) l :
  NoDup (map fst l) -> In (k, v) l -> lookup_prop k l = Some v.
Proof.
  induction l as [|[k1 v1] l IH]; [contradiction |]. cbn.
  intros [Hin Hnd]%NoDup_cons [E | Hi].
  - injection E as -> ->. now rewrite String.eqb_refl.
  - destruct (String.eqb_spec k1 k) as [->|Hne]; [| now apply IH].
    exfalso. apply Hin. rewrite list_elem_of_In. now apply (in_map fst _ (k, v)).
Qed.

(** What the normal form of an object says of its members. *)
Lemma normal_object_inv members :
  normal (JObject members) = JObject members ->
  NoDup (map fst members)
  /\ Forall (fun kj : string * json => normal kj.2 = kj.2) members
  /\ build_props members = members.
Proof.
  intros Hn. cbn in Hn. injection Hn as Hn.
  set (g := fun kj : string * json => (kj.1, normal kj.2)) in *.
  assert (Hkeys : map fst (map g members) = map fst members).
  { rewrite map_map. reflexivity. }
  assert (Hnd : NoDup (map fst members)).
  { rewrite <- Hn at 1. apply build_props_NoDup. }
  assert (Hall : Forall (fun kj : string * json => normal kj.2 = kj.2) members).
  { apply List.Forall_forall. intros [k j] Hin. cbn.
    pose proof (lookup_prop_In_pair k j members Hnd Hin) as Hl.
    rewrite <- Hn in Hl at 1.
    rewrite build_props_lookup in Hl by (now rewrite Hkeys).
    unfold g in Hl. rewrite lookup_prop_fmap in Hl.
    rewrite (lookup_prop_In_pair k j members Hnd Hin) in Hl. cbn in Hl. congruence. }
  repeat split; [exact Hnd | exact Hall |].
  assert (Hmap : map g members = members).
  { clear -Hall. induction Hall as [|[k j] l Hj _ IH]; [reflexivity |].
    cbn in Hj |- *. unfold g at 1. cbn. now rewrite Hj, IH. }
  now rewrite Hmap in Hn.
Qed.

Lemma normal_array_inv items :
  normal (JArray items) = JArray items -> Forall (fun j => normal j = j) items.
Proof.
  intros Hn. cbn in Hn. injection Hn as Hn.
  induction items as [|j items IH]; [constructor |].
  cbn in Hn. injection Hn as Hj Hn. constructor; [exact Hj | now apply IH].
Qed.

Lemma lookup_prop_split {V} k (c : V) l :
  lookup_prop k l = Some c ->
  exists pre post, l = pre ++ (k, c) :: post /\ lookup_prop k pre = None.
Proof.
  induction l as [|[k1 v1] l IH]; [discriminate |]. cbn.
  destruct (String.eqb_spec k1 k) as [->|Hne].
  - intros [= ->]. now exists [], l.
  - intros H. destruct (IH H) as (pre & post & -> & Hp).
    exists ((k1, v1) :: pre), post. split; [reflexivity |]. cbn.
    destruct (String.eqb_spec k1 k); [contradiction | exact Hp].
Qed.

Lemma replace_prop_split {V} k (c r : V) pre post :
  lookup_prop k pre = None ->
  replace_prop k r (pre ++ (k, c) :: post) = pre ++ (k, r) :: post.
Proof.
  induction pre as [|[k1 v1] pre IH]; cbn.
  - now rewrite String.eqb_refl.
  - destruct (String.eqb k1 k); [discriminate |]. intros H. now rewrite IH.
Qed.

Lemma replace_prop_id {V} k (v : V) ps :
  lookup_prop k ps = Some v -> replace_prop k v ps = ps.
Proof.
  induction ps as [|[k1 v1] ps IH]; [reflexivity |]. cbn.
  destruct (String.eqb_spec k1 k) as [->|Hne].
  - now intros [= ->].
  - intros H. now rewrite IH.
Qed.

Lemma define_prop_id {V} k (v : V) ps :
  lookup_prop k ps = Some v -> define_prop k v ps = ps.
Proof. intros H. unfold define_prop. rewrite H. now apply replace_prop_id. Qed.

Lemma define_prop_present {V} k (c r : V) pre post :
  lookup_prop k pre = None ->
  define_prop k r (pre ++ (k, c) :: post) = pre ++ (k, r) :: post.
Proof.
  intros H. unfold define_prop. rewrite lookup_prop_app, H. cbn.
  rewrite String.eqb_refl. now apply replace_prop_split.
Qed.

End TreeFacts.

Section WalkFacts.

Lemma bind_assoc {A B C} (m : JS A) (f : A -> JS B) (g : B -> JS C) (h : heap) :
  bind (bind m f) g h = bind m (fun a => bind (f a) g) h.
Proof. unfold bind. destruct (m h) as [h1 [a| e |]]; reflexivity. Qed.

Lemma prefix_frame (hb h h' : heap) :
  hb `prefix_of` h -> length h <= length h' ->
  (forall a, a < length hb -> h' !! a = h !! a) -> hb `prefix_of` h'.
Proof.
  intros Hp Hl Hf. pose proof (prefix_length _ _ Hp) as Hlb.
  exists (drop (length hb) h').
  rewrite <- (take_drop (length hb) h') at 1. f_equal.
  apply list_eq. intros i. destruct (decide (i < length hb)) as [Hi|Hi].
  - rewrite lookup_take_lt by exact Hi. rewrite (Hf i Hi).
    destruct (lookup_lt_is_Some_2 hb i Hi) as [o Ho]. rewrite Ho.
    eapply prefix_lookup_Some; eauto.
  - rewrite lookup_take_ge by lia. symmetry. apply lookup_ge_None_2. lia.
Qed.

(** The threads of [JSON.parse] on the members of an object and on the items
    of an array. *)
Lemma thread_members_in (members : list (string * json)) (h h' : heap) kvs :
  thread (fun (kj : string * json) (h : heap) =>
            let '(h1, v) := from_json kj.2 h in (h1, (kj.1, v))) members h = (h', kvs) ->
  h `prefix_of` h'
  /\ length h + list_max (map (fun kj : string * json => depth kj.2) members) <= length h'
  /\ Forall2 (fun (kj : string * json) (kv : string * value) =>
                kv.1 = kj.1 /\ reads_in kj.2 kv.2 (length h) h') members kvs.
Proof.
  apply (thread_reads_in _ (fun kj => depth kj.2)
           (fun x y a g => y.1 = x.1 /\ reads_in x.2 y.2 a g) members).
  - intros x y a a' g g' [Hk Hr] Ha Hp. split; [exact Hk | eapply reads_in_mono; eauto].
  - apply List.Forall_forall. intros [k j] _ g g' [k' v'] Eg. cbn in Eg.
    destruct (from_json j g) as [g1 v1] eqn:Eg1. injection Eg as <- <- <-.
    destruct (from_json_reads _ _ _ _ Eg1) as (Pg & Lg & _).
    pose proof (from_json_reads_in _ _ _ _ Eg1). cbn. auto.
Qed.

Lemma thread_items_in (items : list json) (h h' : heap) vs :
  thread from_json items h = (h', vs) ->
  h `prefix_of` h'
  /\ length h + list_max (map depth items) <= length h'
  /\ Forall2 (fun j v => reads_in j v (length h) h') items vs.
Proof.
  apply (thread_reads_in from_json depth reads_in items reads_in_mono).
  apply List.Forall_forall. intros j _ g g' v' Eg.
  destruct (from_json_reads _ _ _ _ Eg) as (Pg & Lg & _).
  pose proof (from_json_reads_in _ _ _ _ Eg). auto.
Qed.

Lemma list_max_le {A} (d : A -> nat) l x : In x l -> d x <= list_max (map d l).
Proof.
  induction l as [|y l IH]; [contradiction |].
  change (list_max (map d (y :: l))) with (Nat.max (d y) (list_max (map d l))).
  intros [-> | Hin]; [lia | specialize (IH Hin); lia].
Qed.

(** The members, made from [a] on, on a heap that has them: each is written
    out as its text. *)
Lemma members_read (members : list (string * json)) kvs a (g h : heap) fuel :
  Forall2 (fun (kj : string * json) (kv : string * value) =>
             kv.1 = kj.1 /\ reads_in kj.2 kv.2 a g) members kvs ->
  Forall (fun kj : string * json => normal kj.2 = kj.2) members ->
  agree a (length g) g h ->
  list_max (map (fun kj : string * json => depth kj.2) members) <= fuel ->
  Forall2 (same_keys (fun v j => to_json fuel h v = Normal (Some j))) kvs members.
Proof.
  intros HF Hn Hag Hfuel. apply Forall2_flip.
  induction HF as [|[k j] [k' v] ms kvs' [Hk Hr] _ IH]; [constructor |].
  apply Forall_cons in Hn as [Hj Hn].
  change (list_max (map (fun kj : string * json => depth kj.2) ((k, j) :: ms)))
    with (Nat.max (depth j) (list_max (map (fun kj : string * json => depth kj.2) ms)))
    in Hfuel.
  cbn in Hk, Hr, Hj. subst. constructor; [| apply IH; [exact Hn | lia]].
  split; [reflexivity |]. cbn.
  transitivity (Normal (Some (normal j))); [apply Hr; [exact Hag | lia] | now rewrite Hj].
Qed.

Lemma items_read (items : list json) vs a (g h : heap) fuel :
  Forall2 (fun j v => reads_in j v a g) items vs ->
  Forall (fun j => normal j = j) items ->
  agree a (length g) g h ->
  list_max (map depth items) <= fuel ->
  Forall2 (fun v j => to_json fuel h v = Normal (Some j)) vs items.
Proof.
  intros HF Hn Hag Hfuel. apply Forall2_flip.
  induction HF as [|j v js vs' Hr _ IH]; [constructor |].
  apply Forall_cons in Hn as [Hj Hn].
  change (list_max (map depth (j :: js)))
    with (Nat.max (depth j) (list_max (map depth js))) in Hfuel.
  constructor; [| apply IH; [exact Hn | lia]].
  transitivity (Normal (Some (normal j))); [apply Hr; [exact Hag | lia] | now rewrite Hj].
Qed.

Lemma from_json_truthy j (h h' : heap) v :
  from_json j h = (h', v) -> truthy v = negb (falsy_scalar j).
Proof.
  destruct j as [| b | z | s | items | members]; cbn; intros E.
  1-4: injection E as <- <-; cbn; try reflexivity; now destruct b.
  - destruct (thread from_json items h). now injection E as <- <-.
  - destruct (thread _ members h). now injection E as <- <-.
Qed.

Lemma index_not_inherited k n es ps :
  array_index k = Some n -> inherited (Arr es ps) k = false.
Proof.
  intros Hi. apply not_true_is_false. intros Hin. unfold inherited in Hin.
  assert (Hname : In k (object_prototype_names ++ array_prototype_names)).
  { apply in_or_app. apply orb_prop in Hin as [H | H];
      apply existsb_exists in H as (x & Hx & Heq); apply String.eqb_eq in Heq;
      subst x; auto. }
  cbn in Hname.
  repeat (destruct Hname as [<- | Hname]; [discriminate Hi |]).
  exact Hname.
Qed.

(** One turn of the loop on a member or an element that is truthy: the heap
    is as it was. *)
Lemma step_keep_object (h : heap) l ps seg v :
  h !! l = Some (Obj ps) -> lookup_prop (property_key seg) ps = Some v ->
  truthy v = true -> step (VObject l) seg h = (h, Normal v).
Proof.
  intros Hl Hk Ht. unfold step, on_object.
  unfold bind at 1. rewrite (get_prop _ _ _ _ _ Hl Hk). rewrite Ht.
  unfold bind at 1, ret at 1. unfold bind.
  rewrite (put_prop h l ps _ _ Hl) by (rewrite Hk; cbn; apply andb_false_r).
  rewrite (define_prop_id _ _ _ Hk), list_insert_id by exact Hl. reflexivity.
Qed.

Lemma step_keep_array (h : heap) l es ps seg n v :
  h !! l = Some (Arr es ps) -> array_index (property_key seg) = Some n ->
  es !! N.to_nat n = Some v ->
  truthy v = true -> step (VObject l) seg h = (h, Normal v).
Proof.
  intros Hl Hi He Ht. unfold step, on_object.
  unfold bind at 1. unfold get. rewrite Hl. cbn [get_own]. rewrite Hi, He, Ht.
  unfold bind at 1, ret at 1. unfold bind, put. rewrite Hl, Hi.
  assert (Hlt : N.to_nat n < length es) by (eapply lookup_lt_Some; eauto).
  unfold set_elem. apply Nat.ltb_lt in Hlt. rewrite Hlt.
  rewrite (list_insert_id es _ _ He), list_insert_id by exact Hl. reflexivity.
Qed.

(** One turn of the loop on a member or an element that is absent or falsy:
    a new empty object is made and stored. *)
Lemma step_new_object (h : heap) l ps seg v0 :
  h !! l = Some (Obj ps) ->
  get l (property_key seg) h = (h, Normal v0) -> truthy v0 = false ->
  String.eqb (property_key seg) proto_key
  && negb (is_Some_bool (lookup_prop (property_key seg) ps)) = false ->
  step (VObject l) seg h
  = (<[l := Obj (define_prop (property_key seg) (VObject (length h)) ps)]> (h ++ [Obj []]),
     Normal (VObject (length h))).
Proof. intros Hl Hg Ht Hp. exact (step_vivify h l ps (property_key seg) v0 Hl Hg Ht Hp). Qed.

Lemma step_new_element (h : heap) l es ps seg n :
  h !! l = Some (Arr es ps) -> array_index (property_key seg) = Some n ->
  match es !! N.to_nat n with Some v0 => truthy v0 = false | None => True end ->
  step (VObject l) seg h
  = (<[l := Arr (set_elem (N.to_nat n) (VObject (length h)) es) ps]> (h ++ [Obj []]),
     Normal (VObject (length h))).
Proof.
  intros Hl Hi He. unfold step, on_object.
  unfold bind at 1. unfold get. rewrite Hl. cbn [get_own]. rewrite Hi.
  assert (Hl' : (h ++ [Obj []]) !! l = Some (Arr es ps)).
  { rewrite lookup_app_l; [exact Hl | eapply lookup_lt_Some, Hl]. }
  destruct (es !! N.to_nat n) as [v0|] eqn:Ev.
  - rewrite He. unfold bind at 1, alloc. unfold bind, put. now rewrite Hl', Hi.
  - rewrite (index_not_inherited _ _ _ _ Hi). cbn [truthy].
    unfold bind at 1, alloc. unfold bind, put. now rewrite Hl', Hi.
Qed.

End WalkFacts.

Section Walk.
Variable last : segment.
Variable new : json.
Variable P : value.
Variable Hb : heap.
Hypothesis HP : reads_as new P Hb.
Hypothesis HdP : depth new <= length Hb.

Lemma agree_after a b lo hi (g g' H H' : heap) :
  agree lo hi g' H -> g `prefix_of` g' -> lo <= a -> b <= length g -> b <= hi ->
  (forall l, a <= l < b -> H' !! l = H !! l) -> agree a b g H'.
Proof.
  intros Hag Hp Ha Hb1 Hb2 Hf l Hl. rewrite (Hf l Hl), (Hag l) by lia.
  destruct (lookup_lt_is_Some_2 g l ltac:(lia)) as [o Ho].
  rewrite Ho. eapply prefix_lookup_Some; eauto.
Qed.

Lemma member_keys (members : list (string * json)) (kvs : list (string * value))
      (Q : json -> value -> Prop) :
  Forall2 (fun (kj : string * json) (kv : string * value) =>
             kv.1 = kj.1 /\ Q kj.2 kv.2) members kvs ->
  map fst kvs = map fst members.
Proof.
  induction 1 as [|[k j] [k' v] ms kvs' [Hk _] _ IH]; [reflexivity |].
  cbn in Hk |- *. now rewrite Hk, IH.
Qed.

(** The new value is written out as its text on every heap that the walk
    makes. *)
Lemma new_value_read (H' : heap) fuel :
  Hb `prefix_of` H' -> depth new <= fuel -> to_json fuel H' P = Normal (Some (normal new)).
Proof. intros Hp Hf. now apply HP. Qed.

(** The final assignment to a member of an object. *)
Lemma walk_assign_member members (h h' : heap) v (H : heap) :
  from_json (JObject members) h = (h', v) ->
  normal (JObject members) = JObject members ->
  Hb `prefix_of` H -> length Hb <= length h ->
  agree (length h) (length h') h' H -> length h' <= length H ->
  walked last new P [] (JObject members) h h' v H.
Proof.
  intros E Hn Hpre HbLen Hag Hlen.
  destruct (normal_object_inv _ Hn) as (Hnd & Hall & Hfix).
  cbn in E.
  set (f := fun (kj : string * json) (h : heap) =>
              let '(h1, v) := from_json kj.2 h in (h1, (kj.1, v))) in *.
  destruct (thread f members h) as [g kvs] eqn:Et. injection E as <- <-.
  destruct (thread_members_in _ _ _ _ Et) as (Pg & Lg & HF).
  pose proof (prefix_length _ _ Pg) as Lhg.
  pose proof (member_keys members kvs (fun j v => reads_in j v (length h) g) HF) as Hkeys.
  rewrite (build_props_fixed members kvs Hfix Hkeys) in *.
  rewrite length_app in *. cbn [length] in *.
  assert (Hcell : H !! length g = Some (Obj kvs)).
  { rewrite (Hag (length g)) by lia. now apply list_lookup_middle. }
  unfold walked. rewrite ?length_app. cbn [length patch_tree assign_tree].
  set (k := property_key last).
  destruct (String.eqb k proto_key && negb (is_Some_bool (lookup_prop k members)))
    eqn:Hproto; [exact I |].
  cbn [write_tree].
  exists (<[length g := Obj (define_prop k P kvs)]> H).
  assert (Hproto' : String.eqb k proto_key && negb (is_Some_bool (lookup_prop k kvs)) = false).
  { rewrite <- Hproto. f_equal. f_equal.
    apply (lookup_prop_same_keys (fun _ _ => True)).
    apply same_keys_of_keys. now symmetry. }
  split; [| split; [| split]].
  - cbn [descend]. unfold bind at 1, ret at 1. unfold assign, set_property, on_object.
    fold k. now rewrite (put_prop _ _ _ k P Hcell Hproto').
  - now rewrite length_insert.
  - intros a Ha Hout. apply list_lookup_insert_ne. lia.
  - intros fuel Hfuel. rewrite length_insert in Hfuel.
    destruct fuel as [|fuel]; [lia |].
    apply (to_json_object _ (length g) (define_prop k P kvs)).
    + apply list_lookup_insert_eq. lia.
    + apply define_prop_same_keys.
      * apply new_value_read; [| lia]. apply prefix_insert; [exact Hpre | lia].
      * apply (members_read members kvs (length h) g); [exact HF | exact Hall | | lia].
        eapply agree_after; [exact Hag | now apply prefix_app_r | lia | lia | lia |].
        intros l Hl. apply list_lookup_insert_ne. lia.
Qed.

(** The final assignment to an element of an array. *)
Lemma walk_assign_element items (h h' : heap) v (H : heap) :
  from_json (JArray items) h = (h', v) ->
  normal (JArray items) = JArray items ->
  Hb `prefix_of` H -> length Hb <= length h ->
  agree (length h) (length h') h' H -> length h' <= length H ->
  walked last new P [] (JArray items) h h' v H.
Proof.
  intros E Hn Hpre HbLen Hag Hlen.
  pose proof (normal_array_inv _ Hn) as Hall.
  cbn in E. destruct (thread from_json items h) as [g vs] eqn:Et. injection E as <- <-.
  destruct (thread_items_in _ _ _ _ Et) as (Pg & Lg & HF).
  pose proof (prefix_length _ _ Pg) as Lhg.
  rewrite length_app in *. cbn [length] in *.
  assert (Hcell : H !! length g = Some (Arr vs [])).
  { rewrite (Hag (length g)) by lia. now apply list_lookup_middle. }
  unfold walked. rewrite ?length_app. cbn [length patch_tree assign_tree].
  set (k := property_key last).
  destruct (array_index k) as [n|] eqn:Hidx; [| exact I].
  cbn [write_tree]. rewrite Hidx.
  exists (<[length g := Arr (set_elem (N.to_nat n) P vs) []]> H).
  split; [| split; [| split]].
  - cbn [descend]. unfold bind at 1, ret at 1. unfold assign, set_property, on_object.
    fold k. unfold put. now rewrite Hcell, Hidx.
  - now rewrite length_insert.
  - intros a Ha Hout. apply list_lookup_insert_ne. lia.
  - intros fuel Hfuel. rewrite length_insert in Hfuel.
    destruct fuel as [|fuel]; [lia |].
    apply (to_json_array _ (length g) (set_elem (N.to_nat n) P vs) []).
    + apply list_lookup_insert_eq. lia.
    + apply set_elem_related.
      * set (H' := <[length g := Arr (set_elem (N.to_nat n) P vs) []]> H).
        assert (HR : Forall2 (fun v j => to_json fuel H' v = Normal (Some j)) vs items).
        { apply (items_read items vs (length h) g); [exact HF | exact Hall | | lia].
          eapply agree_after; [exact Hag | now apply prefix_app_r | lia | lia | lia |].
          intros l Hl. apply list_lookup_insert_ne. lia. }
        eapply Forall2_impl; [exact HR |]. cbn. intros x y ->. reflexivity.
      * rewrite new_value_read; [reflexivity | | lia].
        apply prefix_insert; [exact Hpre | lia].
      * destruct fuel; reflexivity.
Qed.

(** The walk on the text of a scalar. *)
Lemma walk_scalar segs j (h h' : heap) v (H : heap) :
  from_json j h = (h', v) -> scalar j = true ->
  walked last new P segs j h h' v H.
Proof.
  intros E Hs. unfold walked.
  destruct segs as [|seg rest].
  - cbn [patch_tree]. set (k := property_key last).
    destruct j as [| b | z | s | |]; try discriminate Hs;
      cbn in E; injection E as <- <-; cbn [assign_tree];
      try (destruct (String.eqb k proto_key) eqn:Hk; [exact I |]);
      exists H; cbn [descend]; unfold bind at 1, ret at 1;
      unfold assign, set_property, on_object; fold k; rewrite ?Hk; reflexivity.
  - cbn [patch_tree]. set (k := property_key seg).
    destruct j as [| b | z | s | |]; try discriminate Hs;
      cbn in E; injection E as <- <-; cbn [read_tree];
      try (destruct (String.eqb k proto_key) eqn:Hk; [exact I |]);
      cbn [cbind]; exists H; cbn [descend]; rewrite bind_assoc;
      unfold bind at 1, step, on_object; fold k; rewrite ?Hk; reflexivity.
Qed.

(** The walk goes on in a member that is there and is not falsy. *)
Lemma walk_enter_member seg rest members c (h h' : heap) v (H : heap) :
  (forall j (h h' : heap) v (H : heap),
     from_json j h = (h', v) -> normal j = j ->
     Hb `prefix_of` H -> length Hb <= length h ->
     agree (length h) (length h') h' H -> length h' <= length H ->
     walked last new P rest j h h' v H) ->
  from_json (JObject members) h = (h', v) ->
  normal (JObject members) = JObject members ->
  Hb `prefix_of` H -> length Hb <= length h ->
  agree (length h) (length h') h' H -> length h' <= length H ->
  lookup_prop (property_key seg) members = Some c -> falsy_scalar c = false ->
  walked last new P (seg :: rest) (JObject members) h h' v H.
Proof.
  intros IH E Hn Hpre HbLen Hag Hlen Hlook Hfalsy.
  destruct (normal_object_inv _ Hn) as (Hnd & Hall & Hfix).
  set (k := property_key seg) in *.
  assert (Htree : patch_tree (seg :: rest) last (normal new) (JObject members)
                  = cbind (patch_tree rest last (normal new) c)
                      (fun r => Normal (JObject (define_prop k r members)))).
  { cbn [patch_tree read_tree]. fold k. rewrite Hlook. cbn [cbind or_empty].
    now rewrite Hfalsy. }
  cbn in E.
  set (f := fun (kj : string * json) (h : heap) =>
              let '(h1, v) := from_json kj.2 h in (h1, (kj.1, v))) in *.
  destruct (thread f members h) as [g kvs] eqn:Et. injection E as <- <-.
  destruct (thread_members_in _ _ _ _ Et) as (Pg & Lg & HF).
  pose proof (member_keys members kvs (fun j v => reads_in j v (length h) g) HF) as Hkeys.
  rewrite (build_props_fixed members kvs Hfix Hkeys) in *. clear HF Lg.
  destruct (lookup_prop_split _ _ _ Hlook) as (pre & post & -> & Hpre_none).
  rewrite thread_app in Et.
  destruct (thread f pre h) as [g1 kvs1] eqn:Et1.
  cbn [thread] in Et. unfold f at 1 in Et. cbn [fst snd] in Et.
  destruct (from_json c g1) as [g2 vc] eqn:Ec.
  destruct (thread f post g2) as [g' kvs2] eqn:Et2.
  injection Et as -> <-.
  destruct (thread_members_in _ _ _ _ Et1) as (P1 & L1 & HF1).
  destruct (from_json_reads _ _ _ _ Ec) as (Pc & Lc & _).
  destruct (thread_members_in _ _ _ _ Et2) as (P2 & L2 & HF2).
  pose proof (prefix_length _ _ P1) as Lh1.
  pose proof (prefix_length _ _ Pc) as L12.
  pose proof (prefix_length _ _ P2) as L2g.
  apply Forall_app in Hall as [Hall1 Hall2]. apply Forall_cons in Hall2 as [Hc Hall2].
  cbn [snd] in Hc.
  rewrite length_app in *. cbn [length] in *.
  assert (Hcell : H !! length g = Some (Obj (kvs1 ++ (k, vc) :: kvs2))).
  { rewrite (Hag (length g)) by lia. now apply list_lookup_middle. }
  assert (Hk1 : lookup_prop k kvs1 = None).
  { apply lookup_prop_None_keys.
    rewrite (member_keys pre kvs1 (fun j v => reads_in j v (length h) g1) HF1).
    now apply lookup_prop_None_keys. }
  assert (Hkvc : lookup_prop k (kvs1 ++ (k, vc) :: kvs2) = Some vc).
  { rewrite lookup_prop_app, Hk1. cbn. now rewrite String.eqb_refl. }
  assert (Htruthy : truthy vc = true).
  { rewrite (from_json_truthy _ _ _ _ Ec), Hfalsy. reflexivity. }
  pose proof (step_keep_object H (length g) _ seg vc Hcell Hkvc Htruthy) as Hstep.
  assert (Pg2 : g2 `prefix_of` g ++ [Obj (kvs1 ++ (k, vc) :: kvs2)]).
  { transitivity g; [exact P2 | now apply prefix_app_r]. }
  assert (Hag2 : agree (length g1) (length g2) g2 H).
  { eapply agree_sub; [exact Hag | lia | lia | lia | exact Pg2]. }
  specialize (IH c g1 g2 vc H Ec Hc Hpre ltac:(lia) Hag2 ltac:(lia)).
  unfold walked in IH |- *. rewrite Htree. rewrite ?length_app. cbn [length].
  destruct (patch_tree rest last (normal new) c) as [rc| e |]; cbn [cbind]; [| | exact I].
  - destruct IH as (H' & Hrun & Hlen' & Hframe & Hread).
    exists H'. split; [| split; [| split]].
    + cbn [descend]. rewrite bind_assoc. unfold bind at 1. rewrite Hstep. exact Hrun.
    + exact Hlen'.
    + intros a Ha Hout. apply Hframe; [exact Ha | lia].
    + intros fuel Hfuel. destruct fuel as [|fuel]; [lia |].
      rewrite (define_prop_present k c rc pre post Hpre_none).
      apply (to_json_object H' (length g) (kvs1 ++ (k, vc) :: kvs2)).
      * rewrite Hframe by lia. exact Hcell.
      * apply Forall2_app; [| constructor].
        -- apply (members_read pre kvs1 (length h) g1); [exact HF1 | exact Hall1 | | lia].
           eapply agree_after; [exact Hag | | lia | lia | lia |].
           ++ transitivity g2; [exact Pc | exact Pg2].
           ++ intros l Hl. apply Hframe; lia.
        -- split; [reflexivity |]. cbn [snd]. apply Hread. lia.
        -- apply (members_read post kvs2 (length g2) g); [exact HF2 | exact Hall2 | | lia].
           eapply agree_after; [exact Hag | now apply prefix_app_r | lia | lia | lia |].
           intros l Hl. apply Hframe; lia.
  - destruct IH as (H' & Hrun). exists H'.
    cbn [descend]. rewrite bind_assoc. unfold bind at 1. rewrite Hstep. exact Hrun.
Qed.

(** The walk goes on in a new empty object where the member is absent, or
    is a falsy scalar. *)
Lemma walk_new_member seg rest members (h h' : heap) v (H : heap) :
  (forall j (h h' : heap) v (H : heap),
     from_json j h = (h', v) -> normal j = j ->
     Hb `prefix_of` H -> length Hb <= length h ->
     agree (length h) (length h') h' H -> length h' <= length H ->
     walked last new P rest j h h' v H) ->
  from_json (JObject members) h = (h', v) ->
  normal (JObject members) = JObject members ->
  Hb `prefix_of` H -> length Hb <= length h ->
  agree (length h) (length h') h' H -> length h' <= length H ->
  match lookup_prop (property_key seg) members with
  | Some c => falsy_scalar c = true
  | None => mem_string (property_key seg) object_prototype_names = false
  end ->
  walked last new P (seg :: rest) (JObject members) h h' v H.
Proof.
  intros IH E Hn Hpre HbLen Hag Hlen Hviv.
  destruct (normal_object_inv _ Hn) as (Hnd & Hall & Hfix).
  set (k := property_key seg) in *.
  assert (Htree : patch_tree (seg :: rest) last (normal new) (JObject members)
                  = cbind (patch_tree rest last (normal new) (JObject []))
                      (fun r => Normal (JObject (define_prop k r members)))).
  { cbn [patch_tree read_tree]. fold k.
    destruct (lookup_prop k members) as [c|]; [| rewrite Hviv]; cbn [cbind or_empty];
      [now rewrite Hviv | reflexivity]. }
  cbn in E.
  set (f := fun (kj : string * json) (h : heap) =>
              let '(h1, v) := from_json kj.2 h in (h1, (kj.1, v))) in *.
  destruct (thread f members h) as [g kvs] eqn:Et. injection E as <- <-.
  destruct (thread_members_in _ _ _ _ Et) as (Pg & Lg & HF).
  pose proof (member_keys members kvs (fun j v => reads_in j v (length h) g) HF) as Hkeys.
  rewrite (build_props_fixed members kvs Hfix Hkeys) in *.
  pose proof (prefix_length _ _ Pg) as Lhg.
  rewrite length_app in *. cbn [length] in *.
  assert (Hcell : H !! length g = Some (Obj kvs)).
  { rewrite (Hag (length g)) by lia. now apply list_lookup_middle. }
  (* the read gives [undefined] or a falsy value *)
  assert (Hget : exists v0, get (length g) k H = (H, Normal v0) /\ truthy v0 = false
                            /\ String.eqb k proto_key
                               && negb (is_Some_bool (lookup_prop k kvs)) = false).
  { assert (HR : Forall2 (same_keys (fun v j => to_json (length g) H v = Normal (Some j)))
                   kvs members).
    { apply (members_read members kvs (length h) g); [exact HF | exact Hall | | lia].
      eapply agree_after; [exact Hag | now apply prefix_app_r | lia | lia | lia |].
      reflexivity. }
    pose proof (lookup_prop_related _ k kvs members HR) as Hrel.
    destruct (lookup_prop k members) as [c|] eqn:Hm;
      destruct (lookup_prop k kvs) as [vf|] eqn:Hp; try contradiction.
    - exists vf. split; [eapply get_prop; eauto |]. split.
      + eapply to_json_falsy; [exact Hrel | exact Hviv].
      + cbn. apply andb_false_r.
    - exists VUndefined. split; [eapply get_absent; eauto |]. split; [reflexivity |].
      now rewrite (not_prototype_not_proto _ Hviv). }
  destruct Hget as (v0 & Hget & Hfalsy & Hproto).
  pose proof (step_new_object H (length g) kvs seg v0 Hcell Hget Hfalsy Hproto) as Hstep.
  fold k in Hstep.
  set (G := <[length g := Obj (define_prop k (VObject (length H)) kvs)]> (H ++ [Obj []]))
    in *.
  assert (HlenG : length G = S (length H)).
  { unfold G. rewrite length_insert, length_app. cbn. lia. }
  assert (HpreG : Hb `prefix_of` G).
  { unfold G. apply prefix_insert; [| lia]. transitivity H; [exact Hpre |].
    now apply prefix_app_r. }
  assert (HagG : agree (length H) (length (H ++ [Obj []])) (H ++ [Obj []]) G).
  { intros l Hl. unfold G. apply list_lookup_insert_ne. lia. }
  specialize (IH (JObject []) H (H ++ [Obj []]) (VObject (length H)) G
                eq_refl eq_refl HpreG ltac:(lia) HagG).
  rewrite length_app in IH. cbn [length] in IH. specialize (IH ltac:(lia)).
  unfold walked in IH |- *. rewrite Htree. rewrite ?length_app in *. cbn [length] in *.
  destruct (patch_tree rest last (normal new) (JObject [])) as [rc| e |]; cbn [cbind];
    [| | exact I].
  - destruct IH as (H' & Hrun & Hlen' & Hframe & Hread).
    assert (HcellG : G !! length g = Some (Obj (define_prop k (VObject (length H)) kvs))).
    { unfold G. apply list_lookup_insert_eq. rewrite length_app. lia. }
    exists H'. split; [| split; [| split]].
    + cbn [descend]. rewrite bind_assoc. unfold bind at 1. rewrite Hstep. exact Hrun.
    + lia.
    + intros a Ha Hout. rewrite Hframe by lia. unfold G.
      rewrite list_lookup_insert_ne by lia. now apply lookup_app_l.
    + intros fuel Hfuel. destruct fuel as [|fuel]; [lia |].
      apply (to_json_object H' (length g) (define_prop k (VObject (length H)) kvs)).
      * rewrite Hframe by lia. exact HcellG.
      * apply define_prop_same_keys; [apply Hread; lia |].
        apply (members_read members kvs (length h) g); [exact HF | exact Hall | | lia].
        eapply agree_after; [exact Hag | now apply prefix_app_r | lia | lia | lia |].
        intros l Hl. rewrite Hframe by lia. unfold G.
        rewrite list_lookup_insert_ne by lia. apply lookup_app_l. lia.
  - destruct IH as (H' & Hrun). exists H'.
    cbn [descend]. rewrite bind_assoc. unfold bind at 1. rewrite Hstep. exact Hrun.
Qed.

Lemma read_as_element (H' : heap) fuel vs items :
  Forall2 (fun v j => to_json fuel H' v = Normal (Some j)) vs items ->
  Forall2 (fun v j => cbind (to_json fuel H' v) (fun oj => Normal (default JNull oj))
                      = Normal j) vs items.
Proof. intros HR. eapply Forall2_impl; [exact HR |]. cbn. now intros x y ->. Qed.

Lemma set_item_middle (pre post : list json) c r :
  set_item (length pre) r (pre ++ c :: post) = pre ++ r :: post.
Proof.
  unfold set_item. rewrite length_app. cbn [length].
  assert (Hlt : (length pre <? length pre + S (length post))%nat = true)
    by (apply Nat.ltb_lt; lia).
  rewrite Hlt, insert_app_r_alt by lia. now rewrite Nat.sub_diag.
Qed.

(** The walk goes on in an element that is there and is not falsy. *)
Lemma walk_enter_element seg rest items n c (h h' : heap) v (H : heap) :
  (forall j (h h' : heap) v (H : heap),
     from_json j h = (h', v) -> normal j = j ->
     Hb `prefix_of` H -> length Hb <= length h ->
     agree (length h) (length h') h' H -> length h' <= length H ->
     walked last new P rest j h h' v H) ->
  from_json (JArray items) h = (h', v) ->
  normal (JArray items) = JArray items ->
  Hb `prefix_of` H -> length Hb <= length h ->
  agree (length h) (length h') h' H -> length h' <= length H ->
  array_index (property_key seg) = Some n ->
  items !! N.to_nat n = Some c -> falsy_scalar c = false ->
  walked last new P (seg :: rest) (JArray items) h h' v H.
Proof.
  intros IH E Hn Hpre HbLen Hag Hlen Hidx Hlook Hfalsy.
  pose proof (normal_array_inv _ Hn) as Hall.
  set (k := property_key seg) in *.
  assert (Htree : patch_tree (seg :: rest) last (normal new) (JArray items)
                  = cbind (patch_tree rest last (normal new) c)
                      (fun r => Normal (JArray (set_item (N.to_nat n) r items)))).
  { cbn [patch_tree read_tree write_tree]. fold k. rewrite Hidx, Hlook.
    cbn [cbind or_empty]. now rewrite Hfalsy. }
  cbn in E. destruct (thread from_json items h) as [g vs] eqn:Et. injection E as <- <-.
  pose proof (take_drop_middle _ _ _ Hlook) as Hsplit.
  assert (Hlenpre : length (take (N.to_nat n) items) = N.to_nat n).
  { apply length_take_le. apply lookup_lt_Some in Hlook. lia. }
  set (pre := take (N.to_nat n) items) in *.
  set (post := drop (S (N.to_nat n)) items) in *.
  rewrite <- Hsplit in Et, Hall, Htree |- *. clear Hsplit Hlook.
  rewrite <- Hlenpre in Htree.
  rewrite thread_app in Et.
  destruct (thread from_json pre h) as [g1 vs1] eqn:Et1.
  cbn [thread] in Et.
  destruct (from_json c g1) as [g2 vc] eqn:Ec.
  destruct (thread from_json post g2) as [g' vs2] eqn:Et2.
  injection Et as -> <-.
  destruct (thread_items_in _ _ _ _ Et1) as (P1 & L1 & HF1).
  destruct (from_json_reads _ _ _ _ Ec) as (Pc & Lc & _).
  destruct (thread_items_in _ _ _ _ Et2) as (P2 & L2 & HF2).
  pose proof (prefix_length _ _ P1) as Lh1.
  pose proof (prefix_length _ _ Pc) as L12.
  pose proof (prefix_length _ _ P2) as L2g.
  apply Forall_app in Hall as [Hall1 Hall2]. apply Forall_cons in Hall2 as [Hc Hall2].
  rewrite length_app in *. cbn [length] in *.
  assert (Hcell : H !! length g = Some (Arr (vs1 ++ vc :: vs2) [])).
  { rewrite (Hag (length g)) by lia. now apply list_lookup_middle. }
  assert (Hvc : (vs1 ++ vc :: vs2) !! N.to_nat n = Some vc).
  { apply list_lookup_middle. rewrite <- Hlenpre.
    exact (Forall2_length _ _ _ HF1). }
  assert (Htruthy : truthy vc = true).
  { rewrite (from_json_truthy _ _ _ _ Ec), Hfalsy. reflexivity. }
  pose proof (step_keep_array H (length g) _ [] seg n vc Hcell Hidx Hvc Htruthy) as Hstep.
  assert (Pg2 : g2 `prefix_of` g ++ [Arr (vs1 ++ vc :: vs2) []]).
  { transitivity g; [exact P2 | now apply prefix_app_r]. }
  assert (Hag2 : agree (length g1) (length g2) g2 H).
  { eapply agree_sub; [exact Hag | lia | lia | lia | exact Pg2]. }
  specialize (IH c g1 g2 vc H Ec Hc Hpre ltac:(lia) Hag2 ltac:(lia)).
  unfold walked in IH |- *. rewrite Htree. rewrite ?length_app. cbn [length].
  destruct (patch_tree rest last (normal new) c) as [rc| e |]; cbn [cbind]; [| | exact I].
  - destruct IH as (H' & Hrun & Hlen' & Hframe & Hread).
    exists H'. split; [| split; [| split]].
    + cbn [descend]. rewrite bind_assoc. unfold bind at 1. rewrite Hstep. exact Hrun.
    + exact Hlen'.
    + intros a Ha Hout. apply Hframe; [exact Ha | lia].
    + intros fuel Hfuel. destruct fuel as [|fuel]; [lia |].
      rewrite set_item_middle.
      apply (to_json_array H' (length g) (vs1 ++ vc :: vs2) []).
      * rewrite Hframe by lia. exact Hcell.
      * apply read_as_element. apply Forall2_app; [| constructor].
        -- apply (items_read pre vs1 (length h) g1); [exact HF1 | exact Hall1 | | lia].
           eapply agree_after; [exact Hag | | lia | lia | lia |].
           ++ transitivity g2; [exact Pc | exact Pg2].
           ++ intros l Hl. apply Hframe; lia.
        -- apply Hread. lia.
        -- apply (items_read post vs2 (length g2) g); [exact HF2 | exact Hall2 | | lia].
           eapply agree_after; [exact Hag | now apply prefix_app_r | lia | lia | lia |].
           intros l Hl. apply Hframe; lia.
  - destruct IH as (H' & Hrun). exists H'.
    cbn [descend]. rewrite bind_assoc. unfold bind at 1. rewrite Hstep. exact Hrun.
Qed.

(** The walk goes on in a new empty object where the element is absent, or
    is a falsy scalar. *)
Lemma walk_new_element seg rest items n (h h' : heap) v (H : heap) :
  (forall j (h h' : heap) v (H : heap),
     from_json j h = (h', v) -> normal j = j ->
     Hb `prefix_of` H -> length Hb <= length h ->
     agree (length h) (length h') h' H -> length h' <= length H ->
     walked last new P rest j h h' v H) ->
  from_json (JArray items) h = (h', v) ->
  normal (JArray items) = JArray items ->
  Hb `prefix_of` H -> length Hb <= length h ->
  agree (length h) (length h') h' H -> length h' <= length H ->
  array_index (property_key seg) = Some n ->
  match items !! N.to_nat n with
  | Some c => falsy_scalar c = true
  | None => True
  end ->
  walked last new P (seg :: rest) (JArray items) h h' v H.
Proof.
  intros IH E Hn Hpre HbLen Hag Hlen Hidx Hviv.
  pose proof (normal_array_inv _ Hn) as Hall.
  set (k := property_key seg) in *.
  assert (Htree : patch_tree (seg :: rest) last (normal new) (JArray items)
                  = cbind (patch_tree rest last (normal new) (JObject []))
                      (fun r => Normal (JArray (set_item (N.to_nat n) r items)))).
  { cbn [patch_tree read_tree write_tree]. fold k. rewrite Hidx. cbn [cbind].
    destruct (items !! N.to_nat n) as [c|]; cbn [or_empty]; [now rewrite Hviv | reflexivity]. }
  cbn in E. destruct (thread from_json items h) as [g vs] eqn:Et. injection E as <- <-.
  destruct (thread_items_in _ _ _ _ Et) as (Pg & Lg & HF).
  pose proof (prefix_length _ _ Pg) as Lhg.
  rewrite length_app in *. cbn [length] in *.
  assert (Hcell : H !! length g = Some (Arr vs [])).
  { rewrite (Hag (length g)) by lia. now apply list_lookup_middle. }
  assert (HR0 : Forall2 (fun v j => to_json (length g) H v = Normal (Some j)) vs items).
  { apply (items_read items vs (length h) g); [exact HF | exact Hall | | lia].
    eapply agree_after; [exact Hag | now apply prefix_app_r | lia | lia | lia |].
    reflexivity. }
  assert (Hfalsy : match vs !! N.to_nat n with
                   | Some v0 => truthy v0 = false
                   | None => True
                   end).
  { destruct (vs !! N.to_nat n) as [v0|] eqn:Ev; [| exact I].
    destruct (Forall2_lookup_l _ _ _ _ _ HR0 Ev) as (c & Hc & Hread).
    rewrite Hc in Hviv. eapply to_json_falsy; eauto. }
  pose proof (step_new_element H (length g) vs [] seg n Hcell Hidx Hfalsy) as Hstep.
  set (G := <[length g := Arr (set_elem (N.to_nat n) (VObject (length H)) vs) []]>
              (H ++ [Obj []])) in *.
  assert (HlenG : length G = S (length H)).
  { unfold G. rewrite length_insert, length_app. cbn. lia. }
  assert (HpreG : Hb `prefix_of` G).
  { unfold G. apply prefix_insert; [| lia]. transitivity H; [exact Hpre |].
    now apply prefix_app_r. }
  assert (HagG : agree (length H) (length (H ++ [Obj []])) (H ++ [Obj []]) G).
  { intros l Hl. unfold G. apply list_lookup_insert_ne. lia. }
  specialize (IH (JObject []) H (H ++ [Obj []]) (VObject (length H)) G
                eq_refl eq_refl HpreG ltac:(lia) HagG).
  rewrite length_app in IH. cbn [length] in IH. specialize (IH ltac:(lia)).
  unfold walked in IH |- *. rewrite Htree. rewrite ?length_app in *. cbn [length] in *.
  destruct (patch_tree rest last (normal new) (JObject [])) as [rc| e |]; cbn [cbind];
    [| | exact I].
  - destruct IH as (H' & Hrun & Hlen' & Hframe & Hread).
    assert (HcellG : G !! length g
                     = Some (Arr (set_elem (N.to_nat n) (VObject (length H)) vs) [])).
    { unfold G. apply list_lookup_insert_eq. rewrite length_app. lia. }
    exists H'. split; [| split; [| split]].
    + cbn [descend]. rewrite bind_assoc. unfold bind at 1. rewrite Hstep. exact Hrun.
    + lia.
    + intros a Ha Hout. rewrite Hframe by lia. unfold G.
      rewrite list_lookup_insert_ne by lia. now apply lookup_app_l.
    + intros fuel Hfuel. destruct fuel as [|fuel]; [lia |].
      apply (to_json_array H' (length g) (set_elem (N.to_nat n) (VObject (length H)) vs) []).
      * rewrite Hframe by lia. exact HcellG.
      * apply set_elem_related.
        -- apply read_as_element.
           apply (items_read items vs (length h) g); [exact HF | exact Hall | | lia].
           eapply agree_after; [exact Hag | now apply prefix_app_r | lia | lia | lia |].
           intros l Hl. rewrite Hframe by lia. unfold G.
           rewrite list_lookup_insert_ne by lia. apply lookup_app_l. lia.
        -- rewrite Hread by lia. reflexivity.
        -- destruct fuel; reflexivity.
  - destruct IH as (H' & Hrun). exists H'.
    cbn [descend]. rewrite bind_assoc. unfold bind at 1. rewrite Hstep. exact Hrun.
Qed.

(** The walk and the final assignment, on the value of every text in
    normal form. *)
Lemma walk segs : forall j (h h' : heap) v (H : heap),
  from_json j h = (h', v) -> normal j = j ->
  Hb `prefix_of` H -> length Hb <= length h ->
  agree (length h) (length h') h' H -> length h' <= length H ->
  walked last new P segs j h h' v H.
Proof.
  induction segs as [|seg rest IH]; intros j h h' v H E Hn Hpre HbLen Hag Hlen.
  - destruct j as [| b | z | s | items | members].
    1-4: now apply walk_scalar.
    + now apply walk_assign_element.
    + now apply walk_assign_member.
  - destruct j as [| b | z | s | items | members].
    1-4: now apply walk_scalar.
    + destruct (array_index (property_key seg)) as [n|] eqn:Hidx.
      * destruct (items !! N.to_nat n) as [c|] eqn:Hc.
        -- destruct (falsy_scalar c) eqn:Hf.
           ++ eapply walk_new_element; eauto. now rewrite Hc.
           ++ eapply walk_enter_element; eauto.
        -- eapply walk_new_element; eauto. now rewrite Hc.
      * unfold walked. cbn [patch_tree read_tree]. rewrite Hidx. exact I.
    + destruct (lookup_prop (property_key seg) members) as [c|] eqn:Hc.
      * destruct (falsy_scalar c) eqn:Hf.
        -- eapply walk_new_member; eauto. now rewrite Hc.
        -- eapply walk_enter_member; eauto.
      * destruct (mem_string (property_key seg) object_prototype_names) eqn:Hm.
        -- unfold walked. cbn [patch_tree read_tree]. rewrite Hc, Hm. exact I.
        -- eapply walk_new_member; eauto. now rewrite Hc.
Qed.

End Walk.

Section TreeRefinement.

(** The patcher on two values that are written out as [doc] and [new]: it
    ends as the patch on texts does, and the value it returns is written out
    as the result of that patch. *)
Lemma updateJsonAtPath_tree (Hb : heap) D P doc new segs last :
  reads_as doc D Hb -> depth doc <= length Hb ->
  reads_as new P Hb -> depth new <= length Hb ->
  normal doc = doc -> forallb segment_safe (segs ++ [last]) = true ->
  match patch_tree segs last (normal new) doc with
  | Normal r =>
      exists (H' : heap) U,
        updateJsonAtPath D (jsonPathToString (Some (segs ++ [last]))) P Hb
        = (H', Normal U)
        /\ Hb `prefix_of` H'
        /\ to_json (length H') H' U = Normal (Some r)
  | Throw e =>
      exists H' : heap,
        updateJsonAtPath D (jsonPathToString (Some (segs ++ [last]))) P Hb
        = (H', Throw e)
  | Unsupported => True
  end.
Proof.
  intros HD HdD HP HdP Hn Hsafe.
  assert (Hne : segs ++ [last] <> []) by (now destruct segs).
  destruct (from_json doc Hb) as [h3 c] eqn:E3.
  assert (Hcode : updateJsonAtPath D (jsonPathToString (Some (segs ++ [last]))) P Hb
                  = (current <- descend segs c ;;
                     assign current last P ;;; ret c)%js h3).
  { unfold updateJsonAtPath.
    rewrite jsonPathToString_nonempty, (pathSegments_rendered _ Hne Hsafe).
    rewrite removelast_last. unfold last_segment. rewrite last_last.
    unfold bind at 1, clone. unfold bind at 1, stringify at 1.
    rewrite (HD Hb (length Hb)) by (reflexivity || exact HdD). rewrite Hn.
    unfold parse. now rewrite E3. }
  rewrite Hcode. clear Hcode.
  destruct (from_json_reads _ _ _ _ E3) as (P3 & L3 & _).
  pose proof (prefix_length _ _ P3) as Lb3.
  pose proof (walk last new P Hb HP HdP segs doc Hb h3 c h3 E3 Hn P3
                ltac:(lia) ltac:(intros l _; reflexivity) ltac:(lia)) as Hw.
  unfold walked in Hw.
  destruct (patch_tree segs last (normal new) doc) as [r| e |]; [| | exact I].
  - destruct Hw as (H' & Hrun & Hlen & Hframe & Hread).
    exists H', c. unfold bind in Hrun |- *.
    destruct (descend segs c h3) as [h4 [current| e |]]; try discriminate Hrun.
    split; [now rewrite Hrun |]. split.
    + apply (prefix_frame Hb h3 H' P3 Hlen). intros a Ha. apply Hframe; lia.
    + apply Hread. lia.
  - destruct Hw as (H' & Hrun). exists H'. unfold bind in Hrun |- *.
    destruct (descend segs c h3) as [h4 [current| e' |]];
      [now rewrite Hrun | now injection Hrun as -> -> | discriminate Hrun].
Qed.

Lemma thread_defined items : forall (h h' : heap) vs,
  thread from_json items h = (h', vs) -> existsb is_undefined vs = false.
Proof.
  induction items as [|j items IH]; intros h h' vs E.
  - cbn in E. now injection E as <- <-.
  - cbn in E. destruct (from_json j h) as [h1 v] eqn:E1.
    destruct (thread from_json items h1) as [h2 vs'] eqn:E2. injection E as <- <-.
    cbn. rewrite (IH _ _ _ E2), orb_false_r.
    destruct j as [| b | z | s | l | l]; cbn in E1.
    1-4: now injection E1 as <- <-.
    + destruct (thread from_json l h). now injection E1 as <- <-.
    + destruct (thread _ l h). now injection E1 as <- <-.
Qed.

(** [Object.entries] on a parsed value other than [null] returns. *)
Lemma entries_of_parsed new (h h1 H' : heap) P :
  from_json new h = (h1, P) -> new <> JNull -> h1 `prefix_of` H' ->
  exists entries, Object_entries P H' = (H', Normal entries).
Proof.
  intros E Hnull Hp. unfold Object_entries.
  destruct new as [| b | z | s | items | members]; [congruence | | | | |]; cbn in E.
  1-3: injection E as <- <-; eauto.
  - destruct (thread from_json items h) as [g vs] eqn:Et. injection E as <- <-.
    rewrite (prefix_lookup_Some _ _ _ _ (list_lookup_middle g [] (Arr vs []) _ eq_refl) Hp).
    rewrite (thread_defined _ _ _ _ Et). eauto.
  - destruct (thread _ members h) as [g kvs] eqn:Et. injection E as <- <-.
    rewrite (prefix_lookup_Some _ _ _ _
               (list_lookup_middle g [] (Obj (build_props kvs)) _ eq_refl) Hp).
    eauto.
Qed.

(** The patcher, from texts to a text, agrees with the patch on texts. *)
Lemma patch_agrees doc new segs last :
  normal doc = doc -> forallb segment_safe (segs ++ [last]) = true ->
  (forall r, patch_tree segs last (normal new) doc = Normal r ->
             patch doc (jsonPathToString (Some (segs ++ [last]))) new = Normal (Some r))
  /\ (forall e, patch_tree segs last (normal new) doc = Throw e ->
                patch doc (jsonPathToString (Some (segs ++ [last]))) new = Throw e).
Proof.
  intros Hn Hsafe.
  destruct (from_json doc []) as [h1 D] eqn:E1.
  destruct (from_json new h1) as [h2 P] eqn:E2.
  destruct (from_json_reads _ _ _ _ E1) as (P1 & L1 & R1).
  destruct (from_json_reads _ _ _ _ E2) as (P2 & L2 & R2).
  pose proof (prefix_length _ _ P2) as L12.
  pose proof (updateJsonAtPath_tree h2 D P doc new segs last
                (reads_as_prefix _ _ _ _ R1 P2) ltac:(cbn in L1; lia) R2 ltac:(lia)
                Hn Hsafe) as Hu.
  assert (Hpatch : patch doc (jsonPathToString (Some (segs ++ [last]))) new
                   = ((r <- updateJsonAtPath D (jsonPathToString (Some (segs ++ [last]))) P ;;
                       stringify r)%js h2).2).
  { unfold patch, bind at 1, parse. rewrite E1. unfold bind at 1. now rewrite E2. }
  rewrite Hpatch. unfold bind. split.
  - intros r Hr. rewrite Hr in Hu. destruct Hu as (H' & U & Hupd & _ & Hread).
    rewrite Hupd. exact Hread.
  - intros e He. rewrite He in Hu. destruct Hu as (H' & Hupd). now rewrite Hupd.
Qed.

(** A Save on a buffer and a document that parse, for a path on which the
    patch on texts has a result. *)
Lemma save_patched w doc new node segs last r :
  Parser.text (editedContent w) = Normal new ->
  Parser.text (fullJson w) = Normal doc ->
  normal doc = doc ->
  selectedNode w = Some node -> node_path node = Some (segs ++ [last]) ->
  forallb segment_safe (segs ++ [last]) = true ->
  patch_tree segs last (normal new) doc = Normal r ->
  new <> JNull ->
  exists w',
    handleSave w = (w', Normal tt)
    /\ contents w' = Some (Text.pretty EmptyString r)
    /\ calls w' = calls w ++ [SetContents (Some (Text.pretty EmptyString r));
                              SetGraphState; ToastSuccess updated_json]
    /\ isEditing w' = false /\ editedContent w' = editedContent w.
Proof.
  intros Hnew Hdoc Hn Hsel Hpath Hsafe Hr Hnull.
  destruct (from_json new (w_heap w)) as [h1 P] eqn:E1.
  destruct (from_json doc h1) as [h2 D] eqn:E2.
  destruct (from_json_reads _ _ _ _ E1) as (P1 & L1 & R1).
  destruct (from_json_reads _ _ _ _ E2) as (P2 & L2 & R2).
  pose proof (prefix_length _ _ P2) as L12.
  pose proof (updateJsonAtPath_tree h2 D P doc new segs last
                R2 ltac:(lia) (reads_as_prefix _ _ _ _ R1 P2) ltac:(lia)
                Hn Hsafe) as Hu.
  rewrite Hr in Hu. destruct Hu as (H' & U & Hupd & Pre & Hread).
  destruct (entries_of_parsed new _ _ H' P E1 Hnull) as [entries Hent];
    [now transitivity h2 |].
  eexists. split.
  - unfold handleSave, try_catch.
    unfold ui_bind at 1. unfold lift at 1, JSON_parse at 1. rewrite Hnew.
    unfold parse at 1. rewrite E1. cbn [w_heap with_heap fullJson].
    unfold ui_bind at 1. unfold lift at 1, JSON_parse at 1. cbn [w_heap with_heap fullJson].
    rewrite Hdoc. unfold parse at 1. rewrite E2.
    unfold ui_bind at 1. unfold lift at 1. cbn [w_heap with_heap selectedNode].
    rewrite Hsel. cbn [mbind option_bind]. rewrite Hpath, Hupd.
    unfold ui_bind at 1. unfold lift at 1. cbn [w_heap with_heap].
    unfold stringify_pretty, bind at 1, stringify. rewrite Hread. unfold ret.
    cbn [fmap option_fmap option_map].
    unfold ui_bind at 1. unfold setContents at 1.
    unfold ui_bind at 1. unfold setState at 1.
    cbn [w_heap with_heap call selectedNode]. rewrite Hsel.
    unfold update_selected, bind. rewrite Hent. unfold ret.
    unfold ui_bind, toast_success, setIsEditing. reflexivity.
  - cbn [contents calls isEditing editedContent call with_heap].
    repeat split. unfold updated_json. now rewrite <- !app_assoc.
Qed.

End TreeRefinement.

(** X26: the patcher agrees with the patch on texts, at every depth.  For
    a document in normal form, a path of safe segments and a new value,
    [patch_tree] follows the segments through the objects and arrays of the
    document, through a new empty object where a member or element is absent
    or a falsy scalar, and sets the final segment.  When it has a result,
    [updateJsonAtPath] returns a value that is written out as that result;
    when it throws, so does [updateJsonAtPath]. *)
Theorem patch_refines_patch_tree doc new segs last :
  normal doc = doc -> forallb segment_safe (segs ++ [last]) = true ->
  (forall r, patch_tree segs last (normal new) doc = Normal r ->
             patch doc (jsonPathToString (Some (segs ++ [last]))) new = Normal (Some r))
  /\ (forall e, patch_tree segs last (normal new) doc = Throw e ->
                patch doc (jsonPathToString (Some (segs ++ [last]))) new = Throw e).
Proof. exact (patch_agrees doc new segs last). Qed.

Lemma patch_refines_patch_tree_witness :
  let doc := JObject [("a", JObject [("b", JArray [JNumber 1; JObject [("c", JNumber 2)]])]);
                      ("z", JNumber 0)] in
  let segs := [Key "a"; Key "b"; Index 1] in
  normal doc = doc /\ forallb segment_safe (segs ++ [Key "c"]) = true
  /\ patch_tree segs (Key "c") (JString "x") doc
     = Normal (JObject [("a", JObject [("b", JArray [JNumber 1;
                                                     JObject [("c", JString "x")]])]);
                        ("z", JNumber 0)])
  /\ patch_tree [Key "z"; Key "y"] (Index 2) JNull doc
     = Normal (JObject [("a", JObject [("b", JArray [JNumber 1; JObject [("c", JNumber 2)]])]);
                        ("z", JObject [("y", JObject [("2", JNull)])])])
  /\ (forall r, patch_tree segs (Key "c") (normal (JString "x")) doc = Normal r ->
                patch doc (jsonPathToString (Some (segs ++ [Key "c"]))) (JString "x")
                = Normal (Some r))
  /\ (forall e, patch_tree segs (Key "c") (normal (JString "x")) doc = Throw e ->
                patch doc (jsonPathToString (Some (segs ++ [Key "c"]))) (JString "x")
                = Throw e).
Proof.
  intros doc segs. do 4 (split; [reflexivity |]).
  exact (patch_refines_patch_tree doc (JString "x") segs (Key "c") eq_refl eq_refl).
Defined.

(** X27: a Save writes the patched document.  When the buffer and the
    document text are JSON texts, the document in normal form, the path of
    the selected node is safe and not empty, and the patch on texts has a
    result, Save ends well: it writes the indented text of that result to
    the document store, then writes the graph store and reports the
    success, and leaves the editing state.  The buffer is not [null]. *)
Theorem save_writes_patched_document w doc new node segs last r :
  Parser.text (editedContent w) = Normal new ->
  Parser.text (fullJson w) = Normal doc ->
  normal doc = doc ->
  selectedNode w = Some node -> node_path node = Some (segs ++ [last]) ->
  forallb segment_safe (segs ++ [last]) = true ->
  patch_tree segs last (normal new) doc = Normal r ->
  new <> JNull ->
  exists w',
    handleSave w = (w', Normal tt)
    /\ contents w' = Some (Text.pretty EmptyString r)
    /\ calls w' = calls w ++ [SetContents (Some (Text.pretty EmptyString r));
                              SetGraphState; ToastSuccess updated_json]
    /\ isEditing w' = false /\ editedContent w' = editedContent w.
Proof. exact (save_patched w doc new node segs last r). Qed.

Lemma save_writes_patched_document_witness :
  let doc := JObject [("user", JObject [("name", JString "a"); ("tags", JArray [])])] in
  let new := JObject [("name", JString "b")] in
  let node := {| node_id := "3"; node_text := []; node_path := Some [Key "user"] |} in
  let w := {| w_heap := []; isEditing := true;
              editedContent := Text.pretty EmptyString new;
              selectedNode := Some node;
              fullJson := Text.pretty EmptyString doc;
              contents := None; calls := [] |} in
  Parser.text (editedContent w) = Normal new
  /\ Parser.text (fullJson w) = Normal doc
  /\ patch_tree [] (Key "user") (normal new) doc
     = Normal (JObject [("user", JObject [("name", JString "b")])])
  /\ exists w',
       handleSave w = (w', Normal tt)
       /\ contents w'
          = Some (Text.pretty EmptyString (JObject [("user", JObject [("name", JString "b")])]))
       /\ calls w' = calls w
                     ++ [SetContents
                           (Some (Text.pretty EmptyString
                                    (JObject [("user", JObject [("name", JString "b")])])));
                         SetGraphState; ToastSuccess updated_json]
       /\ isEditing w' = false /\ editedContent w' = editedContent w.
Proof.
  intros doc new node w. do 3 (split; [reflexivity |]).
  exact (save_writes_patched_document w doc new node [] (Key "user") _
           eq_refl eq_refl eq_refl eq_refl eq_refl eq_refl eq_refl ltac:(discriminate)).
Defined.

Section PutGet.

Lemma set_item_lookup n (x : json) items : set_item n x items !! n = Some x.
Proof.
  unfold set_item. destruct (n <? length items)%nat eqn:E.
  - apply Nat.ltb_lt in E. now apply list_lookup_insert_eq.
  - apply Nat.ltb_ge in E. rewrite lookup_app_r by lia.
    rewrite lookup_app_r; rewrite length_replicate; [| lia].
    replace (n - length items - (n - length items)) with 0 by lia. reflexivity.
Qed.

Lemma child_write_tree j k x oc :
  read_tree j k = Normal oc -> child (write_tree j k x) k = Some x.
Proof.
  destruct j as [| b | z | s | items | members]; cbn.
  - discriminate.
  - destruct (String.eqb k proto_key); discriminate.
  - destruct (String.eqb k proto_key); discriminate.
  - destruct (String.eqb k proto_key); discriminate.
  - destruct (array_index k) as [n|] eqn:E; [| discriminate]. intros _.
    cbn. rewrite E. cbn. apply set_item_lookup.
  - intros _. apply lookup_define_same.
Qed.

Lemma child_assign_tree j k x r :
  assign_tree j k x = Normal r -> child r k = Some x.
Proof.
  destruct j as [| b | z | s | items | members]; cbn.
  - discriminate.
  - destruct (String.eqb k proto_key); discriminate.
  - destruct (String.eqb k proto_key); discriminate.
  - destruct (String.eqb k proto_key); discriminate.
  - destruct (array_index k) as [n|] eqn:E; [| discriminate]. intros [= <-].
    cbn. rewrite E. cbn. apply set_item_lookup.
  - destruct (String.eqb k proto_key && negb (is_Some_bool (lookup_prop k members)));
      [discriminate |].
    intros [= <-]. apply lookup_define_same.
Qed.

Lemma patch_tree_get segs : forall last x j r,
  patch_tree segs last x j = Normal r -> get_at (segs ++ [last]) r = Some x.
Proof.
  induction segs as [|seg rest IH]; intros last x j r E.
  - cbn in E |- *. now rewrite (child_assign_tree _ _ _ _ E).
  - cbn [patch_tree] in E.
    destruct (read_tree j (property_key seg)) as [oc| e |] eqn:Er; try discriminate E.
    cbn [cbind] in E.
    destruct (patch_tree rest last x (or_empty oc)) as [rc| e |] eqn:Ep; try discriminate E.
    cbn [cbind] in E. injection E as <-.
    cbn [app get_at]. rewrite (child_write_tree _ _ _ _ Er). cbn.
    exact (IH _ _ _ _ Ep).
Qed.

End PutGet.

(** X28: after a patch, the path leads to the new value.  For a document
    in normal form and a safe path, when the patch on texts has a result,
    [updateJsonAtPath] returns a value that is written out as a text in
    which the segments of the path, followed from the root, end at the new
    value as [JSON.stringify] writes it. *)
Theorem patch_then_get doc new segs last r :
  normal doc = doc -> forallb segment_safe (segs ++ [last]) = true ->
  patch_tree segs last (normal new) doc = Normal r ->
  patch doc (jsonPathToString (Some (segs ++ [last]))) new = Normal (Some r)
  /\ get_at (segs ++ [last]) r = Some (normal new).
Proof.
  intros Hn Hsafe Hr. split.
  - now apply (patch_agrees doc new segs last Hn Hsafe).
  - exact (patch_tree_get _ _ _ _ _ Hr).
Qed.

Lemma patch_then_get_witness :
  let doc := JObject [("a", JArray [JNumber 1])] in
  let r := JObject [("a", JArray [JNumber 1; JNull; JObject [("b", JBool true)]])] in
  normal doc = doc /\ forallb segment_safe ([Key "a"; Index 2] ++ [Key "b"]) = true
  /\ patch_tree [Key "a"; Index 2] (Key "b") (normal (JBool true)) doc = Normal r
  /\ patch doc (jsonPathToString (Some ([Key "a"; Index 2] ++ [Key "b"]))) (JBool true)
     = Normal (Some r)
  /\ get_at ([Key "a"; Index 2] ++ [Key "b"]) r = Some (normal (JBool true)).
Proof.
  intros doc r. do 3 (split; [reflexivity |]).
  exact (patch_then_get doc (JBool true) [Key "a"; Index 2] (Key "b") r
           eq_refl eq_refl eq_refl).
Defined.

(** X29: Edit and then Save, without a change, keep the scalar rows only.
    In the viewing state, on a node with a safe path and two rows or more,
    or one row with a key, a click on Edit followed by Save writes the
    document in which the node is replaced by the object of its rows that
    have a key and a boolean, a number or a string as value: what the node
    held under the rows whose value is an object, an array or [null] is no
    longer in the document. *)
Theorem edit_then_save_keeps_scalar_rows w doc node segs last r :
  let rows := node_text node in
  isEditing w = false -> selectedNode w = Some node ->
  match rows with [row] => key_truthy row | _ => true end = true ->
  forallb (fun row => exact_value (row_value row)) rows = true ->
  node_path node = Some (segs ++ [last]) ->
  forallb segment_safe (segs ++ [last]) = true ->
  Parser.text (fullJson w) = Normal doc -> normal doc = doc ->
  patch_tree segs last (normal (JObject (members_of (compact rows)))) doc = Normal r ->
  exists w',
    (click handleEditToggle ;;; handleSave)%ui w = (w', Normal tt)
    /\ contents w' = Some (Text.pretty EmptyString r)
    /\ calls w' = calls w ++ [SetContents (Some (Text.pretty EmptyString r));
                              SetGraphState; ToastSuccess updated_json]
    /\ isEditing w' = false.
Proof.
  intros rows Hview Hsel Hrows Hexact Hpath Hsafe Hdoc Hn Hr.
  assert (Hrows' : match default [] (node_text <$> selectedNode w) with
                   | [row] => key_truthy row
                   | _ => true
                   end = true) by (now rewrite Hsel).
  destruct (click_edit w Hview Hrows') as [h1 Hedit].
  rewrite Hsel in Hedit. cbn [fmap option_fmap option_map default] in Hedit.
  fold rows in Hedit.
  unfold ui_bind. rewrite Hedit.
  match goal with
  | |- context [handleSave ?w1] =>
      destruct (save_patched w1 doc (JObject (members_of (compact rows))) node segs last r)
        as (w' & Hsave & Hc & Hcalls & He & _)
  end; try assumption; try reflexivity.
  - cbn [editedContent]. apply text_pretty. cbn [ints_exact].
    now apply members_of_exact, compact_exact.
  - discriminate.
  - exists w'. rewrite Hsave. repeat split; assumption.
Qed.

Lemma edit_then_save_keeps_scalar_rows_witness :
  let row k v := {| row_key := Some k; row_value := v; row_type := "default" |} in
  let doc := JObject [("user", JObject [("name", JString "a");
                                        ("address", JObject [("city", JString "x")])])] in
  let node := {| node_id := "2";
                 node_text := [row "name" (VString "a"); row "address" (VObject 0)];
                 node_path := Some [Key "user"] |} in
  let w := {| w_heap := [Obj [("city", VString "x")]]; isEditing := false;
              editedContent := EmptyString; selectedNode := Some node;
              fullJson := Text.pretty EmptyString doc;
              contents := Some (Text.pretty EmptyString doc); calls := [] |} in
  let r := JObject [("user", JObject [("name", JString "a")])] in
  isEditing w = false /\ Parser.text (fullJson w) = Normal doc
  /\ patch_tree [] (Key "user") (normal (JObject (members_of (compact (node_text node))))) doc
     = Normal r
  /\ exists w',
       (click handleEditToggle ;;; handleSave)%ui w = (w', Normal tt)
       /\ contents w' = Some (Text.pretty EmptyString r)
       /\ calls w' = calls w ++ [SetContents (Some (Text.pretty EmptyString r));
                                 SetGraphState; ToastSuccess updated_json]
       /\ isEditing w' = false.
Proof.
  intros row doc node w r. do 3 (split; [reflexivity |]).
  exact (edit_then_save_keeps_scalar_rows w doc node [] (Key "user") r
           eq_refl eq_refl eq_refl eq_refl eq_refl eq_refl eq_refl eq_refl eq_refl).
Defined.

(** ** The patch at a location of the document, and where there is none *)

Section Locations.

Lemma array_index_key k n : array_index k = Some n -> k = Str.of_N n.
Proof.
  unfold array_index. destruct (Numeral.decimal_value k) as [m|]; [| discriminate].
  destruct (String.eqb (Str.of_N m) k && (m <? 4294967295)%N) eqn:E; [| discriminate].
  intros [= <-]. apply andb_true_iff in E as [E _]. symmetry. now apply String.eqb_eq.
Qed.

Lemma set_item_other_in n m (x : json) items :
  m <> n -> n < length items -> set_item n x items !! m = items !! m.
Proof.
  intros Hne Hlt. unfold set_item.
  destruct (Nat.ltb_spec n (length items)); [| lia].
  now apply list_lookup_insert_ne.
Qed.

Lemma set_item_other_past n m (x : json) items :
  m <> n -> length items <= n ->
  set_item n x items !! m = items !! m
  \/ (items !! m = None /\ set_item n x items !! m = Some JNull).
Proof.
  intros Hne Hge. unfold set_item.
  destruct (Nat.ltb_spec n (length items)); [lia |].
  destruct (decide (m < length items)) as [Hm | Hm].
  - left. now apply lookup_app_l.
  - assert (Hnone : items !! m = None) by (apply lookup_ge_None_2; lia).
    rewrite Hnone. rewrite lookup_app_r by lia.
    destruct (decide (m < n)) as [Hmn | Hmn].
    + right. split; [reflexivity |].
      rewrite lookup_app_l by (rewrite length_replicate; lia).
      apply lookup_replicate_2. lia.
    + left. apply lookup_ge_None_2.
      rewrite length_app, length_replicate. cbn. lia.
Qed.

Lemma child_read j k c : child j k = Some c -> read_tree j k = Normal (Some c).
Proof.
  destruct j as [| b | z | s | items | members]; cbn; try discriminate.
  - destruct (array_index k) as [n|]; cbn; [| discriminate]. now intros ->.
  - now intros ->.
Qed.

Lemma child_truthy j k c : child j k = Some c -> falsy_scalar j = false.
Proof. destruct j; cbn; try discriminate; reflexivity. Qed.

Lemma get_at_truthy p j y : p <> [] -> get_at p j = Some y -> falsy_scalar j = false.
Proof.
  destruct p as [|seg rest]; [congruence |]. intros _. cbn [get_at].
  destruct (child j (property_key seg)) as [c|] eqn:E; [| discriminate].
  intros _. exact (child_truthy _ _ _ E).
Qed.

Lemma absent_read j k : absent_in j k = true -> read_tree j k = Normal None.
Proof.
  destruct j as [| b | z | s | items | members]; cbn; try discriminate.
  - destruct (array_index k) as [n|]; [| discriminate].
    intros H. apply Nat.leb_le in H. f_equal. apply lookup_ge_None_2. lia.
  - intros H. apply andb_true_iff in H as [H1 H2].
    destruct (lookup_prop k members); [discriminate |].
    apply negb_true_iff in H2. now rewrite H2.
Qed.

Lemma absent_truthy j k : absent_in j k = true -> falsy_scalar j = false.
Proof. destruct j; cbn; try discriminate; reflexivity. Qed.

Lemma assign_present j k x c :
  child j k = Some c -> assign_tree j k x = Normal (write_tree j k x).
Proof.
  destruct j as [| b | z | s | items | members]; cbn; try discriminate.
  - destruct (array_index k) as [n|]; cbn; [reflexivity | discriminate].
  - intros ->. cbn. now rewrite andb_false_r.
Qed.

(** A write at a place that holds something leaves every other place of the
    same object or array as it was. *)
Lemma child_write_other j k k' x c :
  k' <> k -> child j k = Some c -> child (write_tree j k x) k' = child j k'.
Proof.
  intros Hne. destruct j as [| b | z | s | items | members]; cbn; try discriminate.
  - destruct (array_index k) as [n|] eqn:En; cbn; [| discriminate].
    intros Hc. destruct (array_index k') as [m|] eqn:Em; cbn; [| reflexivity].
    apply set_item_other_in; [| eapply lookup_lt_Some; eauto].
    intros Heq. apply Hne.
    apply array_index_key in En, Em. rewrite En, Em.
    f_equal. now apply N2Nat.inj.
  - intros _. apply lookup_define_other. congruence.
Qed.

(** A write at an absent place leaves every other place as it was, except
    for the holes that it makes in an array, which are written [null]. *)
Lemma child_write_absent j k k' x :
  k' <> k -> absent_in j k = true ->
  child (write_tree j k x) k' = child j k'
  \/ ((exists items, j = JArray items)
      /\ child j k' = None /\ child (write_tree j k x) k' = Some JNull).
Proof.
  intros Hne. destruct j as [| b | z | s | items | members]; cbn; try discriminate.
  - destruct (array_index k) as [n|] eqn:En; [| discriminate].
    intros Hlen. apply Nat.leb_le in Hlen. cbn.
    destruct (array_index k') as [m|] eqn:Em; cbn; [| now left].
    assert (Hmn : N.to_nat m <> N.to_nat n).
    { intros Heq. apply Hne. apply array_index_key in En, Em. rewrite En, Em.
      f_equal. now apply N2Nat.inj. }
    destruct (set_item_other_past _ _ x items Hmn Hlen) as [Heq | [Hnone Hhole]];
      [now left | right].
    split; [now exists items | now split].
  - intros _. left. apply lookup_define_other. congruence.
Qed.

(** In a new object, the walk makes one object for each segment. *)
Lemma patch_tree_fresh post : forall last x,
  forallb (fun seg => negb (mem_string (property_key seg) object_prototype_names))
          (post ++ [last]) = true ->
  patch_tree post last x (JObject []) = Normal (nest post last x).
Proof.
  induction post as [|seg rest IH]; intros last x Hnames.
  - cbn in Hnames. rewrite andb_true_r in Hnames. apply negb_true_iff in Hnames.
    cbn [patch_tree assign_tree nest fold_right lookup_prop is_Some_bool negb].
    rewrite andb_true_r.
    destruct (String.eqb_spec (property_key last) proto_key) as [E | _].
    + rewrite E in Hnames. discriminate Hnames.
    + cbn [write_tree]. now rewrite define_prop_nil.
  - cbn [app forallb] in Hnames. apply andb_true_iff in Hnames as [Hseg Hrest].
    apply negb_true_iff in Hseg.
    cbn [patch_tree read_tree lookup_prop]. rewrite Hseg. cbn [cbind or_empty].
    rewrite (IH _ _ Hrest). cbn [cbind write_tree nest fold_right].
    now rewrite define_prop_nil.
Qed.

(** The patch on texts at a place that holds something. *)
Lemma replace_tree segs : forall last x j old,
  get_at (segs ++ [last]) j = Some old ->
  exists r,
    patch_tree segs last x j = Normal r
    /\ forall q, apart q (segs ++ [last]) = true -> get_at q r = get_at q j.
Proof.
  induction segs as [|seg rest IH]; intros last x j old Hold.
  - cbn [app get_at] in Hold.
    destruct (child j (property_key last)) as [c|] eqn:Ec; [| discriminate].
    exists (write_tree j (property_key last) x). split.
    + cbn [patch_tree]. exact (assign_present _ _ _ _ Ec).
    + intros [|b q'] Hq; [discriminate |]. cbn [app apart] in Hq.
      destruct (String.eqb_spec (property_key b) (property_key last)) as [_ | Hne];
        [now destruct q' |].
      cbn [get_at]. now rewrite (child_write_other _ _ _ x _ Hne Ec).
  - cbn [app get_at] in Hold.
    destruct (child j (property_key seg)) as [c|] eqn:Ec; [| discriminate].
    cbn in Hold.
    destruct (IH last x c old Hold) as (r' & Hr' & Hframe).
    exists (write_tree j (property_key seg) r'). split.
    + cbn [patch_tree]. rewrite (child_read _ _ _ Ec). cbn [cbind or_empty].
      rewrite (get_at_truthy (rest ++ [last]) c old) by (try exact Hold; now destruct rest).
      rewrite Hr'. reflexivity.
    + intros [|b q'] Hq; [discriminate |]. cbn [app apart] in Hq.
      cbn [get_at].
      destruct (String.eqb_spec (property_key b) (property_key seg)) as [Eb | Hne].
      * rewrite Eb, (child_write_tree _ _ _ _ (child_read _ _ _ Ec)), Ec. cbn.
        exact (Hframe _ Hq).
      * now rewrite (child_write_other _ _ _ r' _ Hne Ec).
Qed.

(** The patch on texts at a place under an absent member or element. *)
Lemma vivify_tree pre : forall k post last x j c,
  get_at pre j = Some c -> absent_in c (property_key k) = true ->
  forallb (fun seg => negb (mem_string (property_key seg) object_prototype_names))
          (post ++ [last]) = true ->
  exists r,
    patch_tree (pre ++ k :: post) last x j = Normal r
    /\ get_at (pre ++ [k]) r = Some (nest post last x)
    /\ forall q, apart q (pre ++ [k]) = true ->
         get_at q r = get_at q j
         \/ ((exists items, c = JArray items)
             /\ get_at q j = None /\ get_at q r = Some JNull).
Proof.
  induction pre as [|seg rest IH]; intros k post last x j c Hc Habs Hnames.
  - cbn [get_at] in Hc. injection Hc as ->.
    pose proof (absent_read _ _ Habs) as Hread.
    exists (write_tree c (property_key k) (nest post last x)). split; [| split].
    + cbn [app patch_tree]. rewrite Hread. cbn [cbind or_empty].
      now rewrite (patch_tree_fresh _ _ _ Hnames).
    + cbn [app get_at]. now rewrite (child_write_tree _ _ _ _ Hread).
    + intros [|b q'] Hq; [discriminate |]. cbn [app apart] in Hq.
      destruct (String.eqb_spec (property_key b) (property_key k)) as [_ | Hne];
        [now destruct q' |].
      cbn [get_at].
      destruct (child_write_absent _ _ _ (nest post last x) Hne Habs)
        as [-> | (Harr & -> & ->)]; [now left |].
      cbn. destruct q' as [|b' q'']; [right; now repeat split | now left].
  - cbn [get_at] in Hc.
    destruct (child j (property_key seg)) as [c1|] eqn:Ec; [| discriminate].
    cbn in Hc.
    destruct (IH k post last x c1 c Hc Habs Hnames) as (r' & Hr' & Hget & Hframe).
    assert (Htruthy : falsy_scalar c1 = false).
    { destruct rest as [|s rest'].
      - cbn in Hc. injection Hc as ->. exact (absent_truthy _ _ Habs).
      - now apply (get_at_truthy (s :: rest') c1 c). }
    exists (write_tree j (property_key seg) r'). split; [| split].
    + cbn [app patch_tree]. rewrite (child_read _ _ _ Ec). cbn [cbind or_empty].
      rewrite Htruthy, Hr'. reflexivity.
    + cbn [app get_at].
      rewrite (child_write_tree _ _ _ _ (child_read _ _ _ Ec)). cbn. exact Hget.
    + intros [|b q'] Hq; [discriminate |]. cbn [app apart] in Hq.
      cbn [get_at].
      destruct (String.eqb_spec (property_key b) (property_key seg)) as [Eb | Hne].
      * rewrite Eb, (child_write_tree _ _ _ _ (child_read _ _ _ Ec)), Ec. cbn.
        exact (Hframe _ Hq).
      * left. now rewrite (child_write_other _ _ _ r' _ Hne Ec).
Qed.

End Locations.

(** C6: the patch replaces exactly what the path leads to.  For a document
    as [JSON.parse] gives it, a path of safe segments that leads to a value
    of the document, whatever that value is, and any new value: the patcher
    returns a document in which the path leads to the new value, as
    [JSON.stringify] writes it, and every path that leaves the patched one,
    to a sibling of the location or of one of its ancestors and to what lies
    below, leads to what it led to before, or nowhere as before.  With the
    document that maps [a] to the object that maps [b] to 1, the path of
    [a] and [b] and the new value 2, this is the example of the
    specification. *)
Theorem patch_replaces_final_segment doc segs last old new :
  normal doc = doc ->
  forallb segment_safe (segs ++ [last]) = true ->
  get_at (segs ++ [last]) doc = Some old ->
  exists r,
    patch doc (jsonPathToString (Some (segs ++ [last]))) new = Normal (Some r)
    /\ get_at (segs ++ [last]) r = Some (normal new)
    /\ forall q, apart q (segs ++ [last]) = true -> get_at q r = get_at q doc.
Proof.
  intros Hn Hsafe Hold.
  destruct (replace_tree segs last (normal new) doc old Hold) as (r & Hr & Hframe).
  exists r. split; [| split].
  - now apply (patch_agrees doc new segs last Hn Hsafe).
  - exact (patch_tree_get _ _ _ _ _ Hr).
  - exact Hframe.
Qed.

Lemma patch_replaces_final_segment_witness :
  let doc1 := JObject [("a", JObject [("b", JNumber 1)])] in
  let doc2 := JObject [("a", JObject [("b", JObject [("c", JArray [JNumber 1])]);
                                      ("s", JArray [JNumber 7; JNull])]);
                       ("t", JBool true)] in
  let p := [Key "a"] ++ [Key "b"] in
  (normal doc1 = doc1 /\ forallb segment_safe p = true
   /\ get_at p doc1 = Some (JNumber 1)
   /\ jsonPathToString (Some p) = "$[" +:+ quoted "a" +:+ "][" +:+ quoted "b" +:+ "]"
   /\ patch doc1 (jsonPathToString (Some p)) (JNumber 2)
      = Normal (Some (JObject [("a", JObject [("b", JNumber 2)])]))
   /\ exists r,
        patch doc1 (jsonPathToString (Some p)) (JNumber 2) = Normal (Some r)
        /\ get_at p r = Some (normal (JNumber 2))
        /\ forall q, apart q p = true -> get_at q r = get_at q doc1)
  /\ (normal doc2 = doc2
      /\ get_at p doc2 = Some (JObject [("c", JArray [JNumber 1])])
      /\ patch doc2 (jsonPathToString (Some p)) (JString "text")
         = Normal (Some (JObject [("a", JObject [("b", JString "text");
                                                  ("s", JArray [JNumber 7; JNull])]);
                                  ("t", JBool true)]))
      /\ apart [Key "a"; Key "s"; Index 0] p = true
      /\ exists r,
           patch doc2 (jsonPathToString (Some p)) (JString "text") = Normal (Some r)
           /\ get_at p r = Some (normal (JString "text"))
           /\ forall q, apart q p = true -> get_at q r = get_at q doc2).
Proof.
  intros doc1 doc2 p. split.
  - do 5 (split; [reflexivity |]).
    exact (patch_replaces_final_segment doc1 [Key "a"] (Key "b") (JNumber 1) (JNumber 2)
             eq_refl eq_refl eq_refl).
  - do 4 (split; [reflexivity |]).
    exact (patch_replaces_final_segment doc2 [Key "a"] (Key "b")
             (JObject [("c", JArray [JNumber 1])]) (JString "text")
             eq_refl eq_refl eq_refl).
Defined.

(** C7, as the code has it.  For a document as [JSON.parse] gives it and a
    path of safe segments: when the segments [pre] lead to an object that
    has no member for the next segment [k], or to an array that ends before
    the index [k], and neither [k] nor a later segment is a name that every
    object inherits, the patcher makes an empty object at that place and
    goes on in it.  It returns a document in which [pre] and [k] lead to the
    new object, which holds one object of one member for each later segment
    and the new value under the last; every path that leaves the one of
    [pre] and [k] leads to what it led to before, or to a hole that the new
    element leaves in the array, written [null].  With the empty document,
    the keys [x] and [y] and the new value 5, this is the example of the
    specification. *)
Theorem autovivification doc pre k post last c new :
  normal doc = doc ->
  forallb segment_safe (pre ++ k :: post ++ [last]) = true ->
  get_at pre doc = Some c ->
  absent_in c (property_key k) = true ->
  forallb (fun seg => negb (mem_string (property_key seg) object_prototype_names))
          (post ++ [last]) = true ->
  exists r,
    patch doc (jsonPathToString (Some (pre ++ k :: post ++ [last]))) new
    = Normal (Some r)
    /\ get_at (pre ++ [k]) r = Some (nest post last (normal new))
    /\ forall q, apart q (pre ++ [k]) = true ->
         get_at q r = get_at q doc
         \/ ((exists items, c = JArray items)
             /\ get_at q doc = None /\ get_at q r = Some JNull).
Proof.
  intros Hn Hsafe Hc Habs Hnames.
  destruct (vivify_tree pre k post last (normal new) doc c Hc Habs Hnames)
    as (r & Hr & Hget & Hframe).
  exists r. split; [| split; [exact Hget | exact Hframe]].
  replace (pre ++ k :: post ++ [last]) with ((pre ++ k :: post) ++ [last]) in Hsafe |- *
    by (now rewrite <- app_assoc).
  now apply (patch_agrees doc new (pre ++ k :: post) last Hn Hsafe).
Qed.

Lemma autovivification_witness :
  let doc1 := JObject [] in
  let doc2 := JObject [("a", JArray [JNumber 1]); ("t", JBool true)] in
  (normal doc1 = doc1
   /\ get_at [] doc1 = Some doc1 /\ absent_in doc1 "x" = true
   /\ patch doc1 (jsonPathToString (Some [Key "x"; Key "y"])) (JNumber 5)
      = Normal (Some (JObject [("x", JObject [("y", JNumber 5)])]))
   /\ exists r,
        patch doc1 (jsonPathToString (Some ([] ++ Key "x" :: [] ++ [Key "y"]))) (JNumber 5)
        = Normal (Some r)
        /\ get_at ([] ++ [Key "x"]) r = Some (nest [] (Key "y") (normal (JNumber 5)))
        /\ forall q, apart q ([] ++ [Key "x"]) = true ->
             get_at q r = get_at q doc1
             \/ ((exists items, doc1 = JArray items)
                 /\ get_at q doc1 = None /\ get_at q r = Some JNull))
  /\ (normal doc2 = doc2
      /\ get_at [Key "a"] doc2 = Some (JArray [JNumber 1])
      /\ absent_in (JArray [JNumber 1]) (property_key (Index 2)) = true
      /\ patch doc2 (jsonPathToString (Some [Key "a"; Index 2; Key "p"; Key "q"]))
               (JBool false)
         = Normal (Some (JObject [("a", JArray [JNumber 1; JNull;
                                                 JObject [("p", JObject [("q", JBool false)])]]);
                                  ("t", JBool true)]))
      /\ exists r,
           patch doc2 (jsonPathToString
                         (Some ([Key "a"] ++ Index 2 :: [Key "p"] ++ [Key "q"])))
                 (JBool false)
           = Normal (Some r)
           /\ get_at ([Key "a"] ++ [Index 2]) r
              = Some (nest [Key "p"] (Key "q") (normal (JBool false)))
           /\ forall q, apart q ([Key "a"] ++ [Index 2]) = true ->
                get_at q r = get_at q doc2
                \/ ((exists items, JArray [JNumber 1] = JArray items)
                    /\ get_at q doc2 = None /\ get_at q r = Some JNull)).
Proof.
  intros doc1 doc2. split.
  - do 4 (split; [reflexivity |]).
    exact (autovivification doc1 [] (Key "x") [] (Key "y") doc1 (JNumber 5)
             eq_refl eq_refl eq_refl eq_refl eq_refl).
  - do 4 (split; [reflexivity |]).
    exact (autovivification doc2 [Key "a"] (Index 2) [Key "p"] (Key "q")
             (JArray [JNumber 1]) (JBool false)
             eq_refl eq_refl eq_refl eq_refl eq_refl).
Defined.

(** C7 as stated fails.  In the document that maps [a] to 5, nothing is at
    the place of [a] and [x]; the patch at the path of [a], [x] and [y] makes
    no object there: the number is kept, and the assignment to a property of
    a number throws a TypeError. *)
Lemma autovivification_fails_under_scalar :
  let doc := JObject [("a", JNumber 5)] in
  normal doc = doc
  /\ get_at [Key "a"; Key "x"] doc = None
  /\ patch doc (jsonPathToString (Some [Key "a"; Key "x"; Key "y"])) (JNumber 1)
     = Throw TypeError.
Proof. intros doc. repeat split. Qed.
